(** * Girder force extraction and diagram scaling (osdag-sfd-bmd)

    A shallow embedding of [src/geometry_utils.py] (the station extractor
    [extract_girder_forces], the 3D extractor [get_girder_3d_geometry], the
    offset scaler [calculate_diagram_offset] and the table [GIRDER_CONFIGS])
    and of the accessors of [src/load_data.py] ([DataLoader.get_node_coords],
    [get_element_nodes], [get_element_data]); further of its two table
    loaders ([load_node_coordinates], [load_element_connectivity], from
    the dict of the executed module on) and of the figure builder
    [create_3d_force_diagram] of [src/task2_sfd_bmd_3d.py] (the data of
    its traces; styling and printing are left out).

    The Python functions are written once, over an interface [Arith] of the
    arithmetic they use.  Two instances are given: [binary64], the IEEE-754
    double precision numbers that Python's [float] and NumPy's [float64]
    compute with (Rocq's primitive floats, specified by [SpecFloat]), and
    [exact], the real numbers of the specification's data model.  The
    one operation of [binary64] that IEEE-754 does not fix is [a ** 2],
    which CPython hands to the platform's [pow]; that function is a
    parameter ([Libm]).  What is proved of all inputs and involves
    [a ** 2] is proved for every platform; the concrete examples run on
    the platform [correctly_rounded].

    Exceptions are values of [result]; the calls made on the data loader
    are logged by the monad [M], so that "before any lookup" can be stated.

    Results that only depend on the shape of the computation are proved
    for every instance of [Arith].  Results about magnitudes and order are
    proved for [binary64] from the specification of its operations, and
    for [exact]; where the two differ, [binary64] is what the code does. *)

From Stdlib Require Import ZArith List Floats Reals Lra Lia.
From stdpp Require Import gmap strings list.

Set Warnings "-inexact-float".
Local Open Scope string_scope.
Local Open Scope list_scope.

(** ** Exceptions and results *)

(** The exceptions the modelled code raises: [ValueError] (bad
    [force_type], [np.max] of an empty array), [KeyError] (an id missing
    from a table), [RuntimeError] (dataset not loaded) and [OverflowError]
    (a float power whose result is out of range). *)
Inductive exn : Type :=
  | ValueError
  | KeyError
  | RuntimeError
  | OverflowError.

Inductive result (A : Type) : Type :=
  | Ok (a : A)
  | Err (e : exn).
Arguments Ok {A} a.
Arguments Err {A} e.

Definition rbind {A B : Type} (r : result A) (k : A -> result B) : result B :=
  match r with
  | Ok a => k a
  | Err e => Err e
  end.

(** The calls an extraction makes on its data loader, in order. *)
Inductive call : Type :=
  | GetElementData (element_id : Z)
  | GetElementNodes (element_id : Z)
  | GetNodeCoords (node_id : Z).

(** A computation that calls the loader: the calls made so far, and the
    value returned or the exception raised. *)
Definition M (A : Type) : Type := (list call * result A)%type.

Definition ret {A : Type} (a : A) : M A := ([], Ok a).

Definition raise {A : Type} (e : exn) : M A := ([], Err e).

Definition bind {A B : Type} (c : M A) (k : A -> M B) : M B :=
  match c with
  | (t, Ok a) => let (t', r) := k a in (t ++ t', r)
  | (t, Err e) => (t, Err e)
  end.

(** A call on the loader: it is recorded, then it returns or raises. *)
Definition perform {A : Type} (c : call) (r : result A) : M A := ([c], r).

(** Arithmetic and indexing that can raise, but calls nothing. *)
Definition lift {A : Type} (r : result A) : M A := ([], r).

Definition calls {A : Type} (c : M A) : list call := fst c.
Definition outcome {A : Type} (c : M A) : result A := snd c.

Declare Scope comp_scope.
Delimit Scope comp_scope with comp.
Notation "x <- c ;; k" := (bind c (fun x => k))
  (at level 100, c at next level, right associativity) : comp_scope.
Notation "x <~ c ;; k" := (rbind c (fun x => k))
  (at level 100, c at next level, right associativity) : comp_scope.

(** ** The arithmetic the code uses *)

Class Arith (num : Type) : Type := {
  zero : num;                      (* the literal 0.0 *)
  add : num -> num -> num;         (* a + b *)
  sub : num -> num -> num;         (* a - b *)
  mul : num -> num -> num;         (* a * b *)
  div : num -> num -> num;         (* a / b on NumPy arrays *)
  square : num -> result num;      (* a ** 2 on Python floats *)
  root : num -> num;               (* np.sqrt *)
  absolute : num -> num;           (* np.abs *)
  maximum : num -> num -> num;     (* the step of the np.max reduction *)
  is_zero : num -> bool;           (* a == 0 *)
}.

(** The platform's C library, as far as the code reaches it: the function
    [pow] at the exponent 2.0.  Neither the source nor the C standard
    fixes its result to the last bit, and the libraries in use differ
    from the correctly rounded square by one unit in the last place on
    some arguments; so the function is a parameter of the model. *)
Class Libm : Type := { pow2 : float -> float }.

(** CPython's [float_pow] at the exponent 2.0, which is [a ** 2] on
    Python floats: a NaN, an infinite or a zero base and the bases 1.0 and
    -1.0 are settled without the library; any other base is made
    positive and passed to [pow], and an infinite result is an
    [OverflowError] ([1e200 ** 2] raises, whereas [1e200 * 1e200] is
    [inf]). *)
Definition float_pow `{Libm} (a : float) : result float :=
  if PrimFloat.is_nan a then Ok a
  else if PrimFloat.is_infinity a then Ok (PrimFloat.abs a)
  else if PrimFloat.eqb a 0%float then Ok 0%float
  else
    let iv := if PrimFloat.ltb a 0%float then PrimFloat.opp a else a in
    if PrimFloat.eqb iv 1%float then Ok 1%float
    else
      let ix := pow2 iv in
      if PrimFloat.is_infinity ix then Err OverflowError else Ok ix.

(** IEEE-754 binary64 on a platform.  Sum, difference, product, quotient
    and square root are correctly rounded on every platform; only
    [a ** 2] reaches the platform's library.  NumPy's maximum keeps its
    first argument when it is NaN or not smaller than the second. *)
#[export] Instance binary64 `{Libm} : Arith float := {
  zero := 0%float;
  add := PrimFloat.add;
  sub := PrimFloat.sub;
  mul := PrimFloat.mul;
  div := PrimFloat.div;
  square := float_pow;
  root := PrimFloat.sqrt;
  absolute := PrimFloat.abs;
  maximum := fun a b =>
    if PrimFloat.leb b a || PrimFloat.is_nan a then a else b;
  is_zero := fun a => PrimFloat.eqb a 0%float;
}.

(** A platform whose [pow] is correctly rounded at the exponent 2.0.  It
    is the platform of the concrete examples below. *)
#[export] Instance correctly_rounded : Libm := {
  pow2 := fun x => PrimFloat.mul x x;
}.

(** Exact real arithmetic: nothing overflows and nothing is rounded. *)
#[export] Instance exact : Arith R := {
  zero := 0%R;
  add := Rplus;
  sub := Rminus;
  mul := Rmult;
  div := Rdiv;
  square := fun a => Ok (a * a)%R;
  root := R_sqrt.sqrt;
  absolute := Rabs;
  maximum := fun a b => if Rle_dec b a then a else b;
  is_zero := fun a => if Req_dec_T a 0%R then true else false;
}.

(** ** load_data.py: the data loader and its accessors *)

Section Loader.
Context {num : Type} `{Arith num}.

(** A node of [self.nodes]: [{'x': .., 'y': .., 'z': ..}]. *)
Record coords : Type := { coord_x : num; coord_y : num; coord_z : num }.

(** An element of [self.elements]: [{'node_i': .., 'node_j': ..}]. *)
Record connectivity : Type := { node_i : Z; node_j : Z }.

(** What [self.dataset.sel(element=id)] selects: the names in
    [elem['Component'].values] and the flattened [elem['forces'].values]. *)
Record row : Type := { Component : list string; forces : list num }.

(** The dict [get_element_data] returns. *)
Record elem_data : Type := { Mz_i : num; Mz_j : num; Vy_i : num; Vy_j : num }.

Record DataLoader : Type := {
  dataset : option (gmap Z row);     (* None until load_xarray_data *)
  nodes : gmap Z coords;
  elements : gmap Z connectivity;
}.

Definition get_node_coords (self : DataLoader) (node_id : Z) : result coords :=
  match nodes self !! node_id with
  | Some c => Ok c
  | None => Err KeyError
  end.

Definition get_element_nodes (self : DataLoader) (element_id : Z)
  : result connectivity :=
  match elements self !! element_id with
  | Some c => Ok c
  | None => Err KeyError
  end.

(** [{str(components[i]): float(forces[i]) for i in range(len(components))}]:
    a later duplicate name overwrites an earlier one, and a [forces] array
    shorter than [components] is an [IndexError] ([None]). *)
Fixpoint build_comp_map (components : list string) (fs : list num)
    (comp_map : gmap string num) : option (gmap string num) :=
  match components with
  | [] => Some comp_map
  | c :: components' =>
      match fs with
      | [] => None
      | f :: fs' => build_comp_map components' fs' (<[c := f]> comp_map)
      end
  end.

(** The local function [find] of [get_element_data]. *)
Fixpoint find (comp_map : gmap string num) (keys : list string) : num :=
  match keys with
  | [] => zero
  | k :: keys' =>
      match comp_map !! k with
      | Some v => v
      | None => find comp_map keys'
      end
  end.

(** The names tried, in order, for each key of the returned dict. *)
Definition aliases (key : string) : list string :=
  if decide (key = "Mz_i") then ["Mz_i"; "MZ_I"; "MZ_I_END"; "BM_I"; "Mz"]
  else if decide (key = "Mz_j") then ["Mz_j"; "MZ_J"; "MZ_J_END"; "BM_J"; "Mz"]
  else if decide (key = "Vy_i") then ["Vy_i"; "VY_I"; "SF_I"; "Vy"]
  else if decide (key = "Vy_j") then ["Vy_j"; "VY_J"; "SF_J"; "Vy"]
  else [].

(** Any exception inside the [try] block is re-raised as [KeyError]. *)
Definition get_element_data (self : DataLoader) (element_id : Z)
  : result elem_data :=
  match dataset self with
  | None => Err RuntimeError
  | Some ds =>
      match ds !! element_id with
      | None => Err KeyError
      | Some elem =>
          match build_comp_map (Component elem) (forces elem) ∅ with
          | None => Err KeyError
          | Some comp_map =>
              Ok {| Mz_i := find comp_map (aliases "Mz_i");
                    Mz_j := find comp_map (aliases "Mz_j");
                    Vy_i := find comp_map (aliases "Vy_i");
                    Vy_j := find comp_map (aliases "Vy_j") |}
          end
      end
  end.

(** [elem_data[key]] on the returned dict. *)
Definition elem_getitem (d : elem_data) (key : string) : result num :=
  if decide (key = "Mz_i") then Ok (Mz_i d)
  else if decide (key = "Mz_j") then Ok (Mz_j d)
  else if decide (key = "Vy_i") then Ok (Vy_i d)
  else if decide (key = "Vy_j") then Ok (Vy_j d)
  else Err KeyError.

End Loader.

Arguments coords num : clear implicits.
Arguments row num : clear implicits.
Arguments elem_data num : clear implicits.
Arguments DataLoader num : clear implicits.

(** ** geometry_utils.py: the girder table *)

(** An entry of [GIRDER_CONFIGS]: [{"elements": [...], "nodes": [...]}]. *)
Record girder_config : Type := {
  girder_elements : list Z;
  girder_nodes : list Z;
}.

Definition GIRDER_CONFIGS : list (string * girder_config) :=
  [ ("Girder_1",
     {| girder_elements := [13; 22; 31; 40; 49; 58; 67; 76; 81];
        girder_nodes := [1; 11; 16; 21; 26; 31; 36; 41; 46; 6] |});
    ("Girder_2",
     {| girder_elements := [14; 23; 32; 41; 50; 59; 68; 77; 82];
        girder_nodes := [2; 12; 17; 22; 27; 32; 37; 42; 47; 7] |});
    ("Girder_3",
     {| girder_elements := [15; 24; 33; 42; 51; 60; 69; 78; 83];
        girder_nodes := [3; 13; 18; 23; 28; 33; 38; 43; 48; 8] |});
    ("Girder_4",
     {| girder_elements := [16; 25; 34; 43; 52; 61; 70; 79; 84];
        girder_nodes := [4; 14; 19; 24; 29; 34; 39; 44; 49; 9] |});
    ("Girder_5",
     {| girder_elements := [17; 26; 35; 44; 53; 62; 71; 80; 85];
        girder_nodes := [5; 15; 20; 25; 30; 35; 40; 45; 50; 10] |}) ]%Z.

(** ** geometry_utils.py: the extractors and the scaler *)

Section Geometry.
Context {num : Type} `{Arith num}.

(** [np.sqrt(dx ** 2 + dy ** 2 + dz ** 2)], the powers taken left to
    right; a power that overflows raises before the root is taken. *)
Definition elem_length (coord_i coord_j : coords num) : result num :=
  (dx2 <~ square (sub (coord_x coord_j) (coord_x coord_i)) ;;
   dy2 <~ square (sub (coord_y coord_j) (coord_y coord_i)) ;;
   dz2 <~ square (sub (coord_z coord_j) (coord_z coord_i)) ;;
   Ok (root (add (add dx2 dy2) dz2)))%comp.

(** The three locals the loop of [extract_girder_forces] updates. *)
Record walk : Type := {
  positions : list num;
  values : list num;
  current_position : num;
}.

(** The body of [for i, elem_id in enumerate(element_list)], from index
    [i] on. *)
Fixpoint extract_loop (data_loader : DataLoader num) (force_type : string)
    (i : nat) (element_list : list Z) (st : walk) : M walk :=
  match element_list with
  | [] => ret st
  | elem_id :: rest =>
     (elem_data <- perform (GetElementData elem_id)
                     (get_element_data data_loader elem_id) ;;
      elem_nodes <- perform (GetElementNodes elem_id)
                      (get_element_nodes data_loader elem_id) ;;
      coord_i <- perform (GetNodeCoords (node_i elem_nodes))
                   (get_node_coords data_loader (node_i elem_nodes)) ;;
      coord_j <- perform (GetNodeCoords (node_j elem_nodes))
                   (get_node_coords data_loader (node_j elem_nodes)) ;;
      len <- lift (elem_length coord_i coord_j) ;;
      values1 <- lift (if Nat.eqb i 0
                       then v <~ elem_getitem elem_data
                                   (String.append force_type "_i") ;;
                            Ok (values st ++ [v])
                       else Ok (values st)) ;;
      v_j <- lift (elem_getitem elem_data (String.append force_type "_j")) ;;
      extract_loop data_loader force_type (S i) rest
        {| positions := positions st ++ [add (current_position st) len];
           values := values1 ++ [v_j];
           current_position := add (current_position st) len |})%comp
  end.

Definition extract_girder_forces (data_loader : DataLoader num)
    (element_list : list Z) (force_type : string) : M (list num * list num) :=
  if decide (force_type ∈ ["Mz"; "Vy"]) then
    (st <- extract_loop data_loader force_type 0 element_list
             {| positions := [zero]; values := []; current_position := zero |} ;;
     ret (positions st, values st))%comp
  else raise ValueError.

(** [np.max] of an array: a [ValueError] on an empty one. *)
Definition np_max (a : list num) : result num :=
  match a with
  | [] => Err ValueError
  | v :: a' => Ok (fold_left maximum a' v)
  end.

Definition calculate_diagram_offset (force_values : list num)
    (scale_factor : num) : result (list num) :=
  (max_abs <~ np_max (map absolute force_values) ;;
   if is_zero max_abs then Ok (map (fun _ => zero) force_values)
   else Ok (map (fun v => mul (div v max_abs) scale_factor) force_values))%comp.

(** The dict [get_girder_3d_geometry] returns, and the five lists its
    loop fills. *)
Record geometry : Type := {
  geom_x : list num;
  geom_y : list num;
  geom_z : list num;
  geom_Mz : list num;
  geom_Vy : list num;
}.

Fixpoint geometry_loop (data_loader : DataLoader num) (i : nat)
    (element_list : list Z) (g : geometry) : M geometry :=
  match element_list with
  | [] => ret g
  | elem_id :: rest =>
     (elem_data <- perform (GetElementData elem_id)
                     (get_element_data data_loader elem_id) ;;
      elem_nodes <- perform (GetElementNodes elem_id)
                      (get_element_nodes data_loader elem_id) ;;
      coord_i <- perform (GetNodeCoords (node_i elem_nodes))
                   (get_node_coords data_loader (node_i elem_nodes)) ;;
      coord_j <- perform (GetNodeCoords (node_j elem_nodes))
                   (get_node_coords data_loader (node_j elem_nodes)) ;;
      let g1 :=
        if Nat.eqb i 0 then
          {| geom_x := geom_x g ++ [coord_x coord_i];
             geom_y := geom_y g ++ [coord_y coord_i];
             geom_z := geom_z g ++ [coord_z coord_i];
             geom_Mz := geom_Mz g ++ [Mz_i elem_data];
             geom_Vy := geom_Vy g ++ [Vy_i elem_data] |}
        else g in
      geometry_loop data_loader (S i) rest
        {| geom_x := geom_x g1 ++ [coord_x coord_j];
           geom_y := geom_y g1 ++ [coord_y coord_j];
           geom_z := geom_z g1 ++ [coord_z coord_j];
           geom_Mz := geom_Mz g1 ++ [Mz_j elem_data];
           geom_Vy := geom_Vy g1 ++ [Vy_j elem_data] |})%comp
  end.

Definition get_girder_3d_geometry (data_loader : DataLoader num)
    (element_list : list Z) : M geometry :=
  geometry_loop data_loader 0 element_list
    {| geom_x := []; geom_y := []; geom_z := []; geom_Mz := []; geom_Vy := [] |}.

(** [geom[key]] for the two force arrays of the returned dict. *)
Definition force_array (g : geometry) (key : string) : result (list num) :=
  if decide (key = "Mz") then Ok (geom_Mz g)
  else if decide (key = "Vy") then Ok (geom_Vy g)
  else Err KeyError.

(** *** Vocabulary of the statements *)

(** Every lookup the extractors make for element [e] succeeds. *)
Definition resolves (data_loader : DataLoader num) (e : Z) : Prop :=
  exists d n ci cj,
    get_element_data data_loader e = Ok d /\
    get_element_nodes data_loader e = Ok n /\
    get_node_coords data_loader (node_i n) = Ok ci /\
    get_node_coords data_loader (node_j n) = Ok cj.

(** The 3D length of element [e], from the loader's tables. *)
Definition length_of (data_loader : DataLoader num) (e : Z) : result num :=
  (n <~ get_element_nodes data_loader e ;;
   ci <~ get_node_coords data_loader (node_i n) ;;
   cj <~ get_node_coords data_loader (node_j n) ;;
   elem_length ci cj)%comp.

(** The length of [e] is computed without an [OverflowError]. *)
Definition measurable (data_loader : DataLoader num) (e : Z) : Prop :=
  forall n ci cj,
    get_element_nodes data_loader e = Ok n ->
    get_node_coords data_loader (node_i n) = Ok ci ->
    get_node_coords data_loader (node_j n) = Ok cj ->
    exists len, elem_length ci cj = Ok len.

(** Every entry of [l] is related to the next one: with "at most" this
    says [l] is non-decreasing, with "less than" strictly increasing. *)
Definition adjacent (rel : num -> num -> Prop) (l : list num) : Prop :=
  forall (k : nat) (a b : num),
    l !! k = Some a -> l !! S k = Some b -> rel a b.

(** The locals of [extract_girder_forces] before its loop. *)
Definition start : walk :=
  {| positions := [zero]; values := []; current_position := zero |}.

(** An id with no entry in the table a lookup reads: the element in the
    force dataset or in the connectivity table, or one of its two nodes in
    the node table. *)
Definition unknown_id (data_loader : DataLoader num) (e : Z) : Prop :=
  (exists ds, dataset data_loader = Some ds /\ ds !! e = None) \/
  elements data_loader !! e = None \/
  (exists n, elements data_loader !! e = Some n /\
             (nodes data_loader !! node_i n = None \/
              nodes data_loader !! node_j n = None)).

(** The check [force_type in ("Mz", "Vy")]. *)
Definition valid_force_type (force_type : string) : Prop :=
  force_type = "Mz" \/ force_type = "Vy".

(** The value at the [i] end and at the [j] end for a force type. *)
Definition end_i (force_type : string) (d : elem_data num) : num :=
  if decide (force_type = "Mz") then Mz_i d else Vy_i d.
Definition end_j (force_type : string) (d : elem_data num) : num :=
  if decide (force_type = "Mz") then Mz_j d else Vy_j d.

(** One iteration of the loop of [extract_girder_forces], without the
    call log. *)
Definition extract_step (data_loader : DataLoader num)
    (force_type : string) (i : nat) (e : Z) (st : walk) : result walk :=
  (d <~ get_element_data data_loader e ;;
   n <~ get_element_nodes data_loader e ;;
   ci <~ get_node_coords data_loader (node_i n) ;;
   cj <~ get_node_coords data_loader (node_j n) ;;
   len <~ elem_length ci cj ;;
   values1 <~ (if Nat.eqb i 0
               then v <~ elem_getitem d (String.append force_type "_i") ;;
                    Ok (values st ++ [v])
               else Ok (values st)) ;;
   v_j <~ elem_getitem d (String.append force_type "_j") ;;
   Ok {| positions := positions st ++ [add (current_position st) len];
         values := values1 ++ [v_j];
         current_position := add (current_position st) len |})%comp.

(** One iteration of the loop of [get_girder_3d_geometry], without the
    call log. *)
Definition geometry_step (data_loader : DataLoader num) (i : nat) (e : Z)
    (g : geometry) : result geometry :=
  (d <~ get_element_data data_loader e ;;
   n <~ get_element_nodes data_loader e ;;
   ci <~ get_node_coords data_loader (node_i n) ;;
   cj <~ get_node_coords data_loader (node_j n) ;;
   let g1 :=
     if Nat.eqb i 0 then
       {| geom_x := geom_x g ++ [coord_x ci];
          geom_y := geom_y g ++ [coord_y ci];
          geom_z := geom_z g ++ [coord_z ci];
          geom_Mz := geom_Mz g ++ [Mz_i d];
          geom_Vy := geom_Vy g ++ [Vy_i d] |}
     else g in
   Ok {| geom_x := geom_x g1 ++ [coord_x cj];
         geom_y := geom_y g1 ++ [coord_y cj];
         geom_z := geom_z g1 ++ [coord_z cj];
         geom_Mz := geom_Mz g1 ++ [Mz_j d];
         geom_Vy := geom_Vy g1 ++ [Vy_j d] |})%comp.

End Geometry.

Arguments walk num : clear implicits.
Arguments geometry num : clear implicits.

(** ** Concrete loaders (binary64) *)

Definition point (x y z : float) : coords float :=
  {| coord_x := x; coord_y := y; coord_z := z |}.

Definition member (i j : Z) : connectivity := {| node_i := i; node_j := j |}.

(** Three elements on a straight line along x, at x = 0, 1, 2, 3, with Mz
    end values (0, 10), (10, -5), (-5, 0); the dataset has no shear
    component for element 3. *)
Definition line_loader : DataLoader float :=
  {| dataset := Some (list_to_map
       [ (1%Z, {| Component := ["Mz_i"; "Mz_j"; "Vy_i"; "Vy_j"];
                  forces := [0; 10; 4; 4]%float |});
         (2%Z, {| Component := ["Mz_i"; "Mz_j"; "Vy_i"; "Vy_j"];
                  forces := [10; -5; -6; -6]%float |});
         (3%Z, {| Component := ["Mz_i"; "Mz_j"];
                  forces := [-5; 0]%float |}) ]);
     nodes := list_to_map
       [ (1%Z, point 0 0 0); (2%Z, point 1 0 0);
         (3%Z, point 2 0 0); (4%Z, point 3 0 0) ];
     elements := list_to_map
       [ (1%Z, member 1 2); (2%Z, member 2 3); (3%Z, member 3 4) ] |}.

(** One element between two nodes 1e200 apart: every id resolves. *)
Definition far_loader : DataLoader float :=
  {| dataset := Some (list_to_map
       [ (1%Z, {| Component := ["Mz_i"; "Mz_j"; "Vy_i"; "Vy_j"];
                  forces := [0; 10; 4; 4]%float |}) ]);
     nodes := list_to_map [ (1%Z, point 0 0 0); (2%Z, point 1e200 0 0) ];
     elements := list_to_map [ (1%Z, member 1 2) ] |}.

(** A chain of two elements: the first of length 2^53 along x, the second
    of length 1 along y. *)
Definition long_loader : DataLoader float :=
  {| dataset := Some (list_to_map
       [ (1%Z, {| Component := ["Mz_i"; "Mz_j"; "Vy_i"; "Vy_j"];
                  forces := [0; 10; 4; 4]%float |});
         (2%Z, {| Component := ["Mz_i"; "Mz_j"; "Vy_i"; "Vy_j"];
                  forces := [10; 0; -6; -6]%float |}) ]);
     nodes := list_to_map
       [ (1%Z, point 0 0 0); (2%Z, point 9007199254740992 0 0);
         (3%Z, point 9007199254740992 1 0) ];
     elements := list_to_map [ (1%Z, member 1 2); (2%Z, member 2 3) ] |}.

(** A chain of two elements whose second and third node lie at infinity
    along x. *)
Definition infinite_loader : DataLoader float :=
  {| dataset := Some (list_to_map
       [ (1%Z, {| Component := ["Mz_i"; "Mz_j"; "Vy_i"; "Vy_j"];
                  forces := [0; 10; 4; 4]%float |});
         (2%Z, {| Component := ["Mz_i"; "Mz_j"; "Vy_i"; "Vy_j"];
                  forces := [10; 0; -6; -6]%float |}) ]);
     nodes := list_to_map
       [ (1%Z, point 0 0 0); (2%Z, point infinity 0 0);
         (3%Z, point infinity 1 0) ];
     elements := list_to_map [ (1%Z, member 1 2); (2%Z, member 2 3) ] |}.

(** One element with two component names and a single force value. *)
Definition ragged_loader : DataLoader float :=
  {| dataset := Some (list_to_map
       [ (1%Z, {| Component := ["Mz_i"; "Mz_j"]; forces := [5]%float |}) ]);
     nodes := ∅;
     elements := ∅ |}.

(** The tables of the straight line, before the dataset is loaded. *)
Definition unloaded_loader : DataLoader float :=
  {| dataset := None;
     nodes := nodes line_loader;
     elements := elements line_loader |}.

(** ** Vocabulary for binary64 *)

(** The sign of a number that is not NaN. *)
Definition has_sign (s : bool) (x : spec_float) : Prop :=
  match x with
  | S754_zero s' | S754_infinity s' | S754_finite s' _ _ => s' = s
  | S754_nan => False
  end.

(** Zero of either sign, a positive finite number or plus infinity. *)
Definition nonneg_sf (x : spec_float) : Prop :=
  match x with
  | S754_zero _ | S754_finite false _ _ | S754_infinity false => True
  | _ => False
  end.

(** Zero or a finite number of either sign. *)
Definition finite_sf (x : spec_float) : Prop :=
  match x with
  | S754_zero _ | S754_finite _ _ _ => True
  | _ => False
  end.

(** Zero of either sign or a positive finite number. *)
Definition finite_nonneg_sf (x : spec_float) : Prop :=
  match x with
  | S754_zero _ | S754_finite false _ _ => True
  | _ => False
  end.

(** The order of two positive finite numbers given by mantissa and
    exponent: by exponent first, then by mantissa. *)
Definition lex_le (m1 : positive) (e1 : Z) (m2 : positive) (e2 : Z) : Prop :=
  (e1 < e2)%Z \/ (e1 = e2 /\ (m1 <= m2)%positive).

Definition lex_lt (m1 : positive) (e1 : Z) (m2 : positive) (e2 : Z) : Prop :=
  (e1 < e2)%Z \/ (e1 = e2 /\ (m1 < m2)%positive).

(** The number 1.0: mantissa 2^52, exponent -52. *)
Definition one_m : positive := 4503599627370496.
Definition one_e : Z := (-52)%Z.

(** A node whose three coordinates are finite (neither infinite nor
    NaN), and a loader all of whose nodes are. *)
Definition finite_coords (c : coords float) : Prop :=
  is_finite (coord_x c) = true /\
  is_finite (coord_y c) = true /\
  is_finite (coord_z c) = true.

Definition finite_nodes (data_loader : DataLoader float) : Prop :=
  forall id c, nodes data_loader !! id = Some c -> finite_coords c.

(** The float comparisons [a <= b] and [a < b] as relations. *)
Definition float_le (a b : float) : Prop := PrimFloat.leb a b = true.
Definition float_lt (a b : float) : Prop := PrimFloat.ltb a b = true.

(** What the order of the positions needs of the platform: [pow(x, 2.0)]
    of a finite [x > 0] is at least 0, hence neither negative nor NaN. *)
Definition pow2_nonneg (platform : Libm) : Prop :=
  forall x : float,
    PrimFloat.is_finite x = true -> float_lt 0 x -> float_le 0 (pow2 x).

(** ** load_data.py: the loaders *)

Section Loading.
Context {num : Type} `{Arith num}.

(** The dict comprehension of [load_node_coordinates] over the items of
    [module.nodes]: [v[2]] of a tuple with fewer than three entries is an
    [IndexError] ([None]), entries after the third are not read, and a
    later item whose key is the same integer replaces an earlier one. *)
Fixpoint node_table (items : list (Z * list num))
    (table : gmap Z (coords num)) : option (gmap Z (coords num)) :=
  match items with
  | [] => Some table
  | (k, v) :: items' =>
      match v with
      | x :: y :: z :: _ =>
          node_table items'
            (<[k := {| coord_x := x; coord_y := y; coord_z := z |}]> table)
      | _ => None
      end
  end.

(** [load_node_coordinates], from the [nodes] dict of the executed module
    on: the loader afterwards and the table returned; when the
    comprehension raises, [self.nodes] has not been assigned. *)
Definition load_node_coordinates (self : DataLoader num)
    (nodes_dict : list (Z * list num))
  : DataLoader num * option (gmap Z (coords num)) :=
  match node_table nodes_dict ∅ with
  | Some table =>
      ({| dataset := dataset self; nodes := table;
          elements := elements self |}, Some table)
  | None => (self, None)
  end.

(** The dict comprehension of [load_element_connectivity] over the items
    of [module.members]. *)
Fixpoint member_table (items : list (Z * list Z))
    (table : gmap Z connectivity) : option (gmap Z connectivity) :=
  match items with
  | [] => Some table
  | (k, v) :: items' =>
      match v with
      | i :: j :: _ =>
          member_table items' (<[k := {| node_i := i; node_j := j |}]> table)
      | _ => None
      end
  end.

Definition load_element_connectivity (self : DataLoader num)
    (members_dict : list (Z * list Z))
  : DataLoader num * option (gmap Z connectivity) :=
  match member_table members_dict ∅ with
  | Some table =>
      ({| dataset := dataset self; nodes := nodes self;
          elements := table |}, Some table)
  | None => (self, None)
  end.

(** [DataLoader(...)]: nothing loaded. *)
Definition DataLoader_init : DataLoader num :=
  {| dataset := None; nodes := ∅; elements := ∅ |}.

End Loading.

(** ** task2_sfd_bmd_3d.py: the 3D diagram *)

(** A [go.Scatter3d] trace: its data arguments. The styling arguments
    ([line], [marker], [showlegend], [hoverinfo], [hovertemplate],
    [opacity]) are left out, and with them the colour
    [colors[idx % len(colors)]], an index that is always in range. *)
Record trace : Type := {
  trace_x : list float;
  trace_y : list float;
  trace_z : list float;
  trace_mode : string;
  trace_name : option string;
  trace_customdata : option (list float);
}.

(** The figure: its traces, in the order [add_trace] received them, and
    the title text of its layout. *)
Record figure : Type := {
  fig_data : list trace;
  fig_title : string;
}.

(** The first loop of [create_3d_force_diagram]: the force values of all
    girders, in the order of the table. *)
Fixpoint all_values_loop (data_loader : DataLoader float)
    (force_type : string) (configs : list (string * girder_config))
    (all_values : list float) : M (list float) :=
  match configs with
  | [] => ret all_values
  | (_, config) :: rest =>
     (geom_data <- get_girder_3d_geometry data_loader (girder_elements config) ;;
      values <- lift (force_array geom_data force_type) ;;
      all_values_loop data_loader force_type rest (all_values ++ values))%comp
  end.

(** The connector drawn at station [i]. *)
Definition connector (x y_base y_diagram z : list float) (i : nat) : trace :=
  {| trace_x := [nth i x 0%float; nth i x 0%float];
     trace_y := [nth i y_base 0%float; nth i y_diagram 0%float];
     trace_z := [nth i z 0%float; nth i z 0%float];
     trace_mode := "lines";
     trace_name := None;
     trace_customdata := None |}.

(** The second loop: the traces of each girder. [y_base + y_offset] adds
    two arrays that the check before it has found to be of one length. *)
Fixpoint girders_loop (data_loader : DataLoader float) (force_type : string)
    (scale_factor : float) (configs : list (string * girder_config))
    (fig : list trace) : M (list trace) :=
  match configs with
  | [] => ret fig
  | (girder_name, config) :: rest =>
     (geom_data <- get_girder_3d_geometry data_loader (girder_elements config) ;;
      let x := geom_x geom_data in
      let y_base := geom_y geom_data in
      let z := geom_z geom_data in
      force_values <- lift (force_array geom_data force_type) ;;
      if negb (Nat.eqb (length x) (length force_values)
               && Nat.eqb (length force_values) (length y_base)
               && Nat.eqb (length y_base) (length z))
      then raise ValueError
      else
        (y_offset <- lift (calculate_diagram_offset force_values scale_factor) ;;
         let y_diagram := zip_with PrimFloat.add y_base y_offset in
         girders_loop data_loader force_type scale_factor rest
           (fig ++
            [ {| trace_x := x; trace_y := y_base; trace_z := z;
                 trace_mode := "lines";
                 trace_name := Some (String.append girder_name " Base");
                 trace_customdata := None |};
              {| trace_x := x; trace_y := y_diagram; trace_z := z;
                 trace_mode := "lines+markers";
                 trace_name := Some girder_name;
                 trace_customdata := Some force_values |} ] ++
            map (connector x y_base y_diagram z) (seq 0 (length x)))))%comp
  end.

(** [create_3d_force_diagram]; what it prints, and the least and greatest
    value it computes for printing, are left out. *)
Definition create_3d_force_diagram (data_loader : DataLoader float)
    (force_type : string) (diagram_name : string) : M figure :=
  if decide (force_type ∈ ["Mz"; "Vy"]) then
    (all_values <- all_values_loop data_loader force_type GIRDER_CONFIGS [] ;;
     if Nat.eqb (length all_values) 0 then raise RuntimeError
     else
       (max_abs_val <- lift (np_max (map PrimFloat.abs all_values)) ;;
        let scale_factor :=
          if PrimFloat.ltb max_abs_val 1e-6 then 1.0%float else 0.3%float in
        data <- girders_loop data_loader force_type scale_factor
                  GIRDER_CONFIGS [] ;;
        ret {| fig_data := data;
               fig_title :=
                 String.append "3D "
                   (String.append diagram_name
                      " Diagram - All Girders (MIDAS Style)") |}))%comp
  else raise ValueError.

(** ** Vocabulary of the further properties *)

Section MoreVocabulary.
Context {num : Type} `{Arith num}.

(** The positions a walk appends after the position [c]: the running
    sums of the element lengths. *)
Fixpoint running (c : num) (lens : list num) : list num :=
  match lens with
  | [] => []
  | len :: lens' => add c len :: running (add c len) lens'
  end.

(** What the four lookups made for one element return. *)
Record element_view : Type := {
  view_data : elem_data num;
  view_i : coords num;
  view_j : coords num;
}.

Definition views (data_loader : DataLoader num) (e : Z) (v : element_view)
  : Prop :=
  get_element_data data_loader e = Ok (view_data v) /\
  exists n, get_element_nodes data_loader e = Ok n /\
            get_node_coords data_loader (node_i n) = Ok (view_i v) /\
            get_node_coords data_loader (node_j n) = Ok (view_j v).

(** A station sequence: the [first] value of the first element, then the
    [next] value of every element. *)
Definition stations {A : Type} (first next : element_view -> A)
    (vws : list element_view) : list A :=
  match vws with
  | [] => []
  | v0 :: _ => first v0 :: map next vws
  end.

(** What a loop started at index [i] appends to a list of the dict: the
    whole station sequence at index 0, the [next] values alone later. *)
Definition appended {A : Type} (i : nat) (first next : element_view -> A)
    (vws : list element_view) : list A :=
  if Nat.eqb i 0 then stations first next vws else map next vws.

(** The lookups an iteration makes for element [e], in the order they are
    made: each one is made only if the one before it returned. *)
Definition element_calls (data_loader : DataLoader num) (e : Z) : list call :=
  GetElementData e ::
  match get_element_data data_loader e with
  | Err _ => []
  | Ok _ =>
      GetElementNodes e ::
      match get_element_nodes data_loader e with
      | Err _ => []
      | Ok n =>
          GetNodeCoords (node_i n) ::
          match get_node_coords data_loader (node_i n) with
          | Err _ => []
          | Ok _ => [GetNodeCoords (node_j n)]
          end
      end
  end.

(** [f(x)] for a returned [x], the exception otherwise. *)
Definition rmap {A B : Type} (f : A -> B) (r : result A) : result B :=
  match r with
  | Ok a => Ok (f a)
  | Err e => Err e
  end.

End MoreVocabulary.
Arguments element_view num : clear implicits.



Definition checked (g : geometry float) (force_values : list float) : bool :=
  negb (Nat.eqb (length (geom_x g)) (length force_values)
        && Nat.eqb (length force_values) (length (geom_y g))
        && Nat.eqb (length (geom_y g)) (length (geom_z g))).

Definition girder_traces (girder_name : string) (g : geometry float)
    (force_values y_offset : list float) : list trace :=
  let y_diagram := zip_with PrimFloat.add (geom_y g) y_offset in
  [ {| trace_x := geom_x g; trace_y := geom_y g; trace_z := geom_z g;
       trace_mode := "lines";
       trace_name := Some (String.append girder_name " Base");
       trace_customdata := None |};
    {| trace_x := geom_x g; trace_y := y_diagram; trace_z := geom_z g;
       trace_mode := "lines+markers";
       trace_name := Some girder_name;
       trace_customdata := Some force_values |} ] ++
  map (connector (geom_x g) (geom_y g) y_diagram (geom_z g))
      (seq 0 (length (geom_x g))).


Definition layout_title (diagram_name : string) : string :=
  String.append "3D "
    (String.append diagram_name " Diagram - All Girders (MIDAS Style)").

(** A trace plotly can draw: its three coordinate arrays have one
    length, and so has its custom data when it carries any. *)
Definition well_formed (t : trace) : Prop :=
  length (trace_x t) = length (trace_y t) /\
  length (trace_y t) = length (trace_z t) /\
  forall customdata, trace_customdata t = Some customdata ->
                     length customdata = length (trace_x t).

(** ** Concrete loaders of the further properties (binary64) *)

(** Element 1 carries the name "Mz_i" twice and the generic name "Mz"
    besides; element 2 carries the generic names only. *)
Definition alias_loader : DataLoader float :=
  {| dataset := Some (list_to_map
       [ (1%Z, {| Component := ["Mz_i"; "Mz"; "Mz_i"; "Mz_j"];
                  forces := [1; 2; 3; 4]%float |});
         (2%Z, {| Component := ["Mz"; "Vy"];
                  forces := [7; 8]%float |}) ]);
     nodes := ∅;
     elements := ∅ |}.

(** A loader that holds the whole girder table: the k-th element of a
    girder joins its k-th and its next node, the nodes of a girder lie
    2.5 apart along x, and the girders lie along z = 0, 1, 2, 3, 4. *)
Definition table_row : row float :=
  {| Component := ["Mz_i"; "Mz_j"; "Vy_i"; "Vy_j"];
     forces := [0; 10; 4; -4]%float |}.

Fixpoint table_nodes (ids : list Z) (x z : float) : list (Z * coords float) :=
  match ids with
  | [] => []
  | id :: ids' => (id, point x 0 z) :: table_nodes ids' (x + 2.5)%float z
  end.

Fixpoint table_members (es ns : list Z) : list (Z * connectivity) :=
  match es, ns with
  | e :: es', i :: ((j :: _) as ns') => (e, member i j) :: table_members es' ns'
  | _, _ => []
  end.

Fixpoint table_girders (configs : list (string * girder_config)) (z : float)
  : list (Z * row float) * list (Z * coords float) * list (Z * connectivity) :=
  match configs with
  | [] => ([], [], [])
  | (_, c) :: configs' =>
      let '(rows, ns, ms) := table_girders configs' (z + 1)%float in
      (map (fun e => (e, table_row)) (girder_elements c) ++ rows,
       table_nodes (girder_nodes c) 0 z ++ ns,
       table_members (girder_elements c) (girder_nodes c) ++ ms)
  end.

Definition table_loader : DataLoader float :=
  let '(rows, ns, ms) := table_girders GIRDER_CONFIGS 0 in
  {| dataset := Some (list_to_map rows);
     nodes := list_to_map ns;
     elements := list_to_map ms |}.

(** * Properties *)

(** ** The computation monad *)

Lemma outcome_bind {A B : Type} (c : M A) (k : A -> M B) :
  outcome (bind c k) = rbind (outcome c) (fun a => outcome (k a)).
Proof.
  destruct c as [t [a|e]]; simpl; [|reflexivity].
  destruct (k a); reflexivity.
Qed.

Lemma calls_bind {A B : Type} (c : M A) (k : A -> M B) :
  calls (bind c k) =
  calls c ++ match outcome c with Ok a => calls (k a) | Err _ => [] end.
Proof.
  destruct c as [t [a|e]]; simpl.
  - destruct (k a); reflexivity.
  - symmetry; apply app_nil_r.
Qed.

Lemma outcome_perform {A : Type} (c : call) (r : result A) :
  outcome (perform c r) = r.
Proof. reflexivity. Qed.

Lemma outcome_lift {A : Type} (r : result A) : outcome (lift r) = r.
Proof. reflexivity. Qed.

Lemma rbind_Ok_inv {A B : Type} (r : result A) (k : A -> result B) (b : B) :
  rbind r k = Ok b -> exists a, r = Ok a /\ k a = Ok b.
Proof. destruct r as [a|e]; simpl; [eauto | discriminate]. Qed.

(** ** One iteration of each loop, without the call log *)

Section Steps.
Context {num : Type} `{Arith num}.
Variable data_loader : DataLoader num.

Lemma valid_force_type_elem_of force_type :
  force_type ∈ ["Mz"; "Vy"] <-> valid_force_type force_type.
Proof.
  unfold valid_force_type. rewrite !elem_of_cons, elem_of_nil. tauto.
Qed.

Lemma elem_getitem_i force_type (d : elem_data num) :
  valid_force_type force_type ->
  elem_getitem d (String.append force_type "_i") = Ok (end_i force_type d).
Proof. intros [-> | ->]; reflexivity. Qed.

Lemma elem_getitem_j force_type (d : elem_data num) :
  valid_force_type force_type ->
  elem_getitem d (String.append force_type "_j") = Ok (end_j force_type d).
Proof. intros [-> | ->]; reflexivity. Qed.

Lemma outcome_extract_loop_nil force_type i st :
  outcome (extract_loop data_loader force_type i [] st) = Ok st.
Proof. reflexivity. Qed.

Lemma outcome_extract_loop_cons force_type i e rest st :
  outcome (extract_loop data_loader force_type i (e :: rest) st) =
  rbind (extract_step data_loader force_type i e st)
        (fun st' => outcome (extract_loop data_loader force_type (S i) rest st')).
Proof.
  cbn [extract_loop]. unfold extract_step.
  repeat (rewrite outcome_bind, ?outcome_perform, ?outcome_lift;
          match goal with
          | |- rbind ?r _ = _ => destruct r; cbn [rbind]; [|reflexivity]
          end).
  reflexivity.
Qed.

Lemma outcome_geometry_loop_cons i e rest g :
  outcome (geometry_loop data_loader i (e :: rest) g) =
  rbind (geometry_step data_loader i e g)
        (fun g' => outcome (geometry_loop data_loader (S i) rest g')).
Proof.
  cbn [geometry_loop]. unfold geometry_step.
  repeat (rewrite outcome_bind, ?outcome_perform, ?outcome_lift;
          match goal with
          | |- rbind ?r _ = _ => destruct r; cbn [rbind]; [|reflexivity]
          end).
  reflexivity.
Qed.

(** A step on a resolvable, measurable element succeeds and appends one
    position and one value (two values at index 0). *)
Lemma extract_step_ok force_type i e st :
  valid_force_type force_type ->
  resolves data_loader e -> measurable data_loader e ->
  exists d len,
    get_element_data data_loader e = Ok d /\
    length_of data_loader e = Ok len /\
    extract_step data_loader force_type i e st =
      Ok {| positions := positions st ++ [add (current_position st) len];
            values := (if Nat.eqb i 0
                       then values st ++ [end_i force_type d]
                       else values st) ++ [end_j force_type d];
            current_position := add (current_position st) len |}.
Proof.
  intros Hft (d & n & ci & cj & Hd & Hn & Hci & Hcj) Hm.
  destruct (Hm n ci cj Hn Hci Hcj) as [len Hlen].
  exists d, len. split; [exact Hd|]. split.
  - unfold length_of. rewrite Hn; cbn [rbind]. rewrite Hci; cbn [rbind].
    rewrite Hcj; cbn [rbind]. exact Hlen.
  - unfold extract_step. rewrite Hd; cbn [rbind]. rewrite Hn; cbn [rbind].
    rewrite Hci; cbn [rbind]. rewrite Hcj; cbn [rbind].
    rewrite Hlen; cbn [rbind].
    rewrite (elem_getitem_i _ _ Hft), (elem_getitem_j _ _ Hft).
    destruct (Nat.eqb i 0); reflexivity.
Qed.

End Steps.

(** ** Shape of the station sequences *)

Section Shape.
Context {num : Type} `{Arith num}.
Variable data_loader : DataLoader num.

Lemma extract_loop_app force_type l1 l2 : forall i st,
  outcome (extract_loop data_loader force_type i (l1 ++ l2) st) =
  rbind (outcome (extract_loop data_loader force_type i l1 st))
        (fun st1 =>
           outcome (extract_loop data_loader force_type (i + length l1) l2 st1)).
Proof.
  induction l1 as [|e l1 IH]; intros i st.
  - cbn [app length]. rewrite outcome_extract_loop_nil, Nat.add_0_r. reflexivity.
  - rewrite <- app_comm_cons, !outcome_extract_loop_cons.
    destruct (extract_step data_loader force_type i e st) as [st1|x];
      cbn [rbind]; [|reflexivity].
    rewrite IH. cbn [length]. rewrite Nat.add_succ_r. reflexivity.
Qed.

(** The loop over resolvable, measurable elements returns, having
    appended one position per element and one value per element, plus
    the start value when it began at index 0 on a non-empty list. *)
Lemma extract_loop_lengths force_type l : forall i st,
  valid_force_type force_type ->
  Forall (resolves data_loader) l -> Forall (measurable data_loader) l ->
  exists st' ps vs,
    outcome (extract_loop data_loader force_type i l st) = Ok st' /\
    positions st' = positions st ++ ps /\ length ps = length l /\
    values st' = values st ++ vs /\
    length vs = (length l + match l with
                            | [] => 0
                            | _ :: _ => if Nat.eqb i 0 then 1 else 0
                            end)%nat.
Proof.
  induction l as [|e l IH]; intros i st Hft Hres Hmeas.
  - exists st, [], []. rewrite outcome_extract_loop_nil, !app_nil_r. auto.
  - inversion Hres as [|? ? Hre Hres']; inversion Hmeas as [|? ? Hme Hmeas'];
      subst.
    destruct (extract_step_ok data_loader force_type i e st Hft Hre Hme)
      as (d & len & _ & _ & Hstep).
    rewrite outcome_extract_loop_cons, Hstep; cbn [rbind].
    match goal with
    | |- context [extract_loop _ _ _ _ ?s] =>
        destruct (IH (S i) s Hft Hres' Hmeas')
          as (st' & ps & vs & Hout & Hp & Hlp & Hv & Hlv)
    end.
    rewrite Hout. cbn [positions values] in Hp, Hv.
    exists st', (add (current_position st) len :: ps),
      ((if Nat.eqb i 0 then [end_i force_type d] else [])
         ++ end_j force_type d :: vs).
    split; [reflexivity|].
    rewrite Hp, Hv, <- !app_assoc.
    split; [reflexivity|]. split; [cbn; lia|].
    split; [destruct (Nat.eqb i 0); rewrite <- ?app_assoc; reflexivity|].
    rewrite length_app. cbn [length]. rewrite Hlv.
    destruct l; destruct (Nat.eqb i 0); cbn; lia.
Qed.

Lemma outcome_extract_girder_forces l force_type :
  valid_force_type force_type ->
  outcome (extract_girder_forces data_loader l force_type) =
  rbind (outcome (extract_loop data_loader force_type 0 l start))
        (fun st => Ok (positions st, values st)).
Proof.
  intros Hft. unfold extract_girder_forces.
  destruct (decide (force_type ∈ ["Mz"; "Vy"])) as [_|Hn].
  - rewrite outcome_bind. reflexivity.
  - exfalso. apply Hn, valid_force_type_elem_of, Hft.
Qed.

(** C1 (as amended).  For a non-empty element list whose ids all resolve
    and whose element lengths are computed without overflow, and for a
    force type in {Mz, Vy}, [extract_girder_forces] returns two arrays of
    length [len(element_list) + 1], and [positions[0]] is 0. *)
Theorem extract_girder_forces_lengths (l : list Z) (force_type : string) :
  l <> [] ->
  valid_force_type force_type ->
  Forall (resolves data_loader) l ->
  Forall (measurable data_loader) l ->
  exists ps vs,
    outcome (extract_girder_forces data_loader l force_type) = Ok (ps, vs) /\
    length ps = S (length l) /\
    length vs = S (length l) /\
    ps !! 0%nat = Some zero.
Proof.
  intros Hne Hft Hres Hmeas.
  destruct (extract_loop_lengths force_type l 0 start Hft Hres Hmeas)
    as (st' & ps & vs & Hout & Hp & Hlp & Hv & Hlv).
  exists (positions st'), (values st').
  rewrite (outcome_extract_girder_forces _ _ Hft), Hout. cbn [rbind].
  split; [reflexivity|]. rewrite Hp, Hv. cbn [start positions values].
  repeat split.
  - cbn. lia.
  - cbn [app]. rewrite Hlv. destruct l; [contradiction|]. cbn. lia.
Qed.

(** C2 (as amended).  With an empty element list and a force type in
    {Mz, Vy}, [extract_girder_forces] raises nothing: it makes no lookup
    call and returns the positions [[0.0]] and an empty values array. *)
Theorem extract_girder_forces_empty :
  extract_girder_forces data_loader [] "Mz" = ([], Ok ([zero], [])) /\
  extract_girder_forces data_loader [] "Vy" = ([], Ok ([zero], [])).
Proof.
  unfold extract_girder_forces. split.
  - destruct (decide ("Mz" ∈ ["Mz"; "Vy"])) as [_|Hn]; [reflexivity|].
    exfalso. apply Hn, valid_force_type_elem_of. left; reflexivity.
  - destruct (decide ("Vy" ∈ ["Mz"; "Vy"])) as [_|Hn]; [reflexivity|].
    exfalso. apply Hn, valid_force_type_elem_of. right; reflexivity.
Qed.

(** C3.  For every element list and every force type other than "Mz" and
    "Vy", [extract_girder_forces] raises [ValueError] (the InvalidArgument
    error) and has made no lookup call. *)
Theorem extract_girder_forces_invalid_component (l : list Z)
    (force_type : string) :
  force_type <> "Mz" -> force_type <> "Vy" ->
  extract_girder_forces data_loader l force_type = ([], Err ValueError).
Proof.
  intros H1 H2. unfold extract_girder_forces.
  destruct (decide (force_type ∈ ["Mz"; "Vy"])) as [Hin|_]; [|reflexivity].
  apply valid_force_type_elem_of in Hin. destruct Hin; contradiction.
Qed.

End Shape.

(** ** The 3D extractor against the station extractor *)

Section Agreement.
Context {num : Type} `{Arith num}.
Variable data_loader : DataLoader num.

Lemma force_array_snoc (g g' : geometry num) force_type vs d :
  valid_force_type force_type ->
  force_array g force_type = Ok vs ->
  geom_Mz g' = geom_Mz g ++ [Mz_j d] ->
  geom_Vy g' = geom_Vy g ++ [Vy_j d] ->
  force_array g' force_type = Ok (vs ++ [end_j force_type d]).
Proof.
  intros [-> | ->] Hg HM HV.
  - change (Ok (geom_Mz g) = Ok vs) in Hg.
    change (Ok (geom_Mz g') = Ok (vs ++ [Mz_j d])). congruence.
  - change (Ok (geom_Vy g) = Ok vs) in Hg.
    change (Ok (geom_Vy g') = Ok (vs ++ [Vy_j d])). congruence.
Qed.

(** Both loops make the same lookups; where the station loop returns, the
    3D loop returns, and the force array of the chosen type grows as the
    values do. *)
Lemma geometry_loop_values force_type l : forall i st st' g,
  valid_force_type force_type ->
  outcome (extract_loop data_loader force_type i l st) = Ok st' ->
  force_array g force_type = Ok (values st) ->
  exists g', outcome (geometry_loop data_loader i l g) = Ok g' /\
             force_array g' force_type = Ok (values st').
Proof.
  induction l as [|e l IH]; intros i st st' g Hft Hout Hg.
  - rewrite outcome_extract_loop_nil in Hout. inversion Hout; subst.
    exists g. split; [reflexivity | exact Hg].
  - rewrite outcome_extract_loop_cons in Hout.
    rewrite outcome_geometry_loop_cons.
    apply rbind_Ok_inv in Hout. destruct Hout as (st1 & Hstep & Hout).
    unfold extract_step in Hstep. unfold geometry_step.
    destruct (get_element_data data_loader e) as [d|];
      cbn [rbind] in Hstep |- *; [|discriminate].
    destruct (get_element_nodes data_loader e) as [n|];
      cbn [rbind] in Hstep |- *; [|discriminate].
    destruct (get_node_coords data_loader (node_i n)) as [ci|];
      cbn [rbind] in Hstep |- *; [|discriminate].
    destruct (get_node_coords data_loader (node_j n)) as [cj|];
      cbn [rbind] in Hstep |- *; [|discriminate].
    destruct (elem_length ci cj) as [len|]; [|discriminate].
    cbn [rbind] in Hstep.
    rewrite (elem_getitem_i _ _ Hft), (elem_getitem_j _ _ Hft) in Hstep.
    eapply (IH (S i) st1 st'); [exact Hft | exact Hout | ].
    destruct (Nat.eqb i 0); cbn [rbind] in Hstep; inversion Hstep; subst;
      cbn [values].
    + eapply force_array_snoc; [exact Hft | | reflexivity | reflexivity].
      destruct Hft as [-> | ->].
      * change (Ok (geom_Mz g) = Ok (values st)) in Hg.
        change (Ok (geom_Mz g ++ [Mz_i d]) = Ok (values st ++ [Mz_i d])).
        congruence.
      * change (Ok (geom_Vy g) = Ok (values st)) in Hg.
        change (Ok (geom_Vy g ++ [Vy_i d]) = Ok (values st ++ [Vy_i d])).
        congruence.
    + eapply force_array_snoc; [exact Hft | exact Hg | reflexivity | reflexivity].
Qed.

(** C4.  Whenever [extract_girder_forces] returns [(positions, values)]
    for an element list and a force type, [get_girder_3d_geometry] returns
    on the same list, and its array of that force type is [values],
    index for index. *)
Theorem geometry_forces_agree (l : list Z) (force_type : string)
    (ps vs : list num) :
  outcome (extract_girder_forces data_loader l force_type) = Ok (ps, vs) ->
  exists g,
    outcome (get_girder_3d_geometry data_loader l) = Ok g /\
    force_array g force_type = Ok vs.
Proof.
  intros Hout.
  assert (Hft : valid_force_type force_type).
  { unfold extract_girder_forces in Hout.
    destruct (decide (force_type ∈ ["Mz"; "Vy"])) as [Hin|_];
      [apply valid_force_type_elem_of, Hin | discriminate]. }
  rewrite (outcome_extract_girder_forces _ _ _ Hft) in Hout.
  apply rbind_Ok_inv in Hout. destruct Hout as (st' & Hloop & Hret).
  inversion Hret; subst.
  destruct (geometry_loop_values force_type l 0 start st'
              {| geom_x := []; geom_y := []; geom_z := [];
                 geom_Mz := []; geom_Vy := [] |} Hft Hloop)
    as (g & Hg & Hfa).
  { destruct Hft as [-> | ->]; reflexivity. }
  exists g. split; [exact Hg | exact Hfa].
Qed.

End Agreement.

(** ** Lookup failures *)

Section Failures.
Context {num : Type} `{Arith num}.
Variable data_loader : DataLoader num.

Lemma build_comp_map_Some components : forall (fs : list num) comp_map,
  length components <= length fs ->
  exists m, build_comp_map components fs comp_map = Some m /\
            forall k, k ∉ components -> m !! k = comp_map !! k.
Proof.
  induction components as [|c cs IH]; intros fs comp_map Hlen.
  - exists comp_map. split; [reflexivity | auto].
  - destruct fs as [|f fs]; cbn [length] in Hlen; [lia|].
    destruct (IH fs (<[c := f]> comp_map)) as (m & Hm & Hk); [lia|].
    exists m. split; [exact Hm|].
    intros k Hnot. rewrite Hk.
    + apply lookup_insert_ne. intros ->. apply Hnot. left.
    + intros Hin. apply Hnot. right. exact Hin.
Qed.

Lemma find_absent (comp_map : gmap string num) keys :
  (forall k, k ∈ keys -> comp_map !! k = None) -> find comp_map keys = zero.
Proof.
  induction keys as [|k keys IH]; intros Hno; [reflexivity|].
  cbn [find]. rewrite (Hno k) by left.
  apply IH. intros k' Hk'. apply Hno. right. exact Hk'.
Qed.

(** With the dataset loaded, [get_element_data] raises only [KeyError]. *)
Lemma get_element_data_loaded ds e x :
  dataset data_loader = Some ds ->
  get_element_data data_loader e = Err x -> x = KeyError.
Proof.
  unfold get_element_data. intros ->.
  destruct (ds !! e) as [elem|]; [|congruence].
  destruct (build_comp_map _ _ _); congruence.
Qed.

(** C7 (as amended).  For an element present in the loaded force dataset
    with a force value for each of its component names, an end whose accepted aliases
    are all absent from the component names is returned as 0.0, and
    [get_element_data] does not fail. *)
Theorem get_element_data_missing_component (ds : gmap Z (row num)) (e : Z)
    (elem : row num) (key : string) :
  dataset data_loader = Some ds ->
  ds !! e = Some elem ->
  length (Component elem) <= length (forces elem) ->
  key ∈ ["Mz_i"; "Mz_j"; "Vy_i"; "Vy_j"] ->
  (forall k, k ∈ aliases key -> k ∉ Component elem) ->
  exists d, get_element_data data_loader e = Ok d /\
            elem_getitem d key = Ok zero.
Proof.
  intros Hds He Hlen Hkey Habs.
  unfold get_element_data. rewrite Hds, He.
  destruct (build_comp_map_Some (Component elem) (forces elem) ∅ Hlen)
    as (m & Hm & Hk).
  rewrite Hm. eexists. split; [reflexivity|].
  assert (Hz : find m (aliases key) = zero).
  { apply find_absent. intros k Hin. rewrite Hk by (apply Habs, Hin).
    apply lookup_empty. }
  rewrite !elem_of_cons, elem_of_nil in Hkey.
  destruct Hkey as [-> | [-> | [-> | [-> | []]]]].
  - change (Ok (find m (aliases "Mz_i")) = Ok zero). f_equal; exact Hz.
  - change (Ok (find m (aliases "Mz_j")) = Ok zero). f_equal; exact Hz.
  - change (Ok (find m (aliases "Vy_i")) = Ok zero). f_equal; exact Hz.
  - change (Ok (find m (aliases "Vy_j")) = Ok zero). f_equal; exact Hz.
Qed.

(** A step on an element with an unknown id raises [KeyError]. *)
Lemma extract_step_unknown ds force_type i e st :
  dataset data_loader = Some ds ->
  unknown_id data_loader e ->
  extract_step data_loader force_type i e st = Err KeyError.
Proof.
  intros Hds Hunk. unfold extract_step.
  destruct (get_element_data data_loader e) as [d|x] eqn:Hd; cbn [rbind].
  2:{ f_equal. eapply get_element_data_loaded; eauto. }
  unfold get_element_nodes, get_node_coords.
  destruct Hunk as [(ds' & Hds' & Hnone) | [Hnone | (n & Hn & Hnodes)]].
  - exfalso. unfold get_element_data in Hd. rewrite Hds' in Hd.
    rewrite Hnone in Hd. discriminate.
  - rewrite Hnone. reflexivity.
  - rewrite Hn. cbn [rbind]. destruct Hnodes as [Hi | Hj].
    + rewrite Hi. reflexivity.
    + rewrite Hj. destruct (nodes data_loader !! node_i n); reflexivity.
Qed.

(** C8 (as amended).  With the dataset loaded and a force type in
    {Mz, Vy}: when the
    elements before [e] are extracted without error and [e] or one of its
    nodes is unknown to the loader, the extraction of the whole list
    raises [KeyError] (the NotFound error); no array is returned. *)
Theorem extract_girder_forces_unknown_id (ds : gmap Z (row num))
    (before after : list Z) (e : Z) (force_type : string)
    (w : list num * list num) :
  dataset data_loader = Some ds ->
  outcome (extract_girder_forces data_loader before force_type) = Ok w ->
  unknown_id data_loader e ->
  outcome (extract_girder_forces data_loader (before ++ e :: after) force_type)
  = Err KeyError.
Proof.
  intros Hds Hbefore Hunk.
  assert (Hft : valid_force_type force_type).
  { unfold extract_girder_forces in Hbefore.
    destruct (decide (force_type ∈ ["Mz"; "Vy"])) as [Hin|_];
      [apply valid_force_type_elem_of, Hin | discriminate]. }
  rewrite (outcome_extract_girder_forces _ _ _ Hft) in Hbefore.
  rewrite (outcome_extract_girder_forces _ _ _ Hft), extract_loop_app.
  destruct (outcome (extract_loop data_loader force_type 0 before start))
    as [st1|x]; [|discriminate].
  cbn [rbind]. rewrite outcome_extract_loop_cons.
  rewrite (extract_step_unknown ds) by assumption. reflexivity.
Qed.

End Failures.

(** ** What a successful step did *)

Section StepInversion.
Context {num : Type} `{Arith num}.
Variable data_loader : DataLoader num.

Lemma extract_step_inv force_type i e st st1 :
  extract_step data_loader force_type i e st = Ok st1 ->
  exists len v_i v_j,
    length_of data_loader e = Ok len /\
    st1 = {| positions := positions st ++ [add (current_position st) len];
             values := (if Nat.eqb i 0 then values st ++ [v_i] else values st)
                         ++ [v_j];
             current_position := add (current_position st) len |}.
Proof.
  unfold extract_step, length_of. intros Hstep.
  destruct (get_element_data data_loader e) as [d|];
    cbn [rbind] in Hstep; [|discriminate].
  destruct (get_element_nodes data_loader e) as [n|];
    cbn [rbind] in Hstep |- *; [|discriminate].
  destruct (get_node_coords data_loader (node_i n)) as [ci|];
    cbn [rbind] in Hstep |- *; [|discriminate].
  destruct (get_node_coords data_loader (node_j n)) as [cj|];
    cbn [rbind] in Hstep |- *; [|discriminate].
  destruct (elem_length ci cj) as [len|]; cbn [rbind] in Hstep; [|discriminate].
  exists len.
  destruct (Nat.eqb i 0).
  - destruct (elem_getitem d (String.append force_type "_i")) as [v_i|];
      cbn [rbind] in Hstep; [|discriminate].
    destruct (elem_getitem d (String.append force_type "_j")) as [v_j|];
      cbn [rbind] in Hstep; [|discriminate].
    exists v_i, v_j. split; [reflexivity | congruence].
  - cbn [rbind] in Hstep.
    destruct (elem_getitem d (String.append force_type "_j")) as [v_j|];
      cbn [rbind] in Hstep; [|discriminate].
    exists v_j, v_j. split; [reflexivity | congruence].
Qed.

(** The arrays of a successful extraction: one position per element after
    the initial 0, and as many values when the list is not empty. *)
Lemma extract_loop_ok_lengths force_type l : forall i st st',
  outcome (extract_loop data_loader force_type i l st) = Ok st' ->
  length (positions st') = (length (positions st) + length l)%nat /\
  length (values st') =
    (length (values st) + length l +
     match l with [] => 0 | _ :: _ => if Nat.eqb i 0 then 1 else 0 end)%nat.
Proof.
  induction l as [|e l IH]; intros i st st' Hout.
  - rewrite outcome_extract_loop_nil in Hout. inversion Hout; subst.
    cbn [length]. lia.
  - rewrite outcome_extract_loop_cons in Hout.
    apply rbind_Ok_inv in Hout. destruct Hout as (st1 & Hstep & Hout).
    apply extract_step_inv in Hstep.
    destruct Hstep as (len & v_i & v_j & _ & ->).
    apply IH in Hout. cbn [positions values] in Hout.
    destruct Hout as [Hp Hv]. rewrite Hp, Hv, !length_app. cbn [length].
    destruct l; destruct (Nat.eqb i 0); rewrite ?length_app; cbn; lia.
Qed.

(** The invariant behind monotone positions: if adding a good length to
    a good position gives a good position related to the old one, the
    positions of a successful walk are related pairwise. *)
Section Monotone.
Variable rel : num -> num -> Prop.
Variables good_position good_length : num -> Prop.
Hypothesis add_rel : forall c len,
  good_position c -> good_length len ->
  rel c (add c len) /\ good_position (add c len).

Lemma adjacent_snoc (l : list num) (c c' : num) :
  adjacent rel l -> last l = Some c -> rel c c' -> adjacent rel (l ++ [c']).
Proof.
  intros Hadj Hlast Hrel k a b Ha Hb.
  destruct (decide (S k < length l)) as [Hlt|Hge].
  - rewrite lookup_app_l in Ha by lia. rewrite lookup_app_l in Hb by lia.
    eapply Hadj; eassumption.
  - assert (Hk : S k = length l).
    { apply lookup_lt_Some in Hb. rewrite length_app in Hb. cbn in Hb. lia. }
    rewrite lookup_app_l in Ha by lia.
    rewrite lookup_app_r in Hb by lia.
    rewrite Hk, Nat.sub_diag in Hb. cbn in Hb. inversion Hb; subst b.
    rewrite last_lookup in Hlast.
    replace (Nat.pred (length l)) with k in Hlast by lia.
    rewrite Ha in Hlast. inversion Hlast; subst a. exact Hrel.
Qed.

Lemma extract_loop_adjacent force_type l : forall i st st',
  (forall e len, e ∈ l -> length_of data_loader e = Ok len -> good_length len) ->
  good_position (current_position st) ->
  last (positions st) = Some (current_position st) ->
  adjacent rel (positions st) ->
  outcome (extract_loop data_loader force_type i l st) = Ok st' ->
  adjacent rel (positions st').
Proof.
  induction l as [|e l IH]; intros i st st' Hlen Hgood Hlast Hadj Hout.
  - rewrite outcome_extract_loop_nil in Hout. inversion Hout; subst. exact Hadj.
  - rewrite outcome_extract_loop_cons in Hout.
    apply rbind_Ok_inv in Hout. destruct Hout as (st1 & Hstep & Hout).
    apply extract_step_inv in Hstep.
    destruct Hstep as (len & v_i & v_j & Hl & ->).
    destruct (add_rel (current_position st) len Hgood) as [Hrel Hgood'].
    { eapply Hlen; [left | exact Hl]. }
    eapply IH; [ | | | | exact Hout]; cbn [positions current_position].
    + intros e' len' Hin. apply Hlen. right. exact Hin.
    + exact Hgood'.
    + apply last_snoc.
    + eapply adjacent_snoc; eassumption.
Qed.

End Monotone.

End StepInversion.

(** ** The offset scaler *)

Section Scaler.
Context {num : Type} `{Arith num}.

(** On a non-empty sequence the scaler returns, by one of its two
    branches. *)
Lemma calculate_diagram_offset_cases (force_values : list num)
    (scale_factor : num) :
  force_values <> [] ->
  exists max_abs,
    np_max (map absolute force_values) = Ok max_abs /\
    calculate_diagram_offset force_values scale_factor =
      Ok (if is_zero max_abs
          then map (fun _ => zero) force_values
          else map (fun v => mul (div v max_abs) scale_factor) force_values).
Proof.
  intros Hne. destruct force_values as [|v vs]; [contradiction|].
  unfold calculate_diagram_offset. cbn [map np_max rbind].
  eexists. split; [reflexivity|].
  destruct (is_zero _); reflexivity.
Qed.

End Scaler.

(** ** Exact arithmetic *)

Section Exact.
Local Open Scope R_scope.

Lemma fold_maximum_ge (l : list R) : forall a,
  a <= fold_left maximum l a /\
  forall x, x ∈ l -> x <= fold_left maximum l a.
Proof.
  induction l as [|y l IH]; intros a; cbn [fold_left].
  - split; [lra|]. intros x Hx. inversion Hx.
  - destruct (IH (maximum a y)) as [Hm Hl].
    assert (Ha : a <= maximum a y /\ y <= maximum a y).
    { cbn. destruct (Rle_dec y a); lra. }
    split; [lra|]. intros x Hx. apply elem_of_cons in Hx.
    destruct Hx as [-> | Hx]; [lra | auto].
Qed.

Lemma fold_maximum_in (l : list R) : forall a,
  fold_left maximum l a ∈ a :: l.
Proof.
  induction l as [|y l IH]; intros a; cbn [fold_left]; [left|].
  specialize (IH (maximum a y)). apply elem_of_cons in IH.
  destruct IH as [-> | IH].
  - cbn. destruct (Rle_dec y a); [left | right; left].
  - right; right. exact IH.
Qed.

(** [np_max] of a non-empty list of reals is its greatest entry. *)
Lemma np_max_exact (l : list R) (m : R) :
  np_max l = Ok m <-> (m ∈ l /\ forall x, x ∈ l -> x <= m).
Proof.
  destruct l as [|a l]; cbn [np_max].
  - split; [discriminate | intros [Hin _]; inversion Hin].
  - split.
    + intros Hm. inversion Hm; subst m. split; [apply fold_maximum_in|].
      intros x Hx. destruct (fold_maximum_ge l a) as [Ha Hl].
      apply elem_of_cons in Hx. destruct Hx as [-> | Hx]; auto.
    + intros [Hin Hub]. f_equal. apply Rle_antisym.
      * apply Hub, fold_maximum_in.
      * destruct (fold_maximum_ge l a) as [Ha Hl].
        apply elem_of_cons in Hin. destruct Hin as [-> | Hin]; auto.
Qed.

Lemma np_max_abs_exact (v : list R) (m : R) :
  np_max (map absolute v) = Ok m ->
  0 <= m /\ (exists x, x ∈ v /\ m = Rabs x) /\ forall x, x ∈ v -> Rabs x <= m.
Proof.
  intros Hm. apply np_max_exact in Hm. destruct Hm as [Hin Hub].
  apply list_elem_of_fmap in Hin. destruct Hin as (x & -> & Hx).
  split; [apply Rabs_pos|]. split; [exists x; auto|].
  intros y Hy. apply Hub. apply list_elem_of_fmap. exists y; auto.
Qed.

Lemma scaled_abs (x m f : R) :
  0 < m -> 0 <= f -> Rabs (x / m * f) = Rabs x / m * f.
Proof.
  intros Hm Hf. unfold Rdiv. rewrite !Rabs_mult, Rabs_inv.
  rewrite (Rabs_pos_eq m) by lra. rewrite (Rabs_pos_eq f) by lra. reflexivity.
Qed.

Lemma scaled_bound (x m f : R) :
  0 < m -> 0 <= f -> Rabs x <= m -> Rabs x / m * f <= f.
Proof.
  intros Hm Hf Hx.
  assert (Hq : Rabs x / m <= 1).
  { apply (Rmult_le_reg_r m); [exact Hm|]. unfold Rdiv.
    rewrite Rmult_assoc, Rinv_l by lra. lra. }
  assert (Hq0 : 0 <= Rabs x / m).
  { apply Rmult_le_pos; [apply Rabs_pos|].
    apply Rlt_le, Rinv_0_lt_compat, Hm. }
  nra.
Qed.

(** In exact arithmetic no length computation fails, and a length is a
    square root, hence not negative. *)
Lemma measurable_exact (data_loader : DataLoader R) (e : Z) :
  measurable data_loader e.
Proof. intros n ci cj _ _ _. eexists. reflexivity. Qed.

Lemma length_of_exact_nonneg (data_loader : DataLoader R) (e : Z) (len : R) :
  length_of data_loader e = Ok len -> 0 <= len.
Proof.
  unfold length_of. intros Hl.
  destruct (get_element_nodes data_loader e) as [n|];
    cbn [rbind] in Hl; [|discriminate].
  destruct (get_node_coords data_loader (node_i n)) as [ci|];
    cbn [rbind] in Hl; [|discriminate].
  destruct (get_node_coords data_loader (node_j n)) as [cj|];
    cbn [rbind] in Hl; [|discriminate].
  cbn in Hl. inversion Hl; subst len. apply sqrt_pos.
Qed.

(** Non-decreasing positions, strictly increasing ones when every element
    has a positive length: the exact-arithmetic half of C5. *)
Lemma positions_monotone_exact (data_loader : DataLoader R) (l : list Z)
    (force_type : string) :
  valid_force_type force_type ->
  Forall (resolves data_loader) l ->
  exists ps vs,
    outcome (extract_girder_forces data_loader l force_type) = Ok (ps, vs) /\
    adjacent Rle ps /\
    ((forall e len, e ∈ l -> length_of data_loader e = Ok len -> 0 < len) ->
     adjacent Rlt ps).
Proof.
  intros Hft Hres.
  destruct (extract_loop_lengths data_loader force_type l 0 start Hft Hres)
    as (st' & ps & vs & Hout & _).
  { apply Forall_forall. intros e _. apply measurable_exact. }
  exists (positions st'), (values st').
  rewrite (outcome_extract_girder_forces _ _ _ Hft), Hout. cbn [rbind].
  split; [reflexivity|].
  assert (Hstart : forall rel : R -> R -> Prop, adjacent rel (positions start)).
  { intros rel k a b _ Hb. destruct k; discriminate. }
  split.
  - eapply (extract_loop_adjacent data_loader Rle (fun _ => True)
              (fun len => 0 <= len)); [ | | | | | exact Hout].
    + intros c len _ Hlen. split; [cbn; lra | exact I].
    + intros e len _ Hl. eapply length_of_exact_nonneg, Hl.
    + exact I.
    + reflexivity.
    + apply Hstart.
  - intros Hpos.
    eapply (extract_loop_adjacent data_loader Rlt (fun _ => True)
              (fun len => 0 < len)); [ | | | | | exact Hout].
    + intros c len _ Hlen. split; [cbn; lra | exact I].
    + exact Hpos.
    + exact I.
    + reflexivity.
    + apply Hstart.
Qed.

(** Magnitude and sign of the scaled entries: the exact-arithmetic part
    of C6. *)
Lemma calculate_diagram_offset_bound_exact (v : list R) (f : R) :
  0 <= f -> v <> [] ->
  exists r,
    calculate_diagram_offset v f = Ok r /\
    length r = length v /\
    forall (k : nat) (x y : R),
      v !! k = Some x -> r !! k = Some y ->
      Rabs y <= f /\ (0 <= x -> 0 <= y) /\ (x <= 0 -> y <= 0) /\
      (0 < f -> (0 < x -> 0 < y) /\ (x < 0 -> y < 0)).
Proof.
  intros Hf Hne.
  destruct (calculate_diagram_offset_cases v f Hne) as (m & Hm & Hr).
  rewrite Hr. eexists. split; [reflexivity|].
  apply np_max_abs_exact in Hm. destruct Hm as (Hm0 & _ & Hub).
  cbn [is_zero exact]. destruct (Req_dec_T m 0) as [Hz|Hnz].
  - split; [apply length_map|]. intros k x y Hx Hy.
    rewrite list_lookup_fmap, Hx in Hy. inversion Hy; subst y.
    assert (Hxm : Rabs x <= m) by (apply Hub; eapply list_elem_of_lookup_2, Hx).
    assert (Hx0 : x = 0).
    { destruct (Req_dec_T x 0) as [|Hn]; [assumption|].
      apply Rabs_pos_lt in Hn. lra. }
    cbn. rewrite Rabs_R0. repeat split; lra.
  - split; [apply length_map|]. intros k x y Hx Hy.
    rewrite list_lookup_fmap, Hx in Hy. inversion Hy; subst y. cbn.
    assert (Hmp : 0 < m) by lra.
    assert (Hxm : Rabs x <= m) by (apply Hub; eapply list_elem_of_lookup_2, Hx).
    assert (Hinv : 0 < / m) by (apply Rinv_0_lt_compat, Hmp).
    split; [|split; [|split]].
    + rewrite scaled_abs by lra. apply scaled_bound; lra.
    + intros Hx0. assert (0 <= x * / m) by (apply Rmult_le_pos; lra).
      unfold Rdiv. nra.
    + intros Hx0. assert (0 <= (- x) * / m) by (apply Rmult_le_pos; lra).
      unfold Rdiv. nra.
    + intros Hfp. split; intros Hx0.
      * assert (0 < x * / m) by (apply Rmult_lt_0_compat; lra).
        unfold Rdiv. nra.
      * assert (0 < (- x) * / m) by (apply Rmult_lt_0_compat; lra).
        unfold Rdiv. nra.
Qed.

Lemma calculate_diagram_offset_zeros (n : nat) (f : R) :
  n <> 0%nat ->
  calculate_diagram_offset (repeat 0 n) f = Ok (repeat 0 n).
Proof.
  intros Hn.
  destruct (calculate_diagram_offset_cases (repeat 0 n) f) as (m & Hm & Hr).
  { destruct n; [contradiction | discriminate]. }
  rewrite Hr. f_equal.
  apply np_max_abs_exact in Hm. destruct Hm as (_ & (x & Hx & ->) & _).
  apply list_elem_of_In, repeat_spec in Hx. subst x.
  cbn [is_zero exact]. rewrite Rabs_R0.
  destruct (Req_dec_T 0 0) as [_|Hn0]; [|contradiction].
  cbn [zero exact]. clear. induction n; cbn; congruence.
Qed.

Lemma map_const_repeat {A : Type} (v : list A) (c : R) :
  map (fun _ => c) v = repeat c (length v).
Proof. induction v; cbn; congruence. Qed.

(** Scaling twice is scaling once, in exact arithmetic: both sides raise
    on the empty sequence, and are equal otherwise. *)
Lemma calculate_diagram_offset_idempotent_exact (v : list R) (f : R) :
  0 <= f ->
  rbind (calculate_diagram_offset v f)
        (fun s => calculate_diagram_offset s f)
  = calculate_diagram_offset v f.
Proof.
  intros Hf. destruct (decide (v = [])) as [-> | Hne]; [reflexivity|].
  destruct (calculate_diagram_offset_cases v f Hne) as (m & Hm & Hr).
  rewrite Hr. cbn [rbind].
  assert (Hlen : length v <> 0%nat) by (destruct v; [contradiction | discriminate]).
  apply np_max_abs_exact in Hm. destruct Hm as (Hm0 & (xm & Hxm & Hmx) & Hub).
  cbn [is_zero exact]. destruct (Req_dec_T m 0) as [Hz|Hnz].
  - cbn [zero exact]. rewrite map_const_repeat.
    apply calculate_diagram_offset_zeros, Hlen.
  - cbn [mul div exact]. assert (Hmp : 0 < m) by lra.
    destruct (Req_dec_T f 0) as [-> | Hfnz].
    + assert (Hzero : map (fun x => x / m * 0) v = repeat 0 (length v)).
      { rewrite <- map_const_repeat. apply map_ext. intros; lra. }
      rewrite Hzero. apply calculate_diagram_offset_zeros, Hlen.
    + set (r := map (fun x => x / m * f) v).
      assert (Hrne : r <> []).
      { unfold r. destruct v; [contradiction | discriminate]. }
      destruct (calculate_diagram_offset_cases r f Hrne) as (m' & Hm' & Hr').
      rewrite Hr'. f_equal.
      assert (Hmf : m' = f).
      { assert (Hf' : np_max (map absolute r) = Ok f).
        { apply np_max_exact. split.
          - apply list_elem_of_fmap. exists (xm / m * f). split.
            + cbn. rewrite scaled_abs by lra. rewrite <- Hmx.
              unfold Rdiv. rewrite Rinv_r by lra. lra.
            + unfold r. apply list_elem_of_fmap. exists xm. auto.
          - intros y Hy. apply list_elem_of_fmap in Hy.
            destruct Hy as (z & -> & Hz). unfold r in Hz.
            apply list_elem_of_fmap in Hz. destruct Hz as (x & -> & Hx).
            cbn. rewrite scaled_abs by lra. apply scaled_bound; [lra | lra |].
            apply Hub, Hx. }
        congruence. }
      subst m'. cbn [is_zero exact mul div].
      destruct (Req_dec_T f 0) as [|_]; [contradiction|].
      rewrite <- (map_id r) at 2. apply map_ext. intros y.
      unfold Rdiv. rewrite Rmult_assoc, Rinv_l by lra. lra.
Qed.

End Exact.

(** ** Binary64 arithmetic *)

(** What the extractor needs of IEEE-754 addition, square root and
    subtraction, from their specification ([SpecFloat]) and the axioms
    linking primitive floats to it, and of the platform's [pow]; the
    product serves the correctly rounded platform and the scaler. *)

Lemma get_node_coords_Ok {num : Type} `{Arith num}
    (data_loader : DataLoader num) (id : Z) (c : coords num) :
  get_node_coords data_loader id = Ok c -> nodes data_loader !! id = Some c.
Proof.
  unfold get_node_coords. destruct (nodes data_loader !! id); congruence.
Qed.

Section Binary64.
Local Open Scope Z_scope.

(** *** Binary digits *)

Lemma digits2_pos_bounds (m : positive) :
  2 ^ (Zpos (digits2_pos m) - 1) <= Zpos m < 2 ^ Zpos (digits2_pos m).
Proof.
  induction m as [m IH|m IH|]; cbn [digits2_pos].
  - rewrite Pos2Z.inj_succ.
    replace (Z.succ (Zpos (digits2_pos m)) - 1) with (Z.succ (Zpos (digits2_pos m) - 1)) by lia.
    rewrite !Z.pow_succ_r by lia. lia.
  - rewrite Pos2Z.inj_succ.
    replace (Z.succ (Zpos (digits2_pos m)) - 1) with (Z.succ (Zpos (digits2_pos m) - 1)) by lia.
    rewrite !Z.pow_succ_r by lia. lia.
  - cbn. lia.
Qed.

Lemma pos_iter_xO (m d : positive) :
  Zpos (Pos.iter xO m d) = Zpos m * 2 ^ Zpos d.
Proof.
  revert m. induction d as [|d IH] using Pos.peano_ind; intros m.
  - cbn. lia.
  - rewrite Pos.iter_succ, Pos2Z.inj_succ, Z.pow_succ_r by lia.
    rewrite Pos2Z.inj_xO, IH. lia.
Qed.

(** *** Right shifts *)

Lemma shr_1_m (mrs : shr_record) :
  0 <= shr_m mrs -> shr_m (shr_1 mrs) = shr_m mrs / 2.
Proof.
  destruct mrs as [m r s]. cbn [shr_m]. intros Hm.
  destruct m as [|p|p]; [reflexivity| |lia].
  destruct p as [p|p|]; cbn [shr_1 shr_m].
  - rewrite Pos2Z.inj_xI. apply Z.div_unique with 1; lia.
  - rewrite Pos2Z.inj_xO. apply Z.div_unique with 0; lia.
  - reflexivity.
Qed.

Lemma pow2_xO (p : positive) : 2 ^ Zpos p~0 = 2 ^ Zpos p * 2 ^ Zpos p.
Proof. rewrite Pos2Z.inj_xO, <- Z.pow_add_r by lia. f_equal. lia. Qed.

Lemma pow2_xI (p : positive) : 2 ^ Zpos p~1 = 2 * (2 ^ Zpos p * 2 ^ Zpos p).
Proof.
  rewrite Pos2Z.inj_xI, <- Z.pow_add_r, <- Z.pow_succ_r by lia. f_equal. lia.
Qed.

Lemma iter_shr_1_m (p : positive) : forall mrs,
  0 <= shr_m mrs ->
  shr_m (SpecFloat.iter_pos shr_1 p mrs) = shr_m mrs / 2 ^ Zpos p.
Proof.
  assert (Hpow : forall q : positive, 0 < 2 ^ Zpos q).
  { intros q. apply Z.pow_pos_nonneg; lia. }
  induction p as [p IH|p IH|]; intros mrs Hm; cbn [SpecFloat.iter_pos].
  - assert (H1 : 0 <= shr_m (shr_1 mrs)).
    { rewrite shr_1_m by assumption. apply Z.div_pos; lia. }
    assert (H2 : 0 <= shr_m (SpecFloat.iter_pos shr_1 p (shr_1 mrs))).
    { rewrite IH by assumption. apply Z.div_pos; [assumption | apply Hpow]. }
    rewrite (IH _ H2), (IH _ H1), shr_1_m by assumption.
    specialize (Hpow p). rewrite pow2_xI.
    rewrite !Z.div_div by lia. reflexivity.
  - assert (H2 : 0 <= shr_m (SpecFloat.iter_pos shr_1 p mrs)).
    { rewrite IH by assumption. apply Z.div_pos; [assumption | apply Hpow]. }
    rewrite (IH _ H2), (IH _ Hm).
    specialize (Hpow p). rewrite pow2_xO.
    rewrite !Z.div_div by lia. reflexivity.
  - rewrite shr_1_m by assumption. reflexivity.
Qed.

Lemma shr_spec (mrs : shr_record) (e n : Z) :
  0 <= shr_m mrs ->
  shr_m (fst (shr mrs e n)) = shr_m mrs / 2 ^ Z.max n 0 /\
  snd (shr mrs e n) = e + Z.max n 0.
Proof.
  intros Hm. destruct n as [|p|p]; cbn [shr fst snd].
  - rewrite Z.div_1_r. lia.
  - rewrite iter_shr_1_m by assumption. rewrite Z.max_l by lia. split; reflexivity.
  - rewrite Z.max_r by lia. rewrite Z.div_1_r. lia.
Qed.

Lemma shr_m_of_loc (m : Z) (l : location) :
  shr_m (shr_record_of_loc m l) = m.
Proof. destruct l as [|[| |]]; reflexivity. Qed.

Lemma round_nearest_even_bounds (m : Z) (l : location) :
  m <= round_nearest_even m l <= m + 1.
Proof.
  destruct l as [|[| |]]; cbn [round_nearest_even]; try lia.
  destruct (Z.even m); lia.
Qed.


(** *** Rounding *)

Abbreviation fexp := (SpecFloat.fexp prec emax).

Lemma binary_round_aux_eq (s : bool) (m e : Z) (l : location) :
  0 <= m ->
  exists m1,
    m / 2 ^ Z.max (fexp (Zdigits2 m + e) - e) 0 <= m1
      <= m / 2 ^ Z.max (fexp (Zdigits2 m + e) - e) 0 + 1 /\
    binary_round_aux prec emax s m e l =
    let e' := e + Z.max (fexp (Zdigits2 m + e) - e) 0 in
    let k2 := Z.max (fexp (Zdigits2 m1 + e') - e') 0 in
    match m1 / 2 ^ k2 with
    | Z0 => S754_zero s
    | Zpos p => if e' + k2 <=? emax - prec
                then S754_finite s p (e' + k2) else S754_infinity s
    | Zneg _ => S754_nan
    end.
Proof.
  intros Hm. unfold binary_round_aux, shr_fexp.
  pose proof (shr_spec (shr_record_of_loc m l) e
                (fexp (Zdigits2 m + e) - e)) as Hs.
  rewrite shr_m_of_loc in Hs. specialize (Hs Hm).
  destruct (shr (shr_record_of_loc m l) e (fexp (Zdigits2 m + e) - e))
    as [mrs' e'] eqn:E1.
  cbn [fst snd] in Hs. destruct Hs as [Hm' He'].
  set (m1 := round_nearest_even (shr_m mrs') (loc_of_shr_record mrs')).
  assert (Hm1 : shr_m mrs' <= m1 <= shr_m mrs' + 1)
    by apply round_nearest_even_bounds.
  assert (Hm'0 : 0 <= shr_m mrs').
  { rewrite Hm'. apply Z.div_pos; [assumption|]. apply Z.pow_pos_nonneg; lia. }
  pose proof (shr_spec (shr_record_of_loc m1 loc_Exact) e'
                (fexp (Zdigits2 m1 + e') - e')) as Hs2.
  rewrite shr_m_of_loc in Hs2. specialize (Hs2 ltac:(lia)).
  destruct (shr (shr_record_of_loc m1 loc_Exact) e'
              (fexp (Zdigits2 m1 + e') - e')) as [mrs'' e''] eqn:E2.
  cbn [fst snd] in Hs2. destruct Hs2 as [Hm'' He''].
  exists m1. split; [rewrite <- Hm'; exact Hm1|].
  cbv zeta. rewrite <- He', <- Hm'', <- He''. reflexivity.
Qed.


Lemma binary_round_aux_sign (s : bool) (m e : Z) (l : location) :
  0 <= m -> has_sign s (binary_round_aux prec emax s m e l).
Proof.
  intros Hm. destruct (binary_round_aux_eq s m e l Hm) as (m1 & Hm1 & ->).
  cbv zeta.
  assert (H0 : 0 <= m / 2 ^ Z.max (fexp (Zdigits2 m + e) - e) 0).
  { apply Z.div_pos; [assumption|]. apply Z.pow_pos_nonneg; lia. }
  match goal with
  | |- has_sign _ (match ?q with _ => _ end) =>
      assert (Hq : 0 <= q) by (apply Z.div_pos; [lia|]; apply Z.pow_pos_nonneg; lia);
      destruct q; [reflexivity| |lia]
  end.
  destruct (_ <=? _); reflexivity.
Qed.


Lemma div_pow2_ge_1 (m d k : Z) :
  2 ^ (d - 1) <= m -> 0 <= k <= d - 1 -> 1 <= m / 2 ^ k.
Proof.
  intros Hm Hk. apply Z.div_le_lower_bound; [apply Z.pow_pos_nonneg; lia|].
  rewrite Z.mul_1_r. etransitivity; [|exact Hm].
  apply Z.pow_le_mono_r; lia.
Qed.

(** A sum that is at least the canonical number [mx * 2^ex] is rounded to
    a number with a greater exponent, or the same exponent and a mantissa
    that is not smaller, or to infinity. *)
Lemma binary_round_aux_lower (mx : positive) (ex : Z) (mz : positive) (ez : Z)
    (l : location) :
  canonical_mantissa prec emax mx ex = true ->
  ez <= ex ->
  Zpos mx * 2 ^ (ex - ez) <= Zpos mz ->
  match binary_round_aux prec emax false (Zpos mz) ez l with
  | S754_finite false m2 e2 => ex < e2 \/ (ex = e2 /\ (mx <= m2)%positive)
  | S754_infinity false => True
  | _ => False
  end.
Proof.
  intros Hcan Hez Hle.
  destruct (binary_round_aux_eq false (Zpos mz) ez l ltac:(lia))
    as (m1 & Hm1 & ->).
  cbv zeta. cbn [Zdigits2] in *.
  unfold canonical_mantissa in Hcan. apply Z.eqb_eq in Hcan.
  pose proof (digits2_pos_bounds mx) as Hdx.
  pose proof (digits2_pos_bounds mz) as Hdz.
  set (dx := Zpos (digits2_pos mx)) in *.
  set (dz := Zpos (digits2_pos mz)) in *.
  assert (Hdx0 : 0 < dx) by (unfold dx; lia).
  assert (Hdz0 : 0 < dz) by (unfold dz; lia).
  assert (Hmag : dx + ex <= dz + ez).
  { assert (Hlt : 2 ^ (dx - 1 + (ex - ez)) < 2 ^ dz).
    { rewrite Z.pow_add_r by lia.
      eapply Z.le_lt_trans; [|apply Hdz].
      etransitivity; [|exact Hle].
      apply Z.mul_le_mono_nonneg_r; [apply Z.pow_nonneg; lia | apply Hdx]. }
    apply Z.pow_lt_mono_r_iff in Hlt; lia. }
  unfold SpecFloat.fexp, SpecFloat.emin in *.
  set (emin := 3 - emax - prec) in *.
  assert (Hprec : 0 < prec) by reflexivity.
  set (k := Z.max (Z.max (dz + ez - prec) emin - ez) 0) in *.
  assert (Hk : 0 <= k) by lia.
  assert (He' : ex <= ez + k) by lia.
  assert (Hsame : ez + k = ex -> Zpos mx <= Zpos mz / 2 ^ k).
  { intros Hk'. replace k with (ex - ez) by lia.
    apply Z.div_le_lower_bound; [apply Z.pow_pos_nonneg; lia | lia]. }
  assert (Hm' : 1 <= Zpos mz / 2 ^ k).
  { destruct (Z_le_gt_dec emin (dz + ez - prec)) as [Hn|Hs].
    - apply (div_pow2_ge_1 _ dz); [apply Hdz | lia].
    - destruct (Z.eq_dec k 0) as [-> | Hk0].
      + rewrite Z.pow_0_r, Z.div_1_r. lia.
      + assert (Heq : ez + k = ex) by lia. specialize (Hsame Heq). lia. }
  destruct m1 as [|p1|p1]; [lia| |lia].
  cbn [Zdigits2].
  pose proof (digits2_pos_bounds p1) as Hd1.
  set (d1 := Zpos (digits2_pos p1)) in *.
  assert (Hd10 : 0 < d1) by (unfold d1; lia).
  set (k2 := Z.max (Z.max (d1 + (ez + k) - prec) emin - (ez + k)) 0) in *.
  assert (Hm2 : 1 <= Zpos p1 / 2 ^ k2).
  { apply (div_pow2_ge_1 _ d1); [apply Hd1 | lia]. }
  assert (Hsame2 : ez + k + k2 = ex -> Zpos mx <= Zpos p1 / 2 ^ k2).
  { intros Heq. assert (Hk2 : k2 = 0) by lia. rewrite Hk2.
    rewrite Z.pow_0_r, Z.div_1_r. specialize (Hsame ltac:(lia)). lia. }
  destruct (Zpos p1 / 2 ^ k2) as [|m2|m2]; [lia| |lia].
  destruct (ez + k + k2 <=? emax - prec); [|exact I].
  destruct (Z.eq_dec (ez + k + k2) ex) as [Heq|Hne].
  - right. split; [lia|]. specialize (Hsame2 Heq). lia.
  - left. lia.
Qed.


Lemma shl_align_spec (m : positive) (e e' : Z) :
  snd (shl_align m e e') = Z.min e e' /\
  Zpos (fst (shl_align m e e')) = Zpos m * 2 ^ (e - Z.min e e').
Proof.
  unfold shl_align. destruct (e' - e) as [|d|d] eqn:Hd; cbn [fst snd].
  - rewrite Z.min_l by lia. rewrite Z.sub_diag, Z.pow_0_r. lia.
  - rewrite Z.min_l by lia. rewrite Z.sub_diag, Z.pow_0_r. lia.
  - rewrite Z.min_r by lia. rewrite pos_iter_xO. split; [reflexivity|].
    f_equal. f_equal. lia.
Qed.

(** *** Non-negative numbers *)


Lemma SFleb_zero (x : spec_float) :
  SFleb (S754_zero false) x = true <-> nonneg_sf x.
Proof.
  destruct x as [s|[|]| |[|] m e]; cbn; split; intros; try discriminate; auto.
Qed.

Lemma SFleb_refl_finite (m : positive) (e : Z) :
  SFleb (S754_finite false m e) (S754_finite false m e) = true.
Proof.
  unfold SFleb, SFcompare. rewrite Z.compare_refl, Pos.compare_cont_refl.
  reflexivity.
Qed.

Lemma SFadd_nonneg (x y : spec_float) :
  valid_binary x = true -> nonneg_sf x -> nonneg_sf y ->
  nonneg_sf (SF64add x y) /\ SFleb x (SF64add x y) = true.
Proof.
  intros Hv Hx Hy. unfold SF64add.
  destruct x as [sx|[|]| |[|] mx ex]; try contradiction;
    destruct y as [sy|[|]| |[|] my ey]; try contradiction;
    try (destruct sx); try (destruct sy);
    try (cbn; split; [exact I | reflexivity]);
    try (split; [exact I | apply SFleb_refl_finite]).
  cbn [SFadd cond_Zopp].
  set (ez := Z.min ex ey).
  destruct (shl_align_spec mx ex ez) as [_ Hx'].
  destruct (shl_align_spec my ey ez) as [_ Hy'].
  set (mx' := fst (shl_align mx ex ez)) in *.
  set (my' := fst (shl_align my ey ez)) in *.
  change (Zpos mx' + Zpos my') with (Zpos (mx' + my')).
  cbn [binary_normalize]. unfold binary_round.
  set (t := fexp (Zpos (digits2_pos (mx' + my')) + ez)).
  destruct (shl_align_spec (mx' + my') ez t) as [He0 Hm0].
  destruct (shl_align (mx' + my') ez t) as [mz ez0]. cbn [fst snd] in He0, Hm0.
  cbn [SpecFloat.valid_binary] in Hv. unfold SpecFloat.bounded in Hv.
  apply andb_prop in Hv. destruct Hv as [Hcan _].
  pose proof (binary_round_aux_lower mx ex mz ez0 loc_Exact Hcan) as Hlow.
  assert (Hez : ez <= ex) by (unfold ez; lia).
  replace (Z.min ex ez) with ez in Hx' by lia.
  assert (Hle : Zpos mx * 2 ^ (ex - ez0) <= Zpos mz).
  { rewrite Hm0, <- He0.
    replace (ex - ez0) with ((ex - ez) + (ez - ez0)) by lia.
    rewrite Z.pow_add_r by lia. rewrite Z.mul_assoc, <- Hx'.
    apply Z.mul_le_mono_nonneg_r; [apply Z.pow_nonneg; lia|]. lia. }
  specialize (Hlow ltac:(lia) Hle).
  destruct (binary_round_aux prec emax false (Zpos mz) ez0 loc_Exact)
    as [s|[|]| |[|] m2 e2]; try contradiction.
  - split; [exact I | reflexivity].
  - split; [exact I|]. unfold SFleb, SFcompare.
    destruct Hlow as [Hlt | [-> Hm]].
    + apply Z.compare_lt_iff in Hlt. rewrite Hlt. reflexivity.
    + rewrite Z.compare_refl. change (Pos.compare_cont Eq mx m2) with (mx ?= m2)%positive.
      destruct (mx ?= m2)%positive eqn:Hc; try reflexivity.
      apply Pos.compare_gt_iff in Hc. lia.
Qed.


Lemma has_sign_nonneg (x : spec_float) : has_sign false x -> nonneg_sf x.
Proof. destruct x as [s|s| |s m e]; cbn; intros H; subst; auto. Qed.

Lemma SFsqrt_nonneg (x : spec_float) :
  nonneg_sf x -> nonneg_sf (SF64sqrt x).
Proof.
  destruct x as [s|[|]| |[|] m e]; cbn; try tauto. intros _.
  unfold SFsqrt_core_binary.
  match goal with
  | |- context [Z.sqrtrem ?a] =>
      assert (Ha : 0 <= a);
      [ | pose proof (Z.sqrtrem_spec a Ha) as Hs; destruct (Z.sqrtrem a) as [q r] ]
  end.
  { destruct (e - 2 * _) as [|p|p]; try lia.
    apply Z.shiftl_nonneg. lia. }
  apply has_sign_nonneg, binary_round_aux_sign. lia.
Qed.

Lemma SFmul_self_nonneg (x : spec_float) :
  x <> S754_nan -> nonneg_sf (SF64mul x x).
Proof.
  destruct x as [s|s| |s m e]; cbn; intros Hx; try congruence.
  - destruct s; exact I.
  - destruct s; exact I.
  - apply has_sign_nonneg.
    replace (xorb s s) with false by (destruct s; reflexivity).
    apply binary_round_aux_sign. lia.
Qed.


Lemma binary_normalize_not_nan (m e : Z) (s : bool) :
  binary_normalize prec emax m e s <> S754_nan.
Proof.
  destruct m as [|p|p]; cbn [binary_normalize]; [discriminate| |];
    unfold binary_round;
    match goal with
    | |- context [binary_round_aux _ _ ?sg _ _ _] =>
        destruct (shl_align _ _ _) as [mz ez];
        pose proof (binary_round_aux_sign sg (Zpos mz) ez loc_Exact ltac:(lia)) as Hs;
        destruct (binary_round_aux prec emax sg (Zpos mz) ez loc_Exact);
        [discriminate | discriminate | contradiction | discriminate]
    end.
Qed.

Lemma SFsub_finite_not_nan (x y : spec_float) :
  finite_sf x -> finite_sf y -> SF64sub x y <> S754_nan.
Proof.
  destruct x as [sx|sx| |sx mx ex]; try contradiction;
    destruct y as [sy|sy| |sy my ey]; try contradiction; intros _ _;
    cbn [SF64sub SFsub]; try discriminate.
  - destruct sx, sy; discriminate.
  - apply binary_normalize_not_nan.
Qed.

(** *** The primitive operations *)

Lemma float_le_zero (x : float) : float_le 0 x <-> nonneg_sf (Prim2SF x).
Proof.
  unfold float_le. rewrite FloatAxioms.leb_spec.
  change (Prim2SF 0) with (S754_zero false). apply SFleb_zero.
Qed.

Lemma add_nonneg (c len : float) :
  float_le 0 c -> float_le 0 len ->
  float_le c (c + len) /\ float_le 0 (c + len).
Proof.
  rewrite !float_le_zero. intros Hc Hl.
  unfold float_le. rewrite FloatAxioms.leb_spec, FloatAxioms.add_spec.
  destruct (SFadd_nonneg (Prim2SF c) (Prim2SF len) (Prim2SF_valid c) Hc Hl).
  auto.
Qed.

Lemma is_finite_sf (x : float) :
  is_finite x = true -> finite_sf (Prim2SF x).
Proof.
  unfold is_finite, is_nan, is_infinity.
  rewrite !FloatAxioms.eqb_spec, FloatAxioms.abs_spec.
  change (Prim2SF infinity) with (S754_infinity false).
  destruct (Prim2SF x) as [s|s| |s m e]; cbn; try discriminate; auto.
  destruct s; discriminate.
Qed.


Local Close Scope Z_scope.



Lemma sub_finite_not_nan (a b : float) :
  is_finite a = true -> is_finite b = true -> Prim2SF (a - b) <> S754_nan.
Proof.
  intros Ha Hb. rewrite FloatAxioms.sub_spec.
  apply SFsub_finite_not_nan; apply is_finite_sf; assumption.
Qed.

Lemma is_nan_sf (x : float) : is_nan x = true <-> Prim2SF x = S754_nan.
Proof.
  unfold is_nan. rewrite FloatAxioms.eqb_spec. unfold SFeqb.
  destruct (Prim2SF x) as [s|s| |s m e]; cbn [SFcompare].
  - destruct s; split; discriminate.
  - destruct s; split; discriminate.
  - split; reflexivity.
  - rewrite Z.compare_refl, Pos.compare_cont_refl.
    destruct s; split; discriminate.
Qed.

Lemma finite_is_finite (x : float) (s : bool) (m : positive) (e : Z) :
  Prim2SF x = S754_finite s m e -> is_finite x = true.
Proof.
  intros Hx. unfold is_finite, is_nan, is_infinity.
  rewrite !FloatAxioms.eqb_spec, FloatAxioms.abs_spec, Hx.
  unfold SFeqb. cbn [SFabs SFcompare].
  rewrite Z.compare_refl, Pos.compare_cont_refl.
  change (Prim2SF infinity) with (S754_infinity false).
  destruct s; reflexivity.
Qed.

(** The correctly rounded square is a [pow] of the kind the order of the
    positions needs. *)
Lemma pow2_nonneg_correctly_rounded : pow2_nonneg correctly_rounded.
Proof.
  intros x Hx _. cbn [pow2 correctly_rounded].
  apply float_le_zero. rewrite FloatAxioms.mul_spec.
  apply SFmul_self_nonneg. apply is_finite_sf in Hx.
  destruct (Prim2SF x); try contradiction; discriminate.
Qed.

Section Platform.
Context {platform : Libm}.
Hypothesis platform_pow2 : pow2_nonneg platform.

(** [a ** 2] of a number is not negative and not NaN. *)
Lemma square_nonneg (a p : float) :
  Prim2SF a <> S754_nan -> square a = Ok p -> float_le 0 p.
Proof.
  intros Ha Hp. cbn [square binary64] in Hp. unfold float_pow in Hp.
  destruct (is_nan a) eqn:Hnan.
  { apply is_nan_sf in Hnan. contradiction. }
  destruct (is_infinity a) eqn:Hinf.
  { injection Hp as <-. apply float_le_zero. rewrite FloatAxioms.abs_spec.
    destruct (Prim2SF a) as [s|s| |s m e]; try exact I. contradiction. }
  destruct (PrimFloat.eqb a 0) eqn:Hzero.
  { injection Hp as <-. reflexivity. }
  assert (exists s m e, Prim2SF a = S754_finite s m e) as (s & m & e & HA).
  { unfold is_infinity in Hinf.
    rewrite FloatAxioms.eqb_spec in Hzero, Hinf.
    rewrite FloatAxioms.abs_spec in Hinf.
    change (Prim2SF 0) with (S754_zero false) in Hzero.
    change (Prim2SF infinity) with (S754_infinity false) in Hinf.
    destruct (Prim2SF a) as [s|s| |s m e]; try contradiction; eauto;
      destruct s; discriminate. }
  set (iv := if PrimFloat.ltb a 0 then PrimFloat.opp a else a) in Hp.
  assert (Prim2SF iv = S754_finite false m e) as HIV.
  { subst iv. rewrite FloatAxioms.ltb_spec, HA.
    change (Prim2SF 0) with (S754_zero false).
    destruct s; cbn.
    - rewrite FloatAxioms.opp_spec, HA. reflexivity.
    - exact HA. }
  cbv zeta in Hp.
  destruct (PrimFloat.eqb iv 1).
  { injection Hp as <-. reflexivity. }
  destruct (is_infinity (pow2 iv)); [discriminate|].
  injection Hp as <-. apply platform_pow2.
  - eapply finite_is_finite. exact HIV.
  - unfold float_lt. rewrite FloatAxioms.ltb_spec, HIV. reflexivity.
Qed.

Lemma elem_length_nonneg (ci cj : coords float) (len : float) :
  finite_coords ci -> finite_coords cj ->
  elem_length ci cj = Ok len -> float_le 0 len.
Proof.
  intros (Hxi & Hyi & Hzi) (Hxj & Hyj & Hzj). unfold elem_length.
  intros Hl.
  destruct (square (sub (coord_x cj) (coord_x ci))) as [dx2|] eqn:Hdx;
    cbn [rbind] in Hl; [|discriminate].
  destruct (square (sub (coord_y cj) (coord_y ci))) as [dy2|] eqn:Hdy;
    cbn [rbind] in Hl; [|discriminate].
  destruct (square (sub (coord_z cj) (coord_z ci))) as [dz2|] eqn:Hdz;
    cbn [rbind] in Hl; [|discriminate].
  inversion Hl; subst len.
  apply square_nonneg in Hdx; [|apply sub_finite_not_nan; assumption].
  apply square_nonneg in Hdy; [|apply sub_finite_not_nan; assumption].
  apply square_nonneg in Hdz; [|apply sub_finite_not_nan; assumption].
  destruct (add_nonneg dx2 dy2 Hdx Hdy) as [_ Hxy].
  destruct (add_nonneg (dx2 + dy2) dz2 Hxy Hdz) as [_ Hxyz].
  apply float_le_zero. cbn [root add binary64].
  rewrite FloatAxioms.sqrt_spec. apply SFsqrt_nonneg, float_le_zero, Hxyz.
Qed.

Lemma length_of_nonneg (data_loader : DataLoader float) (e : Z) (len : float) :
  finite_nodes data_loader ->
  length_of data_loader e = Ok len -> float_le 0 len.
Proof.
  intros Hfin. unfold length_of. intros Hl.
  destruct (get_element_nodes data_loader e) as [n|];
    cbn [rbind] in Hl; [|discriminate].
  destruct (get_node_coords data_loader (node_i n)) as [ci|] eqn:Hi;
    cbn [rbind] in Hl; [|discriminate].
  destruct (get_node_coords data_loader (node_j n)) as [cj|] eqn:Hj;
    cbn [rbind] in Hl; [|discriminate].
  apply get_node_coords_Ok in Hi, Hj.
  eapply elem_length_nonneg; [eapply Hfin, Hi | eapply Hfin, Hj | exact Hl].
Qed.

(** Non-decreasing positions for finite coordinates, on every platform
    whose [pow(x, 2.0)] is not negative and not NaN: the binary64 half
    of C5. *)
Lemma positions_nondecreasing_binary64 (data_loader : DataLoader float)
    (l : list Z) (force_type : string) :
  finite_nodes data_loader ->
  valid_force_type force_type ->
  Forall (resolves data_loader) l ->
  Forall (measurable data_loader) l ->
  exists ps vs,
    outcome (extract_girder_forces data_loader l force_type) = Ok (ps, vs) /\
    adjacent float_le ps.
Proof.
  intros Hfin Hft Hres Hmeas.
  destruct (extract_loop_lengths data_loader force_type l 0 start Hft Hres Hmeas)
    as (st' & ps & vs & Hout & _).
  exists (positions st'), (values st').
  rewrite (outcome_extract_girder_forces _ _ _ Hft), Hout. cbn [rbind].
  split; [reflexivity|].
  eapply (extract_loop_adjacent data_loader float_le (float_le 0) (float_le 0));
    [ | | | | | exact Hout].
  - intros c len Hc Hlen. apply add_nonneg; assumption.
  - intros e len _ Hl. eapply length_of_nonneg; eassumption.
  - reflexivity.
  - reflexivity.
  - intros k a b _ Hb. destruct k; discriminate.
Qed.

End Platform.

End Binary64.

(** ** Binary64 arithmetic: quotients and products *)

Section Binary64Scaling.
Local Open Scope Z_scope.
Abbreviation fexp := (SpecFloat.fexp prec emax).

Lemma digits2_pos_le (m : positive) (n : Z) :
  Zpos m < 2 ^ n -> Zpos (digits2_pos m) <= n.
Proof.
  intros Hlt. pose proof (digits2_pos_bounds m) as [Hlo _].
  destruct (Z_lt_le_dec n 0) as [Hn|Hn].
  - rewrite Z.pow_neg_r in Hlt by lia. lia.
  - assert (H : 2 ^ (Zpos (digits2_pos m) - 1) < 2 ^ n) by lia.
    apply Z.pow_lt_mono_r_iff in H; lia.
Qed.

(** A mantissa whose successor is at most the canonical number
    [mf * 2^ef] on its own grid is rounded to zero or to a number that is
    not greater. *)
Lemma binary_round_aux_upper (s : bool) (mf : positive) (ef : Z) (mz ez : Z)
    (l : location) :
  SpecFloat.bounded prec emax mf ef = true ->
  0 <= mz -> ez <= ef ->
  mz + 1 <= Zpos mf * 2 ^ (ef - ez) ->
  match binary_round_aux prec emax s mz ez l with
  | S754_zero _ => True
  | S754_finite _ m2 e2 => e2 < ef \/ (e2 = ef /\ (m2 <= mf)%positive)
  | _ => False
  end.
Proof.
  intros Hb Hmz Hez Hle.
  unfold SpecFloat.bounded in Hb. apply andb_prop in Hb. destruct Hb as [Hcan Hmax].
  apply Z.leb_le in Hmax.
  unfold canonical_mantissa in Hcan. apply Z.eqb_eq in Hcan.
  destruct (binary_round_aux_eq s mz ez l Hmz) as (m1 & Hm1 & ->).
  cbv zeta.
  pose proof (digits2_pos_bounds mf) as Hdf.
  set (df := Zpos (digits2_pos mf)) in *.
  assert (Hdf0 : 0 < df) by (unfold df; lia).
  assert (Hprec : 0 < prec) by reflexivity.
  assert (Hdz : Zdigits2 mz + ez <= df + ef).
  { destruct mz as [|pz|pz]; [cbn; lia| |lia]. cbn [Zdigits2].
    assert (Zpos (digits2_pos pz) <= df + (ef - ez)); [|lia].
    apply digits2_pos_le. rewrite Z.pow_add_r by lia.
    assert (0 < 2 ^ (ef - ez)) by (apply Z.pow_pos_nonneg; lia). nia. }
  unfold SpecFloat.fexp, SpecFloat.emin in *.
  set (emin := 3 - emax - prec) in *.
  set (k := Z.max (Z.max (Zdigits2 mz + ez - prec) emin - ez) 0) in *.
  assert (Hk : 0 <= k) by lia.
  assert (He' : ez + k <= ef) by lia.
  set (H := Zpos mf * 2 ^ (ef - (ez + k))).
  assert (HG : Zpos mf * 2 ^ (ef - ez) = H * 2 ^ k).
  { unfold H. rewrite <- Z.mul_assoc, <- Z.pow_add_r by lia.
    f_equal. f_equal. lia. }
  assert (Hpk : 0 < 2 ^ k) by (apply Z.pow_pos_nonneg; lia).
  assert (Hm' : mz / 2 ^ k + 1 <= H).
  { assert (mz / 2 ^ k < H); [|lia].
    apply Z.div_lt_upper_bound; [exact Hpk | lia]. }
  assert (Hm10 : 0 <= mz / 2 ^ k) by (apply Z.div_pos; lia).
  assert (Hd1 : Zdigits2 m1 + (ez + k) <= df + ef).
  { destruct m1 as [|p1|p1]; [cbn; lia| |lia]. cbn [Zdigits2].
    assert (Zpos (digits2_pos p1) <= df + (ef - (ez + k))); [|lia].
    apply digits2_pos_le. rewrite Z.pow_add_r by lia.
    assert (0 < 2 ^ (ef - (ez + k))) by (apply Z.pow_pos_nonneg; lia).
    unfold H in Hm'. nia. }
  set (k2 := Z.max (Z.max (Zdigits2 m1 + (ez + k) - prec) emin - (ez + k)) 0) in *.
  assert (Hk2 : 0 <= k2) by lia.
  assert (He2 : ez + k + k2 <= ef) by lia.
  assert (Hpk2 : 0 < 2 ^ k2) by (apply Z.pow_pos_nonneg; lia).
  assert (Hm2 : ez + k + k2 = ef -> m1 / 2 ^ k2 <= Zpos mf).
  { intros Heq. apply Z.div_le_upper_bound; [exact Hpk2|].
    replace (2 ^ k2 * Zpos mf) with H; [lia|].
    unfold H. replace (ef - (ez + k)) with k2 by lia. lia. }
  destruct (m1 / 2 ^ k2) as [|m2|m2] eqn:Hq; [exact I| |].
  - replace (ez + k + k2 <=? emax - prec) with true
      by (symmetry; apply Z.leb_le; lia).
    destruct (Z.eq_dec (ez + k + k2) ef) as [Heq|Hne].
    + right. split; [exact Heq|]. specialize (Hm2 Heq). lia.
    + left. lia.
  - assert (0 <= m1 / 2 ^ k2) by (apply Z.div_pos; lia). lia.
Qed.


(** *** The order on finite numbers *)



Lemma SFleb_finite (m1 : positive) (e1 : Z) (m2 : positive) (e2 : Z) :
  SFleb (S754_finite false m1 e1) (S754_finite false m2 e2) = true <->
  lex_le m1 e1 m2 e2.
Proof.
  unfold SFleb, SFcompare, lex_le.
  change (Pos.compare_cont Eq m1 m2) with (m1 ?= m2)%positive.
  destruct (Z.compare_spec e1 e2) as [Heq|Hlt|Hgt].
  - destruct (Pos.compare_spec m1 m2) as [Hm|Hm|Hm]; split; intros Hx;
      try discriminate; try reflexivity; try lia.
  - split; [intros _; left; exact Hlt | reflexivity].
  - split; [discriminate | lia].
Qed.

Lemma canonical_digits (m : positive) (e : Z) :
  canonical_mantissa prec emax m e = true ->
  Zpos (digits2_pos m) <= prec /\ emin <= e /\
  (emin < e -> Zpos (digits2_pos m) = prec).
Proof.
  unfold canonical_mantissa, SpecFloat.fexp, SpecFloat.emin.
  intros Hc. apply Z.eqb_eq in Hc. lia.
Qed.

(** For canonical numbers the order on (exponent, mantissa) is the order
    on values. *)
Lemma lex_lt_value (m1 : positive) (e1 : Z) (m2 : positive) (e2 e0 : Z) :
  canonical_mantissa prec emax m1 e1 = true ->
  canonical_mantissa prec emax m2 e2 = true ->
  lex_lt m1 e1 m2 e2 -> e0 <= e1 -> e0 <= e2 ->
  Zpos m1 * 2 ^ (e1 - e0) < Zpos m2 * 2 ^ (e2 - e0).
Proof.
  intros Hc1 Hc2 Hlt H1 H2.
  apply canonical_digits in Hc1, Hc2.
  destruct Hc1 as (Hd1 & Hmin1 & _). destruct Hc2 as (_ & _ & Hd2).
  assert (Hp : 0 < 2 ^ (e1 - e0)) by (apply Z.pow_pos_nonneg; lia).
  destruct Hlt as [He | [-> Hm]]; [|nia].
  specialize (Hd2 ltac:(lia)).
  pose proof (digits2_pos_bounds m1) as [_ Hu1].
  pose proof (digits2_pos_bounds m2) as [Hl2 _].
  rewrite Hd2 in Hl2.
  assert (Hm1 : Zpos m1 < 2 ^ prec).
  { eapply Z.lt_le_trans; [exact Hu1|]. apply Z.pow_le_mono_r; lia. }
  replace (e2 - e0) with ((e2 - e1) + (e1 - e0)) by lia.
  rewrite Z.pow_add_r by lia.
  assert (Hp2 : 2 <= 2 ^ (e2 - e1)).
  { change 2 with (2 ^ 1) at 1. apply Z.pow_le_mono_r; lia. }
  assert (Hprec : 2 ^ prec = 2 * 2 ^ (prec - 1)) by reflexivity.
  assert (H3 : Zpos m1 < Zpos m2 * 2 ^ (e2 - e1)).
  { eapply Z.lt_le_trans; [exact Hm1|]. rewrite Hprec.
    set (a := 2 ^ (prec - 1)) in *. set (q := 2 ^ (e2 - e1)) in *.
    assert (0 < a) by (apply Z.pow_pos_nonneg; lia). nia. }
  rewrite Z.mul_assoc. apply Z.mul_lt_mono_pos_r; assumption.
Qed.


(** *** Quotients and products of bounded numbers *)

Lemma div_eucl_div_mod (a b : Z) :
  Z.div_eucl a b = (a / b, a mod b).
Proof. unfold Z.div, Z.modulo. destruct (Z.div_eucl a b); reflexivity. Qed.

Lemma new_location_0 (n : Z) : new_location n 0 = loc_Exact.
Proof.
  unfold new_location, new_location_even, new_location_odd.
  destruct (Z.even n); reflexivity.
Qed.

Lemma SFdiv_same (sx : bool) (m : positive) (e : Z) :
  SF64div (S754_finite sx m e) (S754_finite false m e)
  = S754_finite sx one_m one_e.
Proof.
  unfold SF64div. cbn [SFdiv]. unfold SFdiv_core_binary.
  replace (Zdigits2 (Zpos m) + e - (Zdigits2 (Zpos m) + e)) with 0 by lia.
  replace (e - e) with 0 by lia.
  change (Z.min (fexp 0) 0) with (-53). change (0 - -53) with 53.
  rewrite div_eucl_div_mod.
  rewrite Z.shiftl_mul_pow2 by lia.
  rewrite (Z.mul_comm (Zpos m)), Z.div_mul, Z.mod_mul by lia.
  rewrite new_location_0.
  destruct sx; reflexivity.
Qed.

Lemma SFdiv_below (sx : bool) (mx : positive) (ex : Z) (mm : positive) (em : Z) :
  canonical_mantissa prec emax mx ex = true ->
  canonical_mantissa prec emax mm em = true ->
  lex_lt mx ex mm em ->
  match SF64div (S754_finite sx mx ex) (S754_finite false mm em) with
  | S754_zero _ => True
  | S754_finite _ m2 e2 => lex_le m2 e2 one_m one_e
  | _ => False
  end.
Proof.
  intros Hcx Hcm Hlt. unfold SF64div. cbn [SFdiv]. unfold SFdiv_core_binary.
  cbn [Zdigits2].
  pose proof (digits2_pos_bounds mx) as Hdx.
  pose proof (digits2_pos_bounds mm) as Hdm.
  set (d1 := Zpos (digits2_pos mx)) in *.
  set (d2 := Zpos (digits2_pos mm)) in *.
  assert (Hd10 : 0 < d1) by (unfold d1; lia).
  assert (Hd20 : 0 < d2) by (unfold d2; lia).
  assert (Hmag : d1 + ex <= d2 + em).
  { pose proof (lex_lt_value mx ex mm em (Z.min ex em) Hcx Hcm Hlt
                  ltac:(lia) ltac:(lia)) as Hv.
    set (e0 := Z.min ex em) in *.
    assert (H1 : 2 ^ (d1 - 1 + (ex - e0)) < 2 ^ (d2 + (em - e0))).
    { rewrite !Z.pow_add_r by lia.
      assert (0 < 2 ^ (ex - e0)) by (apply Z.pow_pos_nonneg; lia).
      assert (0 < 2 ^ (em - e0)) by (apply Z.pow_pos_nonneg; lia).
      nia. }
    apply Z.pow_lt_mono_r_iff in H1; lia. }
  set (e' := Z.min (fexp (d1 + ex - (d2 + em))) (ex - em)).
  assert (He' : e' <= -53 /\ e' <= ex - em).
  { unfold e', SpecFloat.fexp, SpecFloat.emin.
    change prec with 53. change emax with 1024. lia. }
  destruct He' as [He'1 He'2].
  set (s := ex - em - e').
  assert (Hs : 0 <= s) by (unfold s; lia).
  set (m' := match s with
             | 0 => Zpos mx
             | Zpos _ => Z.shiftl (Zpos mx) s
             | Zneg _ => 0
             end).
  assert (Hm' : m' = Zpos mx * 2 ^ s).
  { unfold m'. destruct s as [|p|p] eqn:Es; [cbn; lia| |lia].
    apply Z.shiftl_mul_pow2. lia. }
  rewrite div_eucl_div_mod.
  pose proof (lex_lt_value mx ex mm em (em + e') Hcx Hcm Hlt
                ltac:(lia) ltac:(lia)) as Hv.
  replace (ex - (em + e')) with s in Hv by (unfold s; lia).
  replace (em - (em + e')) with (- e') in Hv by lia.
  assert (Hq : m' / Zpos mm < 2 ^ (- e')).
  { apply Z.div_lt_upper_bound; [lia|]. rewrite Hm'. exact Hv. }
  assert (Hq0 : 0 <= m' / Zpos mm).
  { apply Z.div_pos; [|lia]. rewrite Hm'.
    apply Z.mul_nonneg_nonneg; [lia | apply Z.pow_nonneg; lia]. }
  pose proof (binary_round_aux_upper (xorb sx false) one_m one_e
                (m' / Zpos mm) e' (new_location (Zpos mm) (m' mod Zpos mm))
                eq_refl Hq0) as Hup.
  assert (Hez : e' <= one_e) by (unfold one_e; lia).
  assert (Hle : m' / Zpos mm + 1 <= Zpos one_m * 2 ^ (one_e - e')).
  { change (Zpos one_m) with (2 ^ 52). rewrite <- Z.pow_add_r
      by (unfold one_e; lia).
    replace (52 + (one_e - e')) with (- e') by (unfold one_e; lia). lia. }
  specialize (Hup Hez Hle).
  destruct (binary_round_aux _ _ _ _ _ _); auto.
Qed.


Lemma digits2_pos_iter_xO (m d : positive) :
  Zpos (digits2_pos (Pos.iter xO m d)) = Zpos (digits2_pos m) + Zpos d.
Proof.
  induction d as [|d IH] using Pos.peano_ind.
  - cbn [Pos.iter digits2_pos]. lia.
  - rewrite Pos.iter_succ. cbn [digits2_pos].
    rewrite Pos2Z.inj_succ, IH. lia.
Qed.

Lemma SFmul_one (sq : bool) (mf : positive) (ef : Z) :
  SpecFloat.bounded prec emax mf ef = true ->
  SF64mul (S754_finite sq one_m one_e) (S754_finite false mf ef)
  = S754_finite sq mf ef.
Proof.
  intros Hb. unfold SpecFloat.bounded in Hb. apply andb_prop in Hb.
  destruct Hb as [Hcan Hmax].
  unfold canonical_mantissa in Hcan. apply Z.eqb_eq in Hcan.
  unfold SF64mul. cbn [SFmul].
  replace (xorb sq false) with sq by (destruct sq; reflexivity).
  change (one_m * mf)%positive with (Pos.iter xO mf 52).
  unfold binary_round_aux, shr_fexp. cbn [Zdigits2].
  rewrite digits2_pos_iter_xO.
  replace (Zpos (digits2_pos mf) + 52 + (one_e + ef))
    with (Zpos (digits2_pos mf) + ef) by (unfold one_e; lia).
  rewrite Hcan.
  replace (ef - (one_e + ef)) with 52 by (unfold one_e; lia).
  change (shr (shr_record_of_loc (Zpos (Pos.iter xO mf 52)) loc_Exact)
            (one_e + ef) 52)
    with ({| shr_m := Zpos mf; shr_r := false; shr_s := false |},
          one_e + ef + 52).
  cbn [shr_m loc_of_shr_record round_nearest_even Zdigits2].
  replace (one_e + ef + 52) with ef by (unfold one_e; lia).
  rewrite Hcan, Z.sub_diag. cbn [shr shr_record_of_loc shr_m].
  rewrite Hmax. reflexivity.
Qed.

Lemma SFmul_below (sq : bool) (mq : positive) (eq1 : Z) (mf : positive) (ef : Z) :
  canonical_mantissa prec emax mq eq1 = true ->
  SpecFloat.bounded prec emax mf ef = true ->
  lex_lt mq eq1 one_m one_e ->
  match SF64mul (S754_finite sq mq eq1) (S754_finite false mf ef) with
  | S754_zero _ => True
  | S754_finite _ m2 e2 => lex_le m2 e2 mf ef
  | _ => False
  end.
Proof.
  intros Hcq Hb Hlt. unfold SF64mul. cbn [SFmul].
  apply canonical_digits in Hcq. destruct Hcq as (Hdq & _ & _).
  pose proof (digits2_pos_bounds mq) as [_ Hmq].
  assert (Hq : eq1 <= 0 /\ Zpos mq + 1 <= 2 ^ (- eq1)).
  { destruct Hlt as [He | [-> Hm]].
    - unfold one_e in He. split; [lia|].
      assert (Zpos mq < 2 ^ (- eq1)); [|lia].
      eapply Z.lt_le_trans; [exact Hmq|]. apply Z.pow_le_mono_r; [lia|].
      change prec with 53 in Hdq. lia.
    - apply Pos2Z.pos_lt_pos in Hm. unfold one_e.
      change (Zpos one_m) with (2 ^ 52) in Hm.
      change (- -52) with 52. clear -Hm. split; [discriminate | lia]. }
  destruct Hq as [Heq0 Hmq1].
  pose proof (binary_round_aux_upper (xorb sq false) mf ef
                (Zpos (mq * mf)) (eq1 + ef) loc_Exact Hb ltac:(lia)
                ltac:(lia)) as Hup.
  assert (Hle : Zpos (mq * mf) + 1 <= Zpos mf * 2 ^ (ef - (eq1 + ef))).
  { replace (ef - (eq1 + ef)) with (- eq1) by lia.
    rewrite Pos2Z.inj_mul. set (P := 2 ^ (- eq1)) in *.
    assert (H1 : (Zpos mq + 1) * Zpos mf <= P * Zpos mf).
    { apply Z.mul_le_mono_nonneg_r; lia. }
    lia. }
  specialize (Hup Hle).
  destruct (binary_round_aux _ _ _ _ _ _); auto.
Qed.


Lemma lex_le_cases (m1 : positive) (e1 : Z) (m2 : positive) (e2 : Z) :
  lex_le m1 e1 m2 e2 -> lex_lt m1 e1 m2 e2 \/ (m1 = m2 /\ e1 = e2).
Proof.
  unfold lex_le, lex_lt. intros [He | [He Hm]]; [auto|].
  apply Pos.le_lteq in Hm. destruct Hm as [Hm | Hm]; auto.
Qed.

Lemma lex_le_refl (m : positive) (e : Z) : lex_le m e m e.
Proof. right. split; [reflexivity | apply Pos.le_refl]. Qed.

Lemma valid_finite (s : bool) (m : positive) (e : Z) :
  valid_binary (S754_finite s m e) = true ->
  canonical_mantissa prec emax m e = true /\
  SpecFloat.bounded prec emax m e = true.
Proof.
  cbn [SpecFloat.valid_binary]. intros Hb. split; [|exact Hb].
  unfold SpecFloat.bounded in Hb. apply andb_prop in Hb. apply Hb.
Qed.

(** The quotient of a finite number by a positive one that is not
    smaller in magnitude has magnitude at most one, and the sign of the
    numerator. *)
Lemma SFdiv_le_one (sx : bool) (mx : positive) (ex : Z) (mm : positive) (em : Z) :
  canonical_mantissa prec emax mx ex = true ->
  canonical_mantissa prec emax mm em = true ->
  lex_le mx ex mm em ->
  match SF64div (S754_finite sx mx ex) (S754_finite false mm em) with
  | S754_zero s' => s' = sx
  | S754_finite s' m2 e2 => s' = sx /\ lex_le m2 e2 one_m one_e
  | _ => False
  end.
Proof.
  intros Hcx Hcm Hle. apply lex_le_cases in Hle.
  destruct Hle as [Hlt | [-> ->]].
  - pose proof (SFdiv_below sx mx ex mm em Hcx Hcm Hlt) as Hb.
    assert (Hs : has_sign sx
                   (SF64div (S754_finite sx mx ex) (S754_finite false mm em))).
    { unfold SF64div. cbn [SFdiv].
      destruct (SFdiv_core_binary prec emax (Zpos mx) ex (Zpos mm) em)
        as [[q e'] l] eqn:Hcore.
      replace sx with (xorb sx false) at 1 by (destruct sx; reflexivity).
      apply binary_round_aux_sign.
      unfold SFdiv_core_binary in Hcore. rewrite div_eucl_div_mod in Hcore.
      inversion Hcore; subst q. apply Z.div_pos; [|lia].
      destruct (_ - _ - _) as [|p|p]; try lia. apply Z.shiftl_nonneg. lia. }
    destruct (SF64div (S754_finite sx mx ex) (S754_finite false mm em));
      cbn [has_sign] in Hs; auto.
  - rewrite SFdiv_same. split; [reflexivity | apply lex_le_refl].
Qed.

(** The product of a number of magnitude at most one by a non-negative
    finite factor has magnitude at most the factor, and the sign of the
    first number. *)
Lemma SFmul_le_factor (sq : bool) (mq : positive) (e1 : Z) (mf : positive)
    (ef : Z) :
  canonical_mantissa prec emax mq e1 = true ->
  SpecFloat.bounded prec emax mf ef = true ->
  lex_le mq e1 one_m one_e ->
  match SF64mul (S754_finite sq mq e1) (S754_finite false mf ef) with
  | S754_zero s' => s' = sq
  | S754_finite s' m2 e2 => s' = sq /\ lex_le m2 e2 mf ef
  | _ => False
  end.
Proof.
  intros Hcq Hb Hle. apply lex_le_cases in Hle.
  destruct Hle as [Hlt | [-> ->]].
  - pose proof (SFmul_below sq mq e1 mf ef Hcq Hb Hlt) as Hbelow.
    assert (Hs : has_sign sq
                   (SF64mul (S754_finite sq mq e1) (S754_finite false mf ef))).
    { unfold SF64mul. cbn [SFmul].
      replace sq with (xorb sq false) at 1 by (destruct sq; reflexivity).
      apply binary_round_aux_sign. lia. }
    destruct (SF64mul (S754_finite sq mq e1) (S754_finite false mf ef));
      cbn [has_sign] in Hs; auto.
  - rewrite SFmul_one by exact Hb. split; [reflexivity | apply lex_le_refl].
Qed.



Lemma SFleb_refl (x : spec_float) : finite_nonneg_sf x -> SFleb x x = true.
Proof.
  destruct x as [s|s| |[|] m e]; cbn [finite_nonneg_sf]; try contradiction;
    intros _; [reflexivity | apply SFleb_finite, lex_le_refl].
Qed.

Lemma SFleb_total (x y : spec_float) :
  finite_nonneg_sf x -> finite_nonneg_sf y ->
  SFleb y x = false -> SFleb x y = true.
Proof.
  destruct x as [sx|sx| |[|] mx ex]; cbn [finite_nonneg_sf]; try contradiction;
    destruct y as [sy|sy| |[|] my ey]; cbn [finite_nonneg_sf];
    try contradiction; intros _ _ Hyx; try reflexivity; try discriminate.
  apply SFleb_finite. apply not_true_iff_false in Hyx.
  rewrite SFleb_finite in Hyx. unfold lex_le in *. lia.
Qed.

Lemma SFleb_trans (x y z : spec_float) :
  finite_nonneg_sf x -> finite_nonneg_sf y -> finite_nonneg_sf z ->
  SFleb x y = true -> SFleb y z = true -> SFleb x z = true.
Proof.
  destruct x as [sx|sx| |[|] mx ex]; cbn [finite_nonneg_sf]; try contradiction;
    destruct y as [sy|sy| |[|] my ey]; cbn [finite_nonneg_sf];
    try contradiction;
    destruct z as [sz|sz| |[|] mz ez]; cbn [finite_nonneg_sf];
    try contradiction; intros _ _ _ Hxy Hyz;
    try reflexivity; try discriminate.
  rewrite SFleb_finite in *. unfold lex_le in *. lia.
Qed.

(** One entry of the scaled sequence, on the specification side. *)
Lemma scale_entry_sf (X M F : spec_float) :
  valid_binary X = true -> valid_binary M = true -> valid_binary F = true ->
  valid_binary (SF64div X M) = true ->
  finite_sf X ->
  (exists mm em, M = S754_finite false mm em) ->
  SFleb (SFabs X) M = true ->
  finite_nonneg_sf F ->
  let Y := SF64mul (SF64div X M) F in
  SFleb (SFabs Y) F = true /\
  (nonneg_sf X -> nonneg_sf Y) /\
  (SFleb X (S754_zero false) = true -> SFleb Y (S754_zero false) = true).
Proof.
  intros HvX HvM HvF HvQ HX (mm & em & ->) Hle HF Y.
  apply valid_finite in HvM. destruct HvM as [HcM _].
  assert (HQ : match SF64div X (S754_finite false mm em) with
               | S754_zero _ => True
               | S754_finite s' mq e1 =>
                   (exists mx ex, X = S754_finite s' mx ex) /\
                   lex_le mq e1 one_m one_e
               | _ => False
               end).
  { destruct X as [sx|sx| |sx mx ex]; try contradiction.
    - exact I.
    - apply valid_finite in HvX. destruct HvX as [HcX _].
      cbn [SFabs] in Hle. apply SFleb_finite in Hle.
      pose proof (SFdiv_le_one sx mx ex mm em HcX HcM Hle) as Hd.
      destruct (SF64div (S754_finite sx mx ex) (S754_finite false mm em));
        auto.
      destruct Hd as [-> Hd]. split; [eauto | exact Hd]. }
  subst Y.
  destruct (SF64div X (S754_finite false mm em)) as [sq|sq| |sq mq e1];
    try contradiction.
  - (* the quotient is zero: so is the product *)
    destruct F as [sf|sf| |[|] mf ef]; try contradiction;
      cbn; repeat split; reflexivity.
  - (* the quotient is finite, of magnitude at most one *)
    destruct HQ as [(mx & ex & ->) Hq1].
    apply valid_finite in HvQ. destruct HvQ as [HcQ _].
    destruct F as [sf|sf| |[|] mf ef]; try contradiction.
    + cbn. repeat split; reflexivity.
    + apply valid_finite in HvF. destruct HvF as [_ HbF].
      pose proof (SFmul_le_factor sq mq e1 mf ef HcQ HbF Hq1) as Hm.
      destruct (SF64mul (S754_finite sq mq e1) (S754_finite false mf ef))
        as [sy|sy| |sy m2 e2]; try contradiction.
      * repeat split; reflexivity.
      * destruct Hm as [-> Hm]. split; [apply SFleb_finite, Hm|].
        split; destruct sq; cbn; auto.
Qed.


Local Close Scope Z_scope.

(** *** The greatest magnitude *)

Lemma finite_nonneg_abs (x : float) :
  is_finite x = true -> finite_nonneg_sf (Prim2SF (abs x)).
Proof.
  intros Hx. apply is_finite_sf in Hx. rewrite FloatAxioms.abs_spec.
  destruct (Prim2SF x); try contradiction; exact I.
Qed.

Lemma float_le_refl (a : float) :
  finite_nonneg_sf (Prim2SF a) -> float_le a a.
Proof.
  intros Ha. unfold float_le. rewrite FloatAxioms.leb_spec.
  apply SFleb_refl, Ha.
Qed.

Lemma maximum_binary64 (a b : float) :
  finite_nonneg_sf (Prim2SF a) -> finite_nonneg_sf (Prim2SF b) ->
  (maximum a b = a \/ maximum a b = b) /\
  float_le a (maximum a b) /\ float_le b (maximum a b).
Proof.
  intros Ha Hb. cbn [maximum binary64].
  destruct (PrimFloat.leb b a) eqn:Hba; cbn [orb].
  - split; [left; reflexivity|]. split; [apply float_le_refl, Ha | exact Hba].
  - assert (Hnan : is_nan a = false).
    { unfold is_nan. rewrite FloatAxioms.eqb_spec.
      pose proof (SFleb_refl _ Ha) as Hr. unfold SFleb in Hr. unfold SFeqb.
      destruct (Prim2SF a) as [s|s| |[|] m e]; try contradiction.
      - reflexivity.
      - cbn [SFcompare] in *. rewrite Z.compare_refl, Pos.compare_cont_refl.
        reflexivity. }
    rewrite Hnan. split; [right; reflexivity|].
    split; [|apply float_le_refl, Hb].
    unfold float_le. rewrite FloatAxioms.leb_spec in *.
    apply SFleb_total; assumption.
Qed.

Lemma fold_maximum_binary64 (l : list float) : forall a,
  finite_nonneg_sf (Prim2SF a) ->
  Forall (fun x => finite_nonneg_sf (Prim2SF x)) l ->
  finite_nonneg_sf (Prim2SF (fold_left maximum l a)) /\
  float_le a (fold_left maximum l a) /\
  Forall (fun x => float_le x (fold_left maximum l a)) l.
Proof.
  induction l as [|b l IH]; intros a Ha Hl; cbn [fold_left].
  - split; [exact Ha|]. split; [apply float_le_refl, Ha | constructor].
  - inversion Hl as [|? ? Hb Hl']; subst.
    destruct (maximum_binary64 a b Ha Hb) as (Hor & Hab & Hbb).
    assert (Hm : finite_nonneg_sf (Prim2SF (maximum a b))).
    { destruct Hor as [-> | ->]; assumption. }
    destruct (IH (maximum a b) Hm Hl') as (Hr & Hmr & Hall).
    split; [exact Hr|].
    assert (Htrans : forall x, finite_nonneg_sf (Prim2SF x) ->
                               float_le x (maximum a b) ->
                               float_le x (fold_left maximum l (maximum a b))).
    { intros x Hx Hxm. unfold float_le in *.
      rewrite FloatAxioms.leb_spec in *.
      eapply SFleb_trans; [exact Hx | exact Hm | exact Hr | exact Hxm | exact Hmr]. }
    split; [apply Htrans; assumption|].
    constructor; [apply Htrans; assumption | exact Hall].
Qed.

Lemma np_max_abs_binary64 (v : list float) (m : float) :
  Forall (fun x => is_finite x = true) v ->
  np_max (map absolute v) = Ok m ->
  finite_nonneg_sf (Prim2SF m) /\
  Forall (fun x => float_le (PrimFloat.abs x) m) v.
Proof.
  intros Hfin Hm. destruct v as [|x v]; [discriminate|].
  cbn [map np_max] in Hm. inversion Hm; subst m. clear Hm.
  inversion Hfin as [|? ? Hx Hv]; subst.
  destruct (fold_maximum_binary64 (map absolute v) (absolute x))
    as (Hr & Hxr & Hall).
  - apply finite_nonneg_abs, Hx.
  - apply Forall_fmap. eapply Forall_impl; [exact Hv|].
    intros y Hy. apply finite_nonneg_abs, Hy.
  - split; [exact Hr|]. constructor; [exact Hxr|].
    apply Forall_fmap in Hall. exact Hall.
Qed.

(** Magnitude and sign of the scaled entries in binary64, for finite
    values and a finite non-negative factor: the binary64 part of C6. *)
Lemma calculate_diagram_offset_bound_binary64 (v : list float) (f : float) :
  Forall (fun x => is_finite x = true) v ->
  is_finite f = true -> float_le 0 f -> v <> [] ->
  exists r,
    calculate_diagram_offset v f = Ok r /\
    length r = length v /\
    forall (k : nat) (x y : float),
      v !! k = Some x -> r !! k = Some y ->
      float_le (PrimFloat.abs y) f /\
      (float_le 0 x -> float_le 0 y) /\ (float_le x 0 -> float_le y 0).
Proof.
  intros Hv Hf Hf0 Hne.
  destruct (calculate_diagram_offset_cases v f Hne) as (m & Hm & Hr).
  rewrite Hr. eexists. split; [reflexivity|].
  destruct (np_max_abs_binary64 v m Hv Hm) as [Hmnn Hub].
  destruct (is_zero m) eqn:Hz.
  - split; [apply length_map|]. intros k x y Hx Hy.
    rewrite list_lookup_fmap, Hx in Hy. inversion Hy; subst y.
    split; [exact Hf0|]. split; intros _; reflexivity.
  - split; [apply length_map|]. intros k x y Hx Hy.
    rewrite list_lookup_fmap, Hx in Hy. inversion Hy; subst y.
    cbn [mul div binary64].
    assert (Hxfin : is_finite x = true).
    { eapply Forall_forall in Hv; [exact Hv|]. eapply list_elem_of_lookup_2, Hx. }
    assert (Hxm : float_le (PrimFloat.abs x) m).
    { eapply Forall_forall in Hub; [exact Hub|]. eapply list_elem_of_lookup_2, Hx. }
    assert (HM : exists mm em, Prim2SF m = S754_finite false mm em).
    { cbn [is_zero binary64] in Hz. rewrite FloatAxioms.eqb_spec in Hz.
      change (Prim2SF 0) with (S754_zero false) in Hz.
      destruct (Prim2SF m) as [s|s| |[|] mm em]; try contradiction.
      - discriminate.
      - eauto. }
    assert (HF : finite_nonneg_sf (Prim2SF f)).
    { apply is_finite_sf in Hf. apply float_le_zero in Hf0.
      destruct (Prim2SF f) as [s|s| |[|] mf ef]; try contradiction; exact I. }
    unfold float_le in Hxm. rewrite FloatAxioms.leb_spec, FloatAxioms.abs_spec in Hxm.
    pose proof (scale_entry_sf (Prim2SF x) (Prim2SF m) (Prim2SF f)
                  (Prim2SF_valid x) (Prim2SF_valid m) (Prim2SF_valid f)) as Hs.
    rewrite <- FloatAxioms.div_spec in Hs.
    specialize (Hs (Prim2SF_valid (x / m)) (is_finite_sf x Hxfin) HM Hxm HF).
    cbv zeta in Hs. rewrite <- FloatAxioms.mul_spec in Hs.
    destruct Hs as (Hb & Hpos & Hneg).
    split; [|split].
    + unfold float_le. rewrite FloatAxioms.leb_spec, FloatAxioms.abs_spec.
      exact Hb.
    + rewrite !float_le_zero. exact Hpos.
    + unfold float_le. rewrite !FloatAxioms.leb_spec.
      change (Prim2SF 0) with (S754_zero false). exact Hneg.
Qed.

End Binary64Scaling.

(** ** What the loops compute *)

Section ClosedForms.
Context {num : Type} `{Arith num}.
Variable data_loader : DataLoader num.

Lemma extract_step_view force_type i e st st1 :
  valid_force_type force_type ->
  extract_step data_loader force_type i e st = Ok st1 ->
  exists v len,
    views data_loader e v /\
    elem_length (view_i v) (view_j v) = Ok len /\
    st1 = {| positions := positions st ++ [add (current_position st) len];
             values := (if Nat.eqb i 0
                        then values st ++ [end_i force_type (view_data v)]
                        else values st)
                         ++ [end_j force_type (view_data v)];
             current_position := add (current_position st) len |}.
Proof.
  intros Hft Hstep. unfold extract_step in Hstep.
  destruct (get_element_data data_loader e) as [d|] eqn:Hd;
    cbn [rbind] in Hstep; [|discriminate].
  destruct (get_element_nodes data_loader e) as [n|] eqn:Hn;
    cbn [rbind] in Hstep; [|discriminate].
  destruct (get_node_coords data_loader (node_i n)) as [ci|] eqn:Hi;
    cbn [rbind] in Hstep; [|discriminate].
  destruct (get_node_coords data_loader (node_j n)) as [cj|] eqn:Hj;
    cbn [rbind] in Hstep; [|discriminate].
  destruct (elem_length ci cj) as [len|] eqn:Hlen;
    cbn [rbind] in Hstep; [|discriminate].
  rewrite (elem_getitem_i _ _ Hft), (elem_getitem_j _ _ Hft) in Hstep.
  exists {| view_data := d; view_i := ci; view_j := cj |}, len.
  split; [|split].
  - split; [exact Hd|]. exists n. cbn. auto.
  - exact Hlen.
  - destruct (Nat.eqb i 0); cbn [rbind] in Hstep;
      injection Hstep as <-; reflexivity.
Qed.

Lemma extract_loop_closed_form force_type l : forall i st st',
  valid_force_type force_type ->
  outcome (extract_loop data_loader force_type i l st) = Ok st' ->
  exists vws lens,
    Forall2 (views data_loader) l vws /\
    Forall2 (fun v len => elem_length (view_i v) (view_j v) = Ok len) vws lens /\
    positions st' = positions st ++ running (current_position st) lens /\
    values st' =
      values st ++
      appended i (fun v => end_i force_type (view_data v))
                 (fun v => end_j force_type (view_data v)) vws.
Proof.
  induction l as [|e l IH]; intros i st st' Hft Hout.
  - rewrite outcome_extract_loop_nil in Hout. inversion Hout; subst.
    exists [], []. repeat split; try constructor.
    + cbn. rewrite app_nil_r. reflexivity.
    + unfold appended. destruct (Nat.eqb i 0); cbn; rewrite app_nil_r;
        reflexivity.
  - rewrite outcome_extract_loop_cons in Hout.
    apply rbind_Ok_inv in Hout. destruct Hout as (st1 & Hstep & Hout).
    apply (extract_step_view _ _ _ _ _ Hft) in Hstep.
    destruct Hstep as (v & len & Hv & Hlen & ->).
    apply (IH _ _ _ Hft) in Hout.
    destruct Hout as (vws & lens & Hvws & Hlens & Hp & Hvals).
    cbn [positions values current_position] in Hp, Hvals.
    exists (v :: vws), (len :: lens).
    split; [constructor; assumption|]. split; [constructor; assumption|].
    split.
    + rewrite Hp, <- app_assoc. reflexivity.
    + rewrite Hvals. unfold appended. cbn [Nat.eqb stations map].
      destruct (Nat.eqb i 0); rewrite <- !app_assoc; reflexivity.
Qed.


Lemma views_length_of e v :
  views data_loader e v ->
  length_of data_loader e = elem_length (view_i v) (view_j v).
Proof.
  intros (_ & n & Hn & Hi & Hj). unfold length_of.
  rewrite Hn. cbn [rbind]. rewrite Hi. cbn [rbind]. rewrite Hj. reflexivity.
Qed.

Lemma views_resolves e v : views data_loader e v -> resolves data_loader e.
Proof.
  intros (Hd & n & Hn & Hi & Hj).
  exists (view_data v), n, (view_i v), (view_j v). auto.
Qed.

Lemma views_inj e v1 v2 :
  views data_loader e v1 -> views data_loader e v2 -> v1 = v2.
Proof.
  intros (Hd1 & n1 & Hn1 & Hi1 & Hj1) (Hd2 & n2 & Hn2 & Hi2 & Hj2).
  assert (n1 = n2) by congruence. subst n2.
  destruct v1, v2; cbn in *. f_equal; congruence.
Qed.

Lemma resolves_views e :
  resolves data_loader e -> exists v, views data_loader e v.
Proof.
  intros (d & n & ci & cj & Hd & Hn & Hi & Hj).
  exists {| view_data := d; view_i := ci; view_j := cj |}.
  split; [exact Hd|]. exists n. auto.
Qed.

Lemma Forall2_views_inj l : forall vws1 vws2,
  Forall2 (views data_loader) l vws1 ->
  Forall2 (views data_loader) l vws2 -> vws1 = vws2.
Proof.
  induction l as [|e l IH]; intros vws1 vws2 H1 H2;
    inversion H1; inversion H2; subst; [reflexivity|].
  f_equal; [eapply views_inj; eassumption | apply IH; assumption].
Qed.

Lemma geometry_step_view i e g g1 :
  geometry_step data_loader i e g = Ok g1 ->
  exists v,
    views data_loader e v /\
    geom_x g1 = geom_x g ++
      appended i (fun v => coord_x (view_i v)) (fun v => coord_x (view_j v)) [v] /\
    geom_y g1 = geom_y g ++
      appended i (fun v => coord_y (view_i v)) (fun v => coord_y (view_j v)) [v] /\
    geom_z g1 = geom_z g ++
      appended i (fun v => coord_z (view_i v)) (fun v => coord_z (view_j v)) [v] /\
    geom_Mz g1 = geom_Mz g ++
      appended i (fun v => Mz_i (view_data v)) (fun v => Mz_j (view_data v)) [v] /\
    geom_Vy g1 = geom_Vy g ++
      appended i (fun v => Vy_i (view_data v)) (fun v => Vy_j (view_data v)) [v].
Proof.
  intros Hstep. unfold geometry_step in Hstep.
  destruct (get_element_data data_loader e) as [d|] eqn:Hd;
    cbn [rbind] in Hstep; [|discriminate].
  destruct (get_element_nodes data_loader e) as [n|] eqn:Hn;
    cbn [rbind] in Hstep; [|discriminate].
  destruct (get_node_coords data_loader (node_i n)) as [ci|] eqn:Hi;
    cbn [rbind] in Hstep; [|discriminate].
  destruct (get_node_coords data_loader (node_j n)) as [cj|] eqn:Hj;
    cbn [rbind] in Hstep; [|discriminate].
  exists {| view_data := d; view_i := ci; view_j := cj |}.
  split; [split; [exact Hd|]; exists n; cbn; auto|].
  injection Hstep as <-. unfold appended.
  destruct (Nat.eqb i 0); cbn; rewrite <- ?app_assoc; auto.
Qed.

Lemma appended_cons {A : Type} i (first next : element_view num -> A) v vws :
  appended i first next (v :: vws) =
  appended i first next [v] ++ appended (S i) first next vws.
Proof. unfold appended. destruct (Nat.eqb i 0); reflexivity. Qed.

Lemma appended_length {A : Type} i (first next : element_view num -> A) vws :
  length (appended i first next vws) =
  (length vws + match vws with
                | [] => 0
                | _ :: _ => if Nat.eqb i 0 then 1 else 0
                end)%nat.
Proof.
  unfold appended, stations.
  destruct (Nat.eqb i 0), vws; cbn; rewrite ?length_map; lia.
Qed.

Lemma geometry_loop_closed_form l : forall i g g',
  outcome (geometry_loop data_loader i l g) = Ok g' ->
  exists vws,
    Forall2 (views data_loader) l vws /\
    geom_x g' = geom_x g ++
      appended i (fun v => coord_x (view_i v)) (fun v => coord_x (view_j v)) vws /\
    geom_y g' = geom_y g ++
      appended i (fun v => coord_y (view_i v)) (fun v => coord_y (view_j v)) vws /\
    geom_z g' = geom_z g ++
      appended i (fun v => coord_z (view_i v)) (fun v => coord_z (view_j v)) vws /\
    geom_Mz g' = geom_Mz g ++
      appended i (fun v => Mz_i (view_data v)) (fun v => Mz_j (view_data v)) vws /\
    geom_Vy g' = geom_Vy g ++
      appended i (fun v => Vy_i (view_data v)) (fun v => Vy_j (view_data v)) vws.
Proof.
  induction l as [|e l IH]; intros i g g' Hout.
  - cbn in Hout. injection Hout as <-. exists [].
    split; [constructor|]. unfold appended.
    destruct (Nat.eqb i 0); cbn; rewrite !app_nil_r; auto.
  - rewrite outcome_geometry_loop_cons in Hout.
    apply rbind_Ok_inv in Hout. destruct Hout as (g1 & Hstep & Hout).
    apply geometry_step_view in Hstep.
    destruct Hstep as (v & Hv & Hx1 & Hy1 & Hz1 & Hm1 & Hv1).
    apply IH in Hout. destruct Hout as (vws & Hvws & Hx & Hy & Hz & Hm & Hvy).
    exists (v :: vws). split; [constructor; assumption|].
    rewrite !(appended_cons i _ _ v vws), !app_assoc.
    rewrite <- Hx1, <- Hy1, <- Hz1, <- Hm1, <- Hv1. auto.
Qed.

Lemma geometry_loop_returns l : forall i g,
  Forall (resolves data_loader) l ->
  exists g', outcome (geometry_loop data_loader i l g) = Ok g'.
Proof.
  induction l as [|e l IH]; intros i g Hall.
  - exists g. reflexivity.
  - apply Forall_cons in Hall. destruct Hall as [He Hall].
    rewrite outcome_geometry_loop_cons.
    destruct He as (d & n & ci & cj & Hd & Hn & Hi & Hj).
    unfold geometry_step. rewrite Hd. cbn [rbind]. rewrite Hn. cbn [rbind].
    rewrite Hi. cbn [rbind]. rewrite Hj. cbn [rbind].
    apply IH. exact Hall.
Qed.

Lemma geometry_lengths (l : list Z) (g : geometry num) :
  outcome (get_girder_3d_geometry data_loader l) = Ok g ->
  let n := match l with [] => 0%nat | _ :: _ => S (length l) end in
  length (geom_x g) = n /\ length (geom_y g) = n /\ length (geom_z g) = n /\
  length (geom_Mz g) = n /\ length (geom_Vy g) = n.
Proof.
  intros Hout n. unfold get_girder_3d_geometry in Hout.
  apply geometry_loop_closed_form in Hout.
  destruct Hout as (vws & Hvws & Hx & Hy & Hz & Hm & Hv).
  cbn [geom_x geom_y geom_z geom_Mz geom_Vy app] in Hx, Hy, Hz, Hm, Hv.
  rewrite Hx, Hy, Hz, Hm, Hv, !appended_length.
  apply Forall2_length in Hvws. subst n.
  destruct l, vws; cbn in Hvws |- *; try discriminate; repeat split; lia.
Qed.

End ClosedForms.

(** ** The girder table *)

(** A successful extraction over an element list returns as many
    positions as the list has elements, plus one. *)
Lemma extract_girder_forces_ok_lengths {num : Type} `{Arith num}
    (data_loader : DataLoader num) (l : list Z) (force_type : string)
    (ps vs : list num) :
  outcome (extract_girder_forces data_loader l force_type) = Ok (ps, vs) ->
  length ps = S (length l) /\ (l <> [] -> length vs = S (length l)).
Proof.
  intros Hout.
  assert (Hft : valid_force_type force_type).
  { unfold extract_girder_forces in Hout.
    destruct (decide (force_type ∈ ["Mz"; "Vy"])) as [Hin|_];
      [apply valid_force_type_elem_of, Hin | discriminate]. }
  rewrite (outcome_extract_girder_forces _ _ _ Hft) in Hout.
  apply rbind_Ok_inv in Hout. destruct Hout as (st' & Hloop & Hret).
  inversion Hret; subst.
  apply extract_loop_ok_lengths in Hloop. destruct Hloop as [Hp Hv].
  cbn [start positions values length] in Hp, Hv.
  split; [lia|]. intros Hne. destruct l; [contradiction|]. cbn in Hv |- *. lia.
Qed.

(** C10.  The table has five girders; each has 9 elements and 10 nodes,
    so [len(nodes) == len(elements) + 1], which is the number of stations
    any extraction over the girder's elements returns: the positions and
    the values of the station extractor, and each of the five arrays of
    the 3D extractor. *)
Theorem girder_configs_station_count :
  length GIRDER_CONFIGS = 5%nat /\
  Forall (fun g => length (girder_elements (snd g)) = 9%nat /\
                   length (girder_nodes (snd g)) = 10%nat /\
                   length (girder_nodes (snd g))
                   = S (length (girder_elements (snd g))))
         GIRDER_CONFIGS /\
  (forall (num : Type) (A : Arith num) (data_loader : DataLoader num)
          (force_type : string),
     Forall (fun g =>
               match outcome (extract_girder_forces data_loader
                                (girder_elements (snd g)) force_type) with
               | Ok (ps, vs) => length ps = length (girder_nodes (snd g)) /\
                                length vs = length (girder_nodes (snd g))
               | Err _ => True
               end)
            GIRDER_CONFIGS) /\
  (forall (num : Type) (A : Arith num) (data_loader : DataLoader num),
     Forall (fun g =>
               match outcome (get_girder_3d_geometry data_loader
                                (girder_elements (snd g))) with
               | Ok geom =>
                   length (geom_x geom) = length (girder_nodes (snd g)) /\
                   length (geom_y geom) = length (girder_nodes (snd g)) /\
                   length (geom_z geom) = length (girder_nodes (snd g)) /\
                   length (geom_Mz geom) = length (girder_nodes (snd g)) /\
                   length (geom_Vy geom) = length (girder_nodes (snd g))
               | Err _ => True
               end)
            GIRDER_CONFIGS).
Proof.
  split; [reflexivity|]. split; [|split].
  - repeat constructor.
  - intros num A data_loader force_type.
    unfold GIRDER_CONFIGS. repeat apply Forall_cons_2; try apply Forall_nil_2;
      cbn [snd girder_elements girder_nodes];
      match goal with
      | |- match ?o with Ok _ => _ | Err _ => _ end =>
          destruct o as [[ps vs]|] eqn:Hout; [|exact I];
          apply extract_girder_forces_ok_lengths in Hout;
          destruct Hout as [Hp Hv]; split; [exact Hp | apply Hv; discriminate]
      end.
  - intros num A data_loader.
    unfold GIRDER_CONFIGS. repeat apply Forall_cons_2; try apply Forall_nil_2;
      cbn [snd girder_elements girder_nodes];
      match goal with
      | |- match ?o with Ok _ => _ | Err _ => _ end =>
          destruct o as [geom|] eqn:Hout; [|exact I];
          apply geometry_lengths in Hout; exact Hout
      end.
Qed.

(** ** Order, magnitude and idempotence *)

(** C5 (as amended).  In binary64, for finite node coordinates, the
    positions returned for a valid input are non-decreasing, on every
    platform whose [pow(x, 2.0)] is neither negative nor NaN.  In exact
    arithmetic they are non-decreasing, and strictly increasing when every
    element has a length greater than zero; in binary64 a positive length
    can be absorbed by the rounding of the sum, so that two consecutive
    positions are equal. *)
Theorem positions_monotone :
  (forall (platform : Libm) (data_loader : DataLoader float) (l : list Z)
          (force_type : string),
      pow2_nonneg platform ->
      finite_nodes data_loader ->
      valid_force_type force_type ->
      Forall (resolves data_loader) l ->
      Forall (measurable data_loader) l ->
      exists ps vs,
        outcome (extract_girder_forces data_loader l force_type) = Ok (ps, vs) /\
        adjacent float_le ps) /\
  (forall (data_loader : DataLoader R) (l : list Z) (force_type : string),
      valid_force_type force_type ->
      Forall (resolves data_loader) l ->
      exists ps vs,
        outcome (extract_girder_forces data_loader l force_type) = Ok (ps, vs) /\
        adjacent Rle ps /\
        ((forall e len,
             e ∈ l -> length_of data_loader e = Ok len -> (0 < len)%R) ->
         adjacent Rlt ps)).
Proof.
  split.
  - intros platform data_loader l force_type Hpow.
    exact (positions_nondecreasing_binary64 Hpow data_loader l force_type).
  - exact positions_monotone_exact.
Qed.

(** C6 (as amended).  On a non-empty sequence the scaler returns a
    sequence of the same length: all zeros when the greatest magnitude
    [max_abs] is 0, and [v / max_abs * factor] entry by entry otherwise
    (for every arithmetic).  In binary64, for finite values and a finite
    factor >= 0, every entry of the result has magnitude at most the
    factor and never the sign opposite to its input entry.  In exact
    arithmetic, for a factor >= 0, the same holds, and an entry has the
    same sign as its input entry when the factor is positive.  In
    binary64, scaling [-10, 5, 10] by 0.3 gives [-0.3, 0.15, 0.3]. *)
Theorem calculate_diagram_offset_spec :
  (forall (num : Type) (A : Arith num) (v : list num) (f : num),
      v <> [] ->
      exists max_abs r,
        np_max (map absolute v) = Ok max_abs /\
        calculate_diagram_offset v f = Ok r /\
        length r = length v /\
        r = if is_zero max_abs
            then map (fun _ => zero) v
            else map (fun x => mul (div x max_abs) f) v) /\
  (forall (v : list float) (f : float),
      Forall (fun x => is_finite x = true) v ->
      is_finite f = true -> float_le 0 f -> v <> [] ->
      exists r,
        calculate_diagram_offset v f = Ok r /\
        length r = length v /\
        forall (k : nat) (x y : float),
          v !! k = Some x -> r !! k = Some y ->
          float_le (PrimFloat.abs y) f /\
          (float_le 0 x -> float_le 0 y) /\ (float_le x 0 -> float_le y 0)) /\
  (forall (v : list R) (f : R),
      (0 <= f)%R -> v <> [] ->
      exists r,
        calculate_diagram_offset v f = Ok r /\
        length r = length v /\
        forall (k : nat) (x y : R),
          v !! k = Some x -> r !! k = Some y ->
          (Rabs y <= f)%R /\
          ((0 <= x)%R -> (0 <= y)%R) /\ ((x <= 0)%R -> (y <= 0)%R) /\
          ((0 < f)%R -> ((0 < x)%R -> (0 < y)%R) /\ ((x < 0)%R -> (y < 0)%R))) /\
  calculate_diagram_offset [-10; 5; 10]%float 0.3%float
  = Ok [-0.3; 0.15; 0.3]%float.
Proof.
  split; [|split; [|split]].
  - intros num A v f Hne.
    destruct (calculate_diagram_offset_cases v f Hne) as (m & Hm & Hr).
    exists m. eexists. split; [exact Hm|]. split; [exact Hr|].
    split; [|reflexivity]. destruct (is_zero m); apply length_map.
  - exact calculate_diagram_offset_bound_binary64.
  - exact calculate_diagram_offset_bound_exact.
  - vm_compute. reflexivity.
Qed.

(** C9 (as amended).  Whenever the scaler returns a sequence, scaling
    that sequence again with the same factor returns a sequence of the
    same length (for every arithmetic).  In exact arithmetic, for every
    sequence [v] and factor [f >= 0], the second scaling gives back the
    scaled sequence, so the scaler is idempotent there; in binary64 the
    two roundings of the second pass can change an entry. *)
Theorem calculate_diagram_offset_idempotent :
  (forall (num : Type) (A : Arith num) (v s : list num) (f : num),
      calculate_diagram_offset v f = Ok s ->
      exists s', calculate_diagram_offset s f = Ok s' /\
                 length s' = length s) /\
  (forall (v : list R) (f : R),
      (0 <= f)%R ->
      rbind (calculate_diagram_offset v f)
            (fun s => calculate_diagram_offset s f)
      = calculate_diagram_offset v f).
Proof.
  split; [|exact calculate_diagram_offset_idempotent_exact].
  intros num A v s f Hs.
  assert (Hne : v <> []) by (intros ->; discriminate).
  destruct (calculate_diagram_offset_cases v f Hne) as (m & _ & Hr).
  rewrite Hr in Hs. injection Hs as Hs'.
  assert (Hlen : length s = length v).
  { rewrite <- Hs'. destruct (is_zero m); apply length_map. }
  assert (Hsne : s <> []).
  { intros ->. destruct v; [contradiction | discriminate]. }
  destruct (calculate_diagram_offset_cases s f Hsne) as (m' & _ & Hr').
  rewrite Hr'. eexists. split; [reflexivity|].
  destruct (is_zero m'); apply length_map.
Qed.

(** ** The claims on concrete inputs *)

Ltac solve_resolves :=
  lazymatch goal with
  | |- resolves ?dl ?e =>
      let rd := eval vm_compute in (get_element_data dl e) in
      let rn := eval vm_compute in (get_element_nodes dl e) in
      lazymatch rd with
      | Ok ?d =>
          lazymatch rn with
          | Ok ?n =>
              let ri := eval vm_compute in (get_node_coords dl (node_i n)) in
              let rj := eval vm_compute in (get_node_coords dl (node_j n)) in
              lazymatch ri with
              | Ok ?ci =>
                  lazymatch rj with
                  | Ok ?cj =>
                      exists d, n, ci, cj; repeat split; vm_compute; reflexivity
                  end
              end
          end
      end
  end.

Ltac solve_measurable :=
  let n := fresh "n" in
  let ci := fresh "ci" in
  let cj := fresh "cj" in
  let Hn := fresh "Hn" in
  let Hi := fresh "Hi" in
  let Hj := fresh "Hj" in
  intros n ci cj Hn Hi Hj;
  vm_compute in Hn; inversion Hn; subst n;
  vm_compute in Hi; inversion Hi; subst ci;
  vm_compute in Hj; inversion Hj; subst cj;
  eexists; vm_compute; reflexivity.

(** C1, counterexample.  Every id of [[1]] resolves in [far_loader] and
    the force type is valid, yet no array is returned: squaring the
    coordinate difference 1e200 raises [OverflowError]. *)
Lemma extract_girder_forces_overflow :
  [1%Z] <> [] /\
  valid_force_type "Mz" /\
  Forall (resolves far_loader) [1%Z] /\
  outcome (extract_girder_forces far_loader [1%Z] "Mz") = Err OverflowError.
Proof.
  split; [discriminate|]. split; [left; reflexivity|].
  split; [|vm_compute; reflexivity].
  repeat constructor. solve_resolves.
Qed.

(** C1, witness: the three elements of the straight line. *)
Lemma extract_girder_forces_lengths_witness :
  exists ps vs,
    outcome (extract_girder_forces line_loader [1; 2; 3]%Z "Mz") = Ok (ps, vs) /\
    length ps = 4%nat /\ length vs = 4%nat /\ ps !! 0%nat = Some 0%float.
Proof.
  refine (extract_girder_forces_lengths line_loader [1; 2; 3]%Z "Mz" _ _ _ _).
  - discriminate.
  - left; reflexivity.
  - repeat apply Forall_cons_2; try apply Forall_nil_2; solve_resolves.
  - repeat apply Forall_cons_2; try apply Forall_nil_2; solve_measurable.
Defined.

(** C2, counterexample.  The empty element list does not fail: with force
    type "Mz" it returns [([0.0], [])], having called nothing. *)
Lemma extract_girder_forces_empty_returns :
  extract_girder_forces line_loader [] "Mz" = ([], Ok ([0%float], [])) /\
  outcome (extract_girder_forces line_loader [] "Mz") <> Err ValueError.
Proof. split; [vm_compute; reflexivity | vm_compute; discriminate]. Qed.

(** C3, witness: the force type "Fx". *)
Lemma extract_girder_forces_invalid_component_witness :
  extract_girder_forces line_loader [1; 2; 3]%Z "Fx" = ([], Err ValueError).
Proof.
  apply (extract_girder_forces_invalid_component line_loader [1; 2; 3]%Z "Fx");
    discriminate.
Defined.

(** C4, witness: the shear values of the straight line. *)
Lemma geometry_forces_agree_witness :
  exists g,
    outcome (get_girder_3d_geometry line_loader [1; 2; 3]%Z) = Ok g /\
    force_array g "Vy" = Ok [4; 4; -6; 0]%float.
Proof.
  apply (geometry_forces_agree line_loader [1; 2; 3]%Z "Vy"
           [0; 1; 2; 3]%float [4; 4; -6; 0]%float).
  vm_compute. reflexivity.
Defined.

(** C5, counterexample.  Both elements of [long_loader] have a length
    greater than zero (2^53 and 1), yet the positions returned are
    0, 2^53, 2^53: in binary64 the sum 2^53 + 1 is 2^53 again, so the
    positions are not strictly increasing.  And the positions need not be
    non-decreasing when a coordinate is not finite: every id of
    [infinite_loader] resolves and no length overflows, yet the positions
    are 0, inf, NaN, since the second element has the coordinate
    difference inf - inf. *)
Lemma positions_not_strictly_increasing :
  valid_force_type "Mz" /\
  Forall (resolves long_loader) [1; 2]%Z /\
  length_of long_loader 1 = Ok 9007199254740992%float /\
  length_of long_loader 2 = Ok 1%float /\
  float_lt 0 9007199254740992 /\ float_lt 0 1 /\
  outcome (extract_girder_forces long_loader [1; 2]%Z "Mz")
  = Ok ([0; 9007199254740992; 9007199254740992]%float, [0; 10; 0]%float) /\
  ~ adjacent float_lt [0; 9007199254740992; 9007199254740992]%float /\
  Forall (resolves infinite_loader) [1; 2]%Z /\
  Forall (measurable infinite_loader) [1; 2]%Z /\
  outcome (extract_girder_forces infinite_loader [1; 2]%Z "Mz")
  = Ok ([0; infinity; nan]%float, [0; 10; 0]%float) /\
  ~ adjacent float_le [0; infinity; nan]%float.
Proof.
  split; [left; reflexivity|].
  split; [repeat apply Forall_cons_2; try apply Forall_nil_2; solve_resolves|].
  repeat (split; [vm_compute; reflexivity|]).
  split.
  { intros Hadj.
    specialize (Hadj 1%nat 9007199254740992%float 9007199254740992%float
                  eq_refl eq_refl).
    vm_compute in Hadj. discriminate. }
  split; [repeat apply Forall_cons_2; try apply Forall_nil_2; solve_resolves|].
  split; [repeat apply Forall_cons_2; try apply Forall_nil_2; solve_measurable|].
  split; [vm_compute; reflexivity|].
  intros Hadj.
  specialize (Hadj 1%nat infinity nan eq_refl eq_refl).
  vm_compute in Hadj. discriminate.
Qed.

(** C5, witness: the straight line, in binary64. *)
Lemma positions_monotone_witness :
  exists ps vs,
    outcome (extract_girder_forces line_loader [1; 2; 3]%Z "Mz") = Ok (ps, vs) /\
    adjacent float_le ps.
Proof.
  refine (proj1 positions_monotone correctly_rounded line_loader [1; 2; 3]%Z
            "Mz" _ _ _ _ _).
  - exact pow2_nonneg_correctly_rounded.
  - intros id c Hc. cbn [nodes line_loader] in Hc.
    apply elem_of_list_to_map_2 in Hc.
    repeat (apply elem_of_cons in Hc; destruct Hc as [Hc|Hc];
            [inversion Hc; subst; repeat split; reflexivity|]).
    inversion Hc.
  - left; reflexivity.
  - repeat apply Forall_cons_2; try apply Forall_nil_2; solve_resolves.
  - repeat apply Forall_cons_2; try apply Forall_nil_2; solve_measurable.
Defined.

(** C6, counterexample.  On the empty sequence the scaler returns no
    sequence: [np.max] raises [ValueError].  (And the sign is not always
    kept: with factor 0 the entry 5 is scaled to 0, and with factor 0.3
    the smallest positive number 5e-324, next to the entry 1, is scaled
    to 0.) *)
Lemma calculate_diagram_offset_empty_raises :
  calculate_diagram_offset (@nil float) 0.3%float = Err ValueError /\
  calculate_diagram_offset [5%float] 0%float = Ok [0%float] /\
  calculate_diagram_offset [5e-324; 1]%float 0.3%float = Ok [0; 0.3]%float.
Proof. repeat split; vm_compute; reflexivity. Qed.

(** C6, witness: the sequence [-10, 5, 10] and the factor 0.3, in
    binary64. *)
Lemma calculate_diagram_offset_spec_witness :
  exists r,
    calculate_diagram_offset [-10; 5; 10]%float 0.3%float = Ok r /\
    length r = 3%nat /\
    forall (k : nat) (x y : float),
      [-10; 5; 10]%float !! k = Some x -> r !! k = Some y ->
      float_le (PrimFloat.abs y) 0.3 /\
      (float_le 0 x -> float_le 0 y) /\ (float_le x 0 -> float_le y 0).
Proof.
  refine (proj1 (proj2 calculate_diagram_offset_spec)
            [-10; 5; 10]%float 0.3%float _ _ _ _).
  - repeat apply Forall_cons_2; try apply Forall_nil_2; reflexivity.
  - reflexivity.
  - reflexivity.
  - discriminate.
Defined.

(** C7, counterexample.  Element 1 of [ragged_loader] is present in the
    loaded dataset and no alias of "Vy_j" is among its component names,
    yet the lookup fails: the element has two component names and one
    force value, and the [IndexError] of [forces[1]] is re-raised as
    [KeyError]. *)
Lemma get_element_data_missing_component_raises :
  (exists ds, dataset ragged_loader = Some ds /\
              ds !! 1%Z = Some {| Component := ["Mz_i"; "Mz_j"];
                                  forces := [5]%float |}) /\
  (forall k, k ∈ aliases "Vy_j" -> k ∉ ["Mz_i"; "Mz_j"]) /\
  get_element_data ragged_loader 1 = Err KeyError.
Proof.
  split; [eexists; split; [reflexivity | vm_compute; reflexivity]|].
  split; [|vm_compute; reflexivity].
  intros k Hk.
  change (aliases "Vy_j") with ["Vy_j"; "VY_J"; "SF_J"; "Vy"] in Hk.
  rewrite !elem_of_cons, elem_of_nil in Hk.
  rewrite !not_elem_of_cons.
  destruct Hk as [-> | [-> | [-> | [-> | []]]]];
    repeat split; (discriminate || apply not_elem_of_nil).
Qed.

(** C7, witness: element 3 of the straight line has no shear component. *)
Lemma get_element_data_missing_component_witness :
  exists d, get_element_data line_loader 3 = Ok d /\
            elem_getitem d "Vy_i" = Ok 0%float.
Proof.
  refine (get_element_data_missing_component line_loader _ 3%Z
            {| Component := ["Mz_i"; "Mz_j"]; forces := [-5; 0]%float |}
            "Vy_i" eq_refl _ _ _ _).
  - vm_compute. reflexivity.
  - cbn. lia.
  - set_solver.
  - intros k Hk.
    change (aliases "Vy_i") with ["Vy_i"; "VY_I"; "SF_I"; "Vy"] in Hk.
    cbn [Component].
    rewrite !elem_of_cons, elem_of_nil in Hk.
    rewrite !not_elem_of_cons.
    destruct Hk as [-> | [-> | [-> | [-> | []]]]];
      repeat split; (discriminate || apply not_elem_of_nil).
Defined.

(** C8, counterexample.  Before the dataset is loaded the element 5,
    which the connectivity table does not hold, does not raise the
    NotFound error: the first lookup of the extraction raises
    [RuntimeError]. *)
Lemma extract_girder_forces_unknown_id_before_load :
  unknown_id unloaded_loader 5 /\
  outcome (extract_girder_forces unloaded_loader [] "Mz")
  = Ok ([0%float], []) /\
  outcome (extract_girder_forces unloaded_loader ([] ++ 5 :: [1])%Z "Mz")
  = Err RuntimeError.
Proof.
  split; [right; left; vm_compute; reflexivity|].
  split; vm_compute; reflexivity.
Qed.

(** C8, witness: element 5 is unknown; elements 1 and 2 before it are
    extracted without error. *)
Lemma extract_girder_forces_unknown_id_witness :
  outcome (extract_girder_forces line_loader ([1; 2] ++ 5 :: [3])%Z "Mz")
  = Err KeyError.
Proof.
  refine (extract_girder_forces_unknown_id line_loader _ [1; 2]%Z [3%Z] 5%Z
            "Mz" ([0; 1; 2]%float, [0; 10; -5]%float) eq_refl _ _).
  - vm_compute. reflexivity.
  - right; left. vm_compute. reflexivity.
Defined.

(** C9, counterexample.  In binary64, scaling [10, 37] by 3.7 gives
    [1.0, 3.7], and scaling that again by 3.7 gives
    [0.9999999999999999, 3.7]: 1.0 / 3.7 * 3.7 is rounded twice. *)
Lemma calculate_diagram_offset_not_idempotent :
  calculate_diagram_offset [10; 37]%float 3.7%float = Ok [1; 3.7]%float /\
  calculate_diagram_offset [1; 3.7]%float 3.7%float
  = Ok [0.9999999999999999; 3.7]%float /\
  PrimFloat.eqb 0.9999999999999999 1 = false /\
  rbind (calculate_diagram_offset [10; 37]%float 3.7%float)
        (fun s => calculate_diagram_offset s 3.7%float)
  <> calculate_diagram_offset [10; 37]%float 3.7%float.
Proof.
  split; [vm_compute; reflexivity|].
  split; [vm_compute; reflexivity|].
  split; [vm_compute; reflexivity|].
  intros Heq. vm_compute in Heq.
  assert (Hx : PrimFloat.eqb 0.9999999999999999 1 = PrimFloat.eqb 1 1).
  { f_equal. congruence. }
  vm_compute in Hx. discriminate.
Qed.

(** C9, witness: the sequence [-10, 5, 10] and the factor 3/10, exactly. *)
Lemma calculate_diagram_offset_idempotent_witness :
  rbind (calculate_diagram_offset [-10; 5; 10]%R (3 / 10)%R)
        (fun s => calculate_diagram_offset s (3 / 10)%R)
  = calculate_diagram_offset [-10; 5; 10]%R (3 / 10)%R.
Proof.
  refine (proj2 calculate_diagram_offset_idempotent
            [-10; 5; 10]%R (3 / 10)%R _).
  lra.
Defined.

(** * Further properties *)

(** ** The call log *)

Lemma calls_perform {A : Type} (c : call) (r : result A) :
  calls (perform c r) = [c].
Proof. reflexivity. Qed.

Lemma calls_lift {A : Type} (r : result A) : calls (lift r) = [].
Proof. reflexivity. Qed.

(** ** Stations and values of the station extractor *)

Section Extractors.
Context {num : Type} `{Arith num}.
Variable data_loader : DataLoader num.

Lemma extract_girder_forces_Ok_valid l force_type (w : list num * list num) :
  outcome (extract_girder_forces data_loader l force_type) = Ok w ->
  valid_force_type force_type.
Proof.
  intros Hout. apply valid_force_type_elem_of.
  unfold extract_girder_forces in Hout.
  destruct (decide (force_type ∈ ["Mz"; "Vy"])) as [Hin|Hnot];
    [exact Hin | discriminate].
Qed.

Lemma extract_girder_forces_closed_form l force_type ps vs :
  outcome (extract_girder_forces data_loader l force_type) = Ok (ps, vs) ->
  exists vws lens,
    Forall2 (views data_loader) l vws /\
    Forall2 (fun v len => elem_length (view_i v) (view_j v) = Ok len) vws lens /\
    ps = zero :: running zero lens /\
    vs = stations (fun v => end_i force_type (view_data v))
                  (fun v => end_j force_type (view_data v)) vws.
Proof.
  intros Hout. pose proof (extract_girder_forces_Ok_valid _ _ _ Hout) as Hft.
  rewrite (outcome_extract_girder_forces _ _ _ Hft) in Hout.
  apply rbind_Ok_inv in Hout. destruct Hout as (st' & Hloop & Hw).
  injection Hw as <- <-.
  apply (extract_loop_closed_form _ _ _ _ _ _ Hft) in Hloop.
  destruct Hloop as (vws & lens & Hvws & Hlens & Hp & Hv).
  exists vws, lens. auto.
Qed.

(** X1. The stations are the running sums of the element lengths. *)
Theorem extract_girder_forces_positions_running (l : list Z)
    (force_type : string) (ps vs : list num) :
  outcome (extract_girder_forces data_loader l force_type) = Ok (ps, vs) ->
  exists lens,
    Forall2 (fun e len => length_of data_loader e = Ok len) l lens /\
    ps = zero :: running zero lens.
Proof.
  intros Hout. apply extract_girder_forces_closed_form in Hout.
  destruct Hout as (vws & lens & Hvws & Hlens & -> & _).
  exists lens. split; [|reflexivity].
  clear -Hvws Hlens. revert lens Hlens.
  induction Hvws as [|e v l vws Hv _ IH]; intros lens Hlens;
    inversion Hlens; subst; constructor.
  - rewrite (views_length_of _ _ _ Hv). assumption.
  - apply IH. assumption.
Qed.

(** X2. The values are the i end of the first element, then the j end of
    every element. *)
Theorem extract_girder_forces_values_ends (l : list Z) (force_type : string)
    (ps vs : list num) :
  outcome (extract_girder_forces data_loader l force_type) = Ok (ps, vs) ->
  exists ds,
    Forall2 (fun e d => get_element_data data_loader e = Ok d) l ds /\
    vs = match ds with
         | [] => []
         | d0 :: _ => end_i force_type d0 :: map (end_j force_type) ds
         end.
Proof.
  intros Hout. apply extract_girder_forces_closed_form in Hout.
  destruct Hout as (vws & lens & Hvws & _ & _ & ->).
  exists (map view_data vws). split.
  - clear -Hvws. induction Hvws as [|e v l vws Hv _ IH]; constructor.
    + apply Hv.
    + exact IH.
  - destruct vws as [|v0 vws]; [reflexivity|].
    cbn [stations map]. rewrite map_map. reflexivity.
Qed.

Lemma extract_loop_extends force_type l : forall i st st',
  outcome (extract_loop data_loader force_type i l st) = Ok st' ->
  exists ps vs, positions st' = positions st ++ ps /\
                values st' = values st ++ vs.
Proof.
  induction l as [|e l IH]; intros i st st' Hout.
  - rewrite outcome_extract_loop_nil in Hout. injection Hout as <-.
    exists [], []. rewrite !app_nil_r. auto.
  - rewrite outcome_extract_loop_cons in Hout.
    apply rbind_Ok_inv in Hout. destruct Hout as (st1 & Hstep & Hout).
    apply extract_step_inv in Hstep.
    destruct Hstep as (len & v_i & v_j & _ & ->).
    apply IH in Hout. destruct Hout as (ps & vs & Hp & Hv).
    cbn [positions values] in Hp, Hv. rewrite Hp, Hv.
    destruct (Nat.eqb i 0); rewrite <- !app_assoc; eauto.
Qed.

(** X3. The stations of a leading part of a girder are the leading part
    of the girder's stations. *)
Theorem extract_girder_forces_prefix (l1 l2 : list Z) (force_type : string)
    (ps vs : list num) :
  l1 <> [] ->
  outcome (extract_girder_forces data_loader (l1 ++ l2) force_type)
  = Ok (ps, vs) ->
  outcome (extract_girder_forces data_loader l1 force_type)
  = Ok (take (S (length l1)) ps, take (S (length l1)) vs).
Proof.
  intros Hne Hout. pose proof (extract_girder_forces_Ok_valid _ _ _ Hout) as Hft.
  rewrite (outcome_extract_girder_forces _ _ _ Hft) in Hout.
  rewrite (outcome_extract_girder_forces _ _ _ Hft).
  rewrite extract_loop_app in Hout.
  apply rbind_Ok_inv in Hout. destruct Hout as (st' & Hloop & Hw).
  injection Hw as <- <-.
  apply rbind_Ok_inv in Hloop. destruct Hloop as (st1 & Hl1 & Hl2).
  rewrite Hl1. cbn [rbind].
  destruct (extract_loop_ok_lengths _ _ _ _ _ _ Hl1) as [Hlp Hlv].
  destruct (extract_loop_extends _ _ _ _ _ Hl2) as (ps2 & vs2 & Hp & Hv).
  cbn [start positions values length] in Hlp, Hlv.
  assert (length (values st1) = S (length l1)) as Hlv'.
  { destruct l1; [contradiction|]. cbn in Hlv |- *. lia. }
  rewrite Hp, Hv, !take_app_length' by lia. reflexivity.
Qed.

End Extractors.

(** ** The lookups of an extraction *)

Section Lookups.
Context {num : Type} `{Arith num}.
Variable data_loader : DataLoader num.

Lemma calls_extract_loop_cons force_type i e rest st :
  calls (extract_loop data_loader force_type i (e :: rest) st) =
  element_calls data_loader e ++
  match extract_step data_loader force_type i e st with
  | Ok st1 => calls (extract_loop data_loader force_type (S i) rest st1)
  | Err _ => []
  end.
Proof.
  cbn [extract_loop]. unfold element_calls, extract_step.
  rewrite calls_bind, calls_perform, outcome_perform.
  destruct (get_element_data data_loader e) as [d|]; cbn [rbind app];
    [|reflexivity].
  rewrite calls_bind, calls_perform, outcome_perform.
  destruct (get_element_nodes data_loader e) as [n|]; cbn [rbind app];
    [|reflexivity].
  rewrite calls_bind, calls_perform, outcome_perform.
  destruct (get_node_coords data_loader (node_i n)) as [ci|]; cbn [rbind app];
    [|reflexivity].
  rewrite calls_bind, calls_perform, outcome_perform.
  destruct (get_node_coords data_loader (node_j n)) as [cj|]; cbn [rbind app];
    [|reflexivity].
  rewrite calls_bind, calls_lift, outcome_lift.
  destruct (elem_length ci cj) as [len|]; cbn [rbind app]; [|reflexivity].
  rewrite calls_bind, calls_lift, outcome_lift.
  destruct (if Nat.eqb i 0
            then rbind (elem_getitem d (String.append force_type "_i"))
                       (fun v => Ok (values st ++ [v]))
            else Ok (values st)) as [values1|]; cbn [rbind app];
    [|reflexivity].
  rewrite calls_bind, calls_lift, outcome_lift.
  destruct (elem_getitem d (String.append force_type "_j")) as [v_j|];
    cbn [rbind app]; reflexivity.
Qed.


Lemma calls_extract_loop_Ok force_type l : forall i st st',
  outcome (extract_loop data_loader force_type i l st) = Ok st' ->
  calls (extract_loop data_loader force_type i l st) =
  concat (map (element_calls data_loader) l).
Proof.
  induction l as [|e l IH]; intros i st st' Hout; [reflexivity|].
  rewrite calls_extract_loop_cons. rewrite outcome_extract_loop_cons in Hout.
  apply rbind_Ok_inv in Hout. destruct Hout as (st1 & Hstep & Hout).
  rewrite Hstep. cbn [map concat]. f_equal. eapply IH; eassumption.
Qed.


Lemma calls_extract_girder_forces l force_type :
  valid_force_type force_type ->
  calls (extract_girder_forces data_loader l force_type) =
  calls (extract_loop data_loader force_type 0 l start).
Proof.
  intros Hft. unfold extract_girder_forces.
  destruct (decide (force_type ∈ ["Mz"; "Vy"])) as [Hin|Hnot].
  - rewrite calls_bind. fold (@start num _).
    destruct (outcome (extract_loop data_loader force_type 0 l start));
      cbn; rewrite app_nil_r; reflexivity.
  - exfalso. apply Hnot. apply valid_force_type_elem_of. exact Hft.
Qed.

Lemma element_calls_resolves e :
  resolves data_loader e ->
  exists n, get_element_nodes data_loader e = Ok n /\
    element_calls data_loader e =
      [GetElementData e; GetElementNodes e;
       GetNodeCoords (node_i n); GetNodeCoords (node_j n)].
Proof.
  intros (d & n & ci & cj & Hd & Hn & Hi & Hj). exists n.
  split; [exact Hn|]. unfold element_calls. rewrite Hd, Hn, Hi. reflexivity.
Qed.

(** X4. A successful extraction looks up, for each element in turn, its
    forces, its two nodes and their coordinates, and nothing else. *)
Theorem extract_girder_forces_calls (l : list Z) (force_type : string)
    (w : list num * list num) :
  outcome (extract_girder_forces data_loader l force_type) = Ok w ->
  calls (extract_girder_forces data_loader l force_type) =
    concat (map (element_calls data_loader) l) /\
  Forall (fun e => exists n,
            get_element_nodes data_loader e = Ok n /\
            element_calls data_loader e =
              [GetElementData e; GetElementNodes e;
               GetNodeCoords (node_i n); GetNodeCoords (node_j n)]) l.
Proof.
  intros Hout. pose proof (extract_girder_forces_Ok_valid _ _ _ _ Hout) as Hft.
  rewrite (calls_extract_girder_forces _ _ Hft).
  destruct w as [ps vs].
  destruct (extract_girder_forces_closed_form _ _ _ _ _ Hout)
    as (vws & _ & Hvws & _).
  rewrite (outcome_extract_girder_forces _ _ _ Hft) in Hout.
  apply rbind_Ok_inv in Hout. destruct Hout as (st' & Hloop & _).
  split; [eapply calls_extract_loop_Ok; eassumption|].
  clear -Hvws. induction Hvws as [|e v l vws Hv _ IH]; constructor.
  - apply element_calls_resolves. eapply views_resolves. exact Hv.
  - exact IH.
Qed.

Lemma extract_step_force_type i e (st1 st2 : walk num) :
  positions st1 = positions st2 ->
  current_position st1 = current_position st2 ->
  match extract_step data_loader "Mz" i e st1,
        extract_step data_loader "Vy" i e st2 with
  | Ok a, Ok b => positions a = positions b /\
                  current_position a = current_position b
  | Err x, Err y => x = y
  | _, _ => False
  end.
Proof.
  intros Hp Hc. unfold extract_step.
  destruct (get_element_data data_loader e) as [d|]; cbn [rbind];
    [|reflexivity].
  destruct (get_element_nodes data_loader e) as [n|]; cbn [rbind];
    [|reflexivity].
  destruct (get_node_coords data_loader (node_i n)) as [ci|]; cbn [rbind];
    [|reflexivity].
  destruct (get_node_coords data_loader (node_j n)) as [cj|]; cbn [rbind];
    [|reflexivity].
  destruct (elem_length ci cj) as [len|]; cbn [rbind]; [|reflexivity].
  rewrite !elem_getitem_i, !elem_getitem_j
    by (first [left; reflexivity | right; reflexivity]).
  destruct (Nat.eqb i 0); cbn [rbind positions current_position];
    rewrite Hp, Hc; auto.
Qed.

Lemma extract_loop_force_type l : forall i (st1 st2 : walk num),
  positions st1 = positions st2 ->
  current_position st1 = current_position st2 ->
  rmap positions (outcome (extract_loop data_loader "Mz" i l st1)) =
  rmap positions (outcome (extract_loop data_loader "Vy" i l st2)) /\
  calls (extract_loop data_loader "Mz" i l st1) =
  calls (extract_loop data_loader "Vy" i l st2).
Proof.
  induction l as [|e l IH]; intros i st1 st2 Hp Hc.
  - rewrite !outcome_extract_loop_nil. cbn. rewrite Hp. auto.
  - rewrite !outcome_extract_loop_cons, !calls_extract_loop_cons.
    pose proof (extract_step_force_type i e st1 st2 Hp Hc) as Hstep.
    destruct (extract_step data_loader "Mz" i e st1) as [a|x],
             (extract_step data_loader "Vy" i e st2) as [b|y];
      cbn [rbind]; try contradiction.
    + destruct Hstep as [Hp' Hc'].
      destruct (IH (S i) a b Hp' Hc') as [Ho Hcalls].
      split; [exact Ho | f_equal; exact Hcalls].
    + subst y. auto.
Qed.

(** X5. The stations do not depend on the force component: extracting
    moments and extracting shears give the same positions, or fail with
    the same exception, after the same lookups. *)
Theorem extract_girder_forces_positions_component (l : list Z) :
  rmap fst (outcome (extract_girder_forces data_loader l "Mz")) =
  rmap fst (outcome (extract_girder_forces data_loader l "Vy")) /\
  calls (extract_girder_forces data_loader l "Mz") =
  calls (extract_girder_forces data_loader l "Vy").
Proof.
  assert (valid_force_type "Mz") as Hmz by (left; reflexivity).
  assert (valid_force_type "Vy") as Hvy by (right; reflexivity).
  rewrite !outcome_extract_girder_forces, !calls_extract_girder_forces
    by assumption.
  destruct (extract_loop_force_type l 0 start start eq_refl eq_refl)
    as [Ho Hcalls].
  split; [|exact Hcalls].
  destruct (outcome (extract_loop data_loader "Mz" 0 l start)) as [a|x],
           (outcome (extract_loop data_loader "Vy" 0 l start)) as [b|y];
    cbn in Ho |- *; congruence.
Qed.

End Lookups.

(** ** When the extractors return *)

Section Returns.
Context {num : Type} `{Arith num}.
Variable data_loader : DataLoader num.

(** X6. The station extractor returns exactly when the component is
    valid, every lookup succeeds and no length overflows. *)
Theorem extract_girder_forces_returns_iff (l : list Z) (force_type : string) :
  (exists w, outcome (extract_girder_forces data_loader l force_type) = Ok w)
  <->
  valid_force_type force_type /\
  Forall (resolves data_loader) l /\
  Forall (measurable data_loader) l.
Proof.
  split.
  - intros ([ps vs] & Hout).
    pose proof (extract_girder_forces_Ok_valid _ _ _ _ Hout) as Hft.
    split; [exact Hft|].
    destruct (extract_girder_forces_closed_form _ _ _ _ _ Hout)
      as (vws & lens & Hvws & Hlens & _).
    clear Hout. revert lens Hlens.
    induction Hvws as [|e v l vws Hv _ IH]; intros lens Hlens.
    + split; constructor.
    + inversion Hlens as [|v' len vws' lens' Hlen Hrest]; subst.
      destruct (IH _ Hrest) as [Hres Hmeas].
      split; constructor; try assumption.
      * eapply views_resolves. exact Hv.
      * intros n ci cj Hn Hi Hj.
        destruct Hv as (_ & n' & Hn' & Hi' & Hj').
        assert (n' = n) by congruence. subst n'.
        exists len. congruence.
  - intros (Hft & Hres & Hmeas).
    rewrite (outcome_extract_girder_forces _ _ _ Hft).
    destruct (extract_loop_lengths data_loader force_type l 0 start
                Hft Hres Hmeas) as (st' & _ & _ & Hout & _).
    rewrite Hout. cbn [rbind]. eauto.
Qed.

(** X7. The 3D extractor returns exactly when every lookup succeeds: it
    does no arithmetic, so it returns on every girder the station
    extractor returns on. *)
Theorem get_girder_3d_geometry_returns_iff (l : list Z) :
  (exists g, outcome (get_girder_3d_geometry data_loader l) = Ok g)
  <-> Forall (resolves data_loader) l.
Proof.
  unfold get_girder_3d_geometry. split.
  - intros (g & Hout). apply geometry_loop_closed_form in Hout.
    destruct Hout as (vws & Hvws & _).
    induction Hvws as [|e v l vws Hv _ IH]; constructor.
    + eapply views_resolves. exact Hv.
    + exact IH.
  - intros Hres. apply geometry_loop_returns. exact Hres.
Qed.

(** X8. The five arrays of the 3D extractor have one length: nothing for
    an empty girder, one entry more than the elements otherwise. *)
Theorem get_girder_3d_geometry_lengths (l : list Z) (g : geometry num) :
  outcome (get_girder_3d_geometry data_loader l) = Ok g ->
  let n := match l with [] => 0%nat | _ :: _ => S (length l) end in
  length (geom_x g) = n /\ length (geom_y g) = n /\ length (geom_z g) = n /\
  length (geom_Mz g) = n /\ length (geom_Vy g) = n.
Proof. apply geometry_lengths. Qed.

(** X9. The 3D polyline starts at the i node of the first element and
    then visits the j node of every element; the force arrays start with
    the i end of the first element and continue with the j ends. *)
Theorem get_girder_3d_geometry_stations (l : list Z) (g : geometry num) :
  outcome (get_girder_3d_geometry data_loader l) = Ok g ->
  exists vws,
    Forall2 (views data_loader) l vws /\
    geom_x g = stations (fun v => coord_x (view_i v))
                        (fun v => coord_x (view_j v)) vws /\
    geom_y g = stations (fun v => coord_y (view_i v))
                        (fun v => coord_y (view_j v)) vws /\
    geom_z g = stations (fun v => coord_z (view_i v))
                        (fun v => coord_z (view_j v)) vws /\
    geom_Mz g = stations (fun v => Mz_i (view_data v))
                         (fun v => Mz_j (view_data v)) vws /\
    geom_Vy g = stations (fun v => Vy_i (view_data v))
                         (fun v => Vy_j (view_data v)) vws.
Proof.
  intros Hout. unfold get_girder_3d_geometry in Hout.
  apply geometry_loop_closed_form in Hout.
  destruct Hout as (vws & Hvws & Hx & Hy & Hz & Hm & Hv).
  exists vws. split; [exact Hvws|]. auto.
Qed.

(** X10. Before the dataset is loaded, both extractors fail on the first
    lookup of a non-empty girder with a RuntimeError. *)
Theorem extractors_before_load (e : Z) (l : list Z) (force_type : string) :
  dataset data_loader = None ->
  valid_force_type force_type ->
  extract_girder_forces data_loader (e :: l) force_type
    = ([GetElementData e], Err RuntimeError) /\
  get_girder_3d_geometry data_loader (e :: l)
    = ([GetElementData e], Err RuntimeError).
Proof.
  intros Hds Hft.
  assert (get_element_data data_loader e = Err RuntimeError) as Hd.
  { unfold get_element_data. rewrite Hds. reflexivity. }
  split.
  - unfold extract_girder_forces.
    destruct (decide (force_type ∈ ["Mz"; "Vy"])) as [Hin|Hnot].
    + cbn [extract_loop]. rewrite Hd. reflexivity.
    + exfalso. apply Hnot. apply valid_force_type_elem_of. exact Hft.
  - unfold get_girder_3d_geometry. cbn [geometry_loop]. rewrite Hd.
    reflexivity.
Qed.

End Returns.

(** ** The forces of an element *)

Section ElementData.
Context {num : Type} `{Arith num}.
Variable data_loader : DataLoader num.

Lemma build_comp_map_None components : forall (fs : list num) comp_map,
  build_comp_map components fs comp_map = None <->
  length fs < length components.
Proof.
  induction components as [|c components IH]; intros fs comp_map;
    cbn [build_comp_map length].
  - split; [discriminate | lia].
  - destruct fs as [|f fs]; cbn [length].
    + split; [lia | reflexivity].
    + rewrite IH. lia.
Qed.

Lemma build_comp_map_notin components : forall (fs : list num) comp_map m k,
  build_comp_map components fs comp_map = Some m ->
  k ∉ components -> m !! k = comp_map !! k.
Proof.
  induction components as [|c components IH]; intros fs comp_map m k Hb Hk;
    cbn [build_comp_map] in Hb.
  - congruence.
  - destruct fs as [|f fs]; [discriminate|].
    apply not_elem_of_cons in Hk. destruct Hk as [Hkc Hk].
    rewrite (IH _ _ _ _ Hb Hk). apply lookup_insert_ne. congruence.
Qed.

Lemma build_comp_map_last pre : forall post (fs : list num) comp_map m k,
  build_comp_map (pre ++ k :: post) fs comp_map = Some m ->
  k ∉ post -> m !! k = fs !! length pre.
Proof.
  induction pre as [|c pre IH]; intros post fs comp_map m k Hb Hk;
    cbn [app build_comp_map length] in Hb |- *.
  - destruct fs as [|f fs]; [discriminate|].
    rewrite (build_comp_map_notin _ _ _ _ _ Hb Hk).
    cbn. apply lookup_insert_eq.
  - destruct fs as [|f fs]; [discriminate|].
    cbn [lookup]. eapply IH; eassumption.
Qed.

Lemma find_first (comp_map : gmap string num) k keys v :
  comp_map !! k = Some v -> find comp_map (k :: keys) = v.
Proof. intros Hk. cbn [find]. rewrite Hk. reflexivity. Qed.

Lemma elem_getitem_canonical (m : gmap string num) key :
  key ∈ ["Mz_i"; "Mz_j"; "Vy_i"; "Vy_j"] ->
  exists rest,
    elem_getitem {| Mz_i := find m (aliases "Mz_i");
                    Mz_j := find m (aliases "Mz_j");
                    Vy_i := find m (aliases "Vy_i");
                    Vy_j := find m (aliases "Vy_j") |} key
    = Ok (find m (key :: rest)).
Proof.
  intros Hkey. rewrite !elem_of_cons, elem_of_nil in Hkey.
  destruct Hkey as [->|[->|[->|[->|[]]]]]; eexists; reflexivity.
Qed.

(** X11. A component stored under the canonical name of a key is what
    the key returns, whatever other aliases the element carries; of
    several components of that name the last one counts. *)
Theorem get_element_data_canonical_name (ds : gmap Z (row num)) (e : Z)
    (elem : row num) (key : string) (pre post : list string) (f : num) :
  dataset data_loader = Some ds ->
  ds !! e = Some elem ->
  key ∈ ["Mz_i"; "Mz_j"; "Vy_i"; "Vy_j"] ->
  Component elem = pre ++ key :: post ->
  key ∉ post ->
  length (Component elem) <= length (forces elem) ->
  forces elem !! length pre = Some f ->
  exists d, get_element_data data_loader e = Ok d /\
            elem_getitem d key = Ok f.
Proof.
  intros Hds He Hkey Hcomp Hpost Hlen Hf.
  unfold get_element_data. rewrite Hds, He.
  destruct (build_comp_map (Component elem) (forces elem) ∅) as [m|] eqn:Hb.
  - eexists. split; [reflexivity|].
    rewrite Hcomp in Hb.
    pose proof (build_comp_map_last _ _ _ _ _ _ Hb Hpost) as Hm.
    rewrite Hf in Hm.
    destruct (elem_getitem_canonical m key Hkey) as (rest & ->).
    f_equal. apply find_first, Hm.
  - apply build_comp_map_None in Hb. lia.
Qed.

(** X12. An element that carries only the generic component name, and no
    name of either end, has the same value at both ends. *)
Theorem get_element_data_generic_name (ds : gmap Z (row num)) (e : Z)
    (elem : row num) (force_type : string) (d : elem_data num) :
  dataset data_loader = Some ds ->
  ds !! e = Some elem ->
  valid_force_type force_type ->
  (forall k, k ∈ aliases (String.append force_type "_i")
                   ++ aliases (String.append force_type "_j") ->
             k <> force_type -> k ∉ Component elem) ->
  get_element_data data_loader e = Ok d ->
  end_i force_type d = end_j force_type d.
Proof.
  intros Hds He Hft Hnone Hd. unfold get_element_data in Hd.
  rewrite Hds, He in Hd.
  destruct (build_comp_map (Component elem) (forces elem) ∅) as [m|] eqn:Hb;
    [|discriminate].
  injection Hd as <-.
  assert (forall k, k ∈ aliases (String.append force_type "_i")
                          ++ aliases (String.append force_type "_j") ->
                    k <> force_type -> m !! k = None) as Hm.
  { intros k Hk Hne.
    rewrite (build_comp_map_notin _ _ _ _ _ Hb (Hnone k Hk Hne)).
    apply lookup_empty. }
  assert (forall k, bool_decide
            (k ∈ aliases (String.append force_type "_i")
                   ++ aliases (String.append force_type "_j")) = true ->
          bool_decide (k = force_type) = false -> m !! k = None) as Hm'.
  { intros k Hk Hne. apply Hm.
    - apply bool_decide_eq_true in Hk. exact Hk.
    - apply bool_decide_eq_false in Hne. exact Hne. }
  destruct Hft as [-> | ->].
  - change (find m ["Mz_i"; "MZ_I"; "MZ_I_END"; "BM_I"; "Mz"] =
            find m ["Mz_j"; "MZ_J"; "MZ_J_END"; "BM_J"; "Mz"]).
    cbn [find].
    rewrite (Hm' "Mz_i"), (Hm' "MZ_I"), (Hm' "MZ_I_END"), (Hm' "BM_I"),
      (Hm' "Mz_j"), (Hm' "MZ_J"), (Hm' "MZ_J_END"), (Hm' "BM_J")
      by reflexivity.
    reflexivity.
  - change (find m ["Vy_i"; "VY_I"; "SF_I"; "Vy"] =
            find m ["Vy_j"; "VY_J"; "SF_J"; "Vy"]).
    cbn [find].
    rewrite (Hm' "Vy_i"), (Hm' "VY_I"), (Hm' "SF_I"),
      (Hm' "Vy_j"), (Hm' "VY_J"), (Hm' "SF_J") by reflexivity.
    reflexivity.
Qed.

(** X13. The lookup of an element's forces returns exactly when the
    dataset is loaded, holds the element, and gives it at least as many
    force values as component names. *)
Theorem get_element_data_returns_iff (e : Z) :
  (exists d, get_element_data data_loader e = Ok d) <->
  exists ds elem,
    dataset data_loader = Some ds /\ ds !! e = Some elem /\
    length (Component elem) <= length (forces elem).
Proof.
  unfold get_element_data. split.
  - intros (d & Hd).
    destruct (dataset data_loader) as [ds|]; [|discriminate].
    destruct (ds !! e) as [elem|] eqn:He; [|discriminate].
    destruct (build_comp_map (Component elem) (forces elem) ∅) eqn:Hb;
      [|discriminate].
    exists ds, elem. split; [reflexivity|]. split; [exact He|].
    destruct (le_lt_dec (length (Component elem)) (length (forces elem)))
      as [Hle|Hlt]; [exact Hle|].
    apply (build_comp_map_None _ _ ∅) in Hlt. congruence.
  - intros (ds & elem & -> & -> & Hlen).
    destruct (build_comp_map (Component elem) (forces elem) ∅) eqn:Hb.
    + eauto.
    + apply build_comp_map_None in Hb. lia.
Qed.

End ElementData.

(** ** The greatest offset *)

Section Peak.

Lemma fold_maximum_in_binary64 (l : list float) : forall a,
  fold_left maximum l a ∈ a :: l.
Proof.
  induction l as [|b l IH]; intros a; cbn [fold_left].
  - apply list_elem_of_here.
  - specialize (IH (maximum a b)). cbn [maximum binary64] in IH |- *.
    destruct (PrimFloat.leb b a || is_nan a).
    + apply elem_of_cons in IH. destruct IH as [-> | IH].
      * apply list_elem_of_here.
      * apply list_elem_of_further, list_elem_of_further, IH.
    + apply list_elem_of_further, IH.
Qed.

Lemma SFeqb_abs_scaled (sx : bool) (F : spec_float) :
  valid_binary F = true -> finite_nonneg_sf F ->
  SFeqb (SFabs (SF64mul (S754_finite sx one_m one_e) F)) F = true.
Proof.
  intros Hv HF. destruct F as [s|s| |[|] mf ef]; try contradiction.
  - destruct sx, s; reflexivity.
  - apply valid_finite in Hv. destruct Hv as [_ Hb].
    rewrite (SFmul_one sx mf ef Hb). unfold SFeqb. cbn [SFabs SFcompare].
    rewrite Z.compare_refl, Pos.compare_cont_refl. reflexivity.
Qed.

(** X14. Unless all forces are zero, a force of greatest magnitude is
    drawn at exactly the scale factor. *)
Theorem calculate_diagram_offset_peak (v : list float) (f : float) (x0 : float) :
  Forall (fun x => is_finite x = true) v ->
  is_finite f = true -> float_le 0 f ->
  x0 ∈ v -> PrimFloat.eqb x0 0 = false ->
  exists r k x y,
    calculate_diagram_offset v f = Ok r /\
    v !! k = Some x /\ r !! k = Some y /\
    Forall (fun x' => float_le (PrimFloat.abs x') (PrimFloat.abs x)) v /\
    PrimFloat.eqb (PrimFloat.abs y) f = true.
Proof.
  intros Hv Hf Hf0 Hx0 Hnz.
  assert (v <> []) as Hne by (intros ->; inversion Hx0).
  destruct (calculate_diagram_offset_cases v f Hne) as (m & Hm & Hr).
  destruct (np_max_abs_binary64 v m Hv Hm) as [Hmnn Hub].
  (* the greatest magnitude is the magnitude of an entry *)
  assert (exists k x, v !! k = Some x /\ m = PrimFloat.abs x) as (k & x & Hk & Hmx).
  { destruct v as [|a v]; [contradiction|].
    cbn [map np_max] in Hm.
    assert (fold_left maximum (map absolute v) (absolute a) = m) as Hm'
      by congruence.
    pose proof (fold_maximum_in_binary64 (map absolute v) (absolute a)) as Hin.
    rewrite Hm' in Hin. change (absolute a :: map absolute v)
      with (map absolute (a :: v)) in Hin.
    apply list_elem_of_fmap in Hin. destruct Hin as (x & -> & Hin).
    apply list_elem_of_lookup in Hin. destruct Hin as (k & Hk).
    exists k, x. split; [exact Hk | reflexivity]. }
  (* it is not zero *)
  assert (exists sx mx ex, Prim2SF x = S754_finite sx mx ex) as (sx & mx & ex & HX).
  { assert (is_finite x = true) as Hxfin.
    { eapply Forall_forall in Hv; [exact Hv|]. eapply list_elem_of_lookup_2, Hk. }
    assert (is_finite x0 = true) as Hx0fin.
    { eapply Forall_forall in Hv; [exact Hv | exact Hx0]. }
    assert (float_le (PrimFloat.abs x0) m) as Hle.
    { eapply Forall_forall in Hub; [exact Hub | exact Hx0]. }
    apply is_finite_sf in Hxfin, Hx0fin.
    unfold float_le in Hle. subst m.
    rewrite FloatAxioms.leb_spec, !FloatAxioms.abs_spec in Hle.
    rewrite FloatAxioms.eqb_spec in Hnz.
    change (Prim2SF 0) with (S754_zero false) in Hnz.
    destruct (Prim2SF x) as [s|s| |s mx ex]; try contradiction; [|eauto].
    destruct (Prim2SF x0) as [s0|s0| |s0 m0 e0]; try contradiction;
      discriminate. }
  assert (is_zero m = false) as Hz.
  { subst m. cbn [is_zero binary64].
    rewrite FloatAxioms.eqb_spec, FloatAxioms.abs_spec, HX. reflexivity. }
  rewrite Hz in Hr.
  exists (map (fun v0 => mul (div v0 m) f) v), k, x, (mul (div x m) f).
  split; [exact Hr|]. split; [exact Hk|].
  split; [rewrite list_lookup_fmap, Hk; reflexivity|].
  split; [subst m; exact Hub|].
  cbn [mul div binary64].
  rewrite FloatAxioms.eqb_spec, FloatAxioms.abs_spec, FloatAxioms.mul_spec,
    FloatAxioms.div_spec.
  rewrite Hmx, FloatAxioms.abs_spec, HX. cbn [SFabs].
  rewrite SFdiv_same.
  apply SFeqb_abs_scaled; [apply Prim2SF_valid|].
  apply is_finite_sf in Hf. apply float_le_zero in Hf0.
  destruct (Prim2SF f) as [s|s| |[|] mf ef]; try contradiction; exact I.
Qed.

End Peak.

(** ** The unit of the forces *)

Section Units.
Local Open Scope R_scope.

Lemma maximum_scale (c a b : R) :
  0 < c -> maximum (c * a) (c * b) = c * maximum a b.
Proof.
  intros Hc. cbn [maximum exact].
  destruct (Rle_dec (c * b) (c * a)) as [H1|H1],
           (Rle_dec b a) as [H2|H2]; try reflexivity; exfalso.
  - apply H2. eapply Rmult_le_reg_l; eassumption.
  - apply H1. apply Rmult_le_compat_l; lra.
Qed.

Lemma fold_maximum_scale (c : R) (l : list R) : forall a,
  0 < c ->
  fold_left maximum (map (Rmult c) l) (c * a) = c * fold_left maximum l a.
Proof.
  induction l as [|b l IH]; intros a Hc; cbn [map fold_left]; [reflexivity|].
  rewrite maximum_scale by exact Hc. apply IH. exact Hc.
Qed.

(** X15. With exact arithmetic the offsets do not depend on the unit of
    the forces: multiplying every force by one positive number leaves
    them unchanged. *)
Theorem calculate_diagram_offset_unit (c : R) (v : list R) (f : R) :
  0 < c ->
  calculate_diagram_offset (map (Rmult c) v) f = calculate_diagram_offset v f.
Proof.
  intros Hc. unfold calculate_diagram_offset.
  destruct v as [|a v]; [reflexivity|].
  cbn [map np_max rbind absolute exact].
  assert (forall x, Rabs (c * x) = c * Rabs x) as Habs.
  { intros x. rewrite Rabs_mult, (Rabs_pos_eq c) by lra. reflexivity. }
  rewrite map_map, Habs.
  rewrite (map_ext (fun x => Rabs (c * x)) (fun x => c * Rabs x))
    by (intros; apply Habs).
  rewrite <- (map_map Rabs (Rmult c)), fold_maximum_scale by exact Hc.
  set (m := fold_left maximum (map Rabs v) (Rabs a)).
  cbn [is_zero exact].
  destruct (Req_dec_T (c * m) 0) as [H0|H0], (Req_dec_T m 0) as [H1|H1].
  - rewrite map_map. reflexivity.
  - exfalso. apply H1. apply (Rmult_eq_reg_l c); lra.
  - exfalso. apply H0. rewrite H1. lra.
  - f_equal. cbn [map mul div exact]. f_equal.
    + field. lra.
    + rewrite map_map. apply map_ext. intros x. field. lra.
Qed.

End Units.

(** ** Forces that are not numbers *)

Section NotANumber.

Lemma maximum_nan (a b : float) :
  is_nan a = true \/ is_nan b = true -> is_nan (maximum a b) = true.
Proof.
  intros Hor. cbn [maximum binary64].
  destruct (is_nan a) eqn:Ha.
  - rewrite orb_true_r. exact Ha.
  - destruct Hor as [Hf | Hb]; [discriminate|].
    rewrite orb_false_r, FloatAxioms.leb_spec.
    apply is_nan_sf in Hb. rewrite Hb. cbn. exact (proj2 (is_nan_sf b) Hb).
Qed.

Lemma fold_maximum_nan (l : list float) : forall a,
  is_nan a = true \/ Exists (fun x => is_nan x = true) l ->
  is_nan (fold_left maximum l a) = true.
Proof.
  induction l as [|b l IH]; intros a Hor; cbn [fold_left].
  - destruct Hor as [Ha | Hex]; [exact Ha | inversion Hex].
  - apply IH. destruct Hor as [Ha | Hex].
    + left. apply maximum_nan. left. exact Ha.
    + inversion Hex as [? ? Hb | ? ? Hl]; subst.
      * left. apply maximum_nan. right. exact Hb.
      * right. exact Hl.
Qed.

(** X22. One force that is not a number spoils the whole diagram: the
    scaler returns an offset that is not a number for every entry. *)
Theorem calculate_diagram_offset_nan (v : list float) (f : float) :
  Exists (fun x => is_nan x = true) v ->
  exists r,
    calculate_diagram_offset v f = Ok r /\
    length r = length v /\
    Forall (fun y => is_nan y = true) r.
Proof.
  intros Hex.
  assert (v <> []) as Hne by (intros ->; inversion Hex).
  destruct (calculate_diagram_offset_cases v f Hne) as (m & Hm & Hr).
  assert (is_nan m = true) as Hnan.
  { destruct v as [|a v]; [contradiction|].
    cbn [map np_max] in Hm.
    assert (fold_left maximum (map absolute v) (absolute a) = m) as <-
      by congruence.
    assert (forall x, is_nan x = true -> is_nan (absolute x) = true) as Habs.
    { intros x Hx. apply is_nan_sf. cbn [absolute binary64].
      rewrite FloatAxioms.abs_spec. apply is_nan_sf in Hx. rewrite Hx.
      reflexivity. }
    apply fold_maximum_nan.
    inversion Hex as [? ? Ha | ? ? Hv]; subst.
    - left. apply Habs, Ha.
    - right. apply Exists_fmap. eapply Exists_impl; [exact Hv|].
      intros x Hx. apply Habs, Hx. }
  apply is_nan_sf in Hnan.
  assert (is_zero m = false) as Hz.
  { cbn [is_zero binary64]. rewrite FloatAxioms.eqb_spec, Hnan. reflexivity. }
  rewrite Hz in Hr. eexists. split; [exact Hr|].
  split; [apply length_map|].
  apply Forall_fmap, Forall_forall. intros x _. cbn.
  apply is_nan_sf. cbn [mul div binary64].
  rewrite FloatAxioms.mul_spec, FloatAxioms.div_spec, Hnan.
  destruct (Prim2SF x) as [s|s| |s mx ex]; reflexivity.
Qed.

End NotANumber.

(** ** The loops of the 3D diagram *)

Section Diagram3D.
Variable data_loader : DataLoader float.





Lemma outcome_girders_loop_cons force_type sf name config rest fig :
  outcome (girders_loop data_loader force_type sf ((name, config) :: rest) fig) =
  rbind (outcome (get_girder_3d_geometry data_loader (girder_elements config)))
    (fun g => rbind (force_array g force_type)
       (fun force_values =>
          if checked g force_values then Err ValueError
          else rbind (calculate_diagram_offset force_values sf)
                 (fun y_offset =>
                    outcome (girders_loop data_loader force_type sf rest
                               (fig ++ girder_traces name g force_values y_offset))))).
Proof.
  cbn [girders_loop]. rewrite outcome_bind.
  destruct (outcome (get_girder_3d_geometry data_loader (girder_elements config)))
    as [g|]; cbn [rbind]; [|reflexivity].
  rewrite outcome_bind, outcome_lift.
  destruct (force_array g force_type) as [fv|]; cbn [rbind]; [|reflexivity].
  unfold checked. destruct (negb _); [reflexivity|].
  rewrite outcome_bind, outcome_lift. reflexivity.
Qed.


End Diagram3D.

(** ** The 3D diagram of a complete table *)

Section Diagram3DResults.
Variable data_loader : DataLoader float.




End Diagram3DResults.

(** ** The 3D diagram *)

Section Diagram3DTheorems.
Variable data_loader : DataLoader float.




Lemma create_3d_force_diagram_unfold force_type diagram_name :
  valid_force_type force_type ->
  outcome (create_3d_force_diagram data_loader force_type diagram_name) =
    rbind (outcome (all_values_loop data_loader force_type GIRDER_CONFIGS []))
      (fun all_values =>
         if Nat.eqb (length all_values) 0 then Err RuntimeError
         else rbind (np_max (map PrimFloat.abs all_values))
                (fun max_abs_val =>
                   rbind (outcome (girders_loop data_loader force_type
                                     (if PrimFloat.ltb max_abs_val 1e-6
                                      then 1.0%float else 0.3%float)
                                     GIRDER_CONFIGS []))
                     (fun data => Ok {| fig_data := data;
                                        fig_title := layout_title diagram_name |})))
  /\
  calls (create_3d_force_diagram data_loader force_type diagram_name) =
    calls (all_values_loop data_loader force_type GIRDER_CONFIGS []) ++
    match outcome (all_values_loop data_loader force_type GIRDER_CONFIGS []) with
    | Ok all_values =>
        if Nat.eqb (length all_values) 0 then []
        else match np_max (map PrimFloat.abs all_values) with
             | Ok max_abs_val =>
                 calls (girders_loop data_loader force_type
                          (if PrimFloat.ltb max_abs_val 1e-6
                           then 1.0%float else 0.3%float)
                          GIRDER_CONFIGS [])
             | Err _ => []
             end
    | Err _ => []
    end.
Proof.
  intros Hft. apply valid_force_type_elem_of in Hft.
  unfold create_3d_force_diagram.
  destruct (decide (force_type ∈ ["Mz"; "Vy"])) as [_|Hnot]; [|contradiction].
  rewrite outcome_bind, calls_bind.
  destruct (outcome (all_values_loop data_loader force_type GIRDER_CONFIGS []))
    as [vals|]; cbn [rbind]; [|split; reflexivity].
  destruct (Nat.eqb (length vals) 0); [split; reflexivity|].
  rewrite outcome_bind, calls_bind, outcome_lift, calls_lift.
  destruct (np_max (map PrimFloat.abs vals)) as [m|]; cbn [rbind app];
    [|split; reflexivity].
  rewrite outcome_bind, calls_bind.
  destruct (outcome (girders_loop data_loader force_type _ GIRDER_CONFIGS []));
    cbn [rbind]; rewrite ?app_nil_r; split; reflexivity.
Qed.






End Diagram3DTheorems.

(** ** The traces of the 3D diagram *)

Section Traces.
Variable data_loader : DataLoader float.

Lemma calculate_diagram_offset_length (v r : list float) (f : float) :
  calculate_diagram_offset v f = Ok r -> length r = length v.
Proof.
  unfold calculate_diagram_offset. intros Hr.
  apply rbind_Ok_inv in Hr. destruct Hr as (m & _ & Hr).
  destruct (is_zero m); injection Hr as <-; apply length_map.
Qed.

Lemma girder_traces_well_formed name (g : geometry float) fv yo :
  checked g fv = false -> length yo = length fv ->
  Forall well_formed (girder_traces name g fv yo).
Proof.
  intros Hchk Hyo. unfold checked in Hchk.
  apply negb_false_iff in Hchk.
  apply andb_prop in Hchk. destruct Hchk as [Hchk Hyz].
  apply andb_prop in Hchk. destruct Hchk as [Hxf Hfy].
  apply Nat.eqb_eq in Hxf, Hfy, Hyz.
  unfold girder_traces. apply Forall_app. split.
  - repeat apply Forall_cons_2; try apply Forall_nil_2; unfold well_formed;
      cbn [trace_x trace_y trace_z trace_customdata].
    + split; [lia|]. split; [lia | discriminate].
    + rewrite length_zip_with. split; [lia|]. split; [lia|].
      intros cd Hcd. injection Hcd as <-. lia.
  - apply Forall_fmap, Forall_forall. intros i _. unfold well_formed. cbn.
    split; [reflexivity|]. split; [reflexivity | discriminate].
Qed.

Lemma girders_loop_well_formed force_type sf configs : forall fig data,
  outcome (girders_loop data_loader force_type sf configs fig) = Ok data ->
  Forall well_formed fig -> Forall well_formed data.
Proof.
  induction configs as [|[name config] rest IH]; intros fig data Hout Hfig.
  - cbn in Hout. injection Hout as <-. exact Hfig.
  - rewrite outcome_girders_loop_cons in Hout.
    apply rbind_Ok_inv in Hout. destruct Hout as (g & _ & Hout).
    apply rbind_Ok_inv in Hout. destruct Hout as (fv & _ & Hout).
    destruct (checked g fv) eqn:Hchk; [discriminate|].
    apply rbind_Ok_inv in Hout. destruct Hout as (yo & Hyo & Hout).
    apply (IH _ _ Hout). apply Forall_app. split; [exact Hfig|].
    apply girder_traces_well_formed; [exact Hchk|].
    eapply calculate_diagram_offset_length. exact Hyo.
Qed.

(** X23. Every trace of the 3D diagram has x, y and z arrays of one
    length, and a force line carries one custom data value for each of
    its points. *)
Theorem create_3d_force_diagram_well_formed (force_type diagram_name : string)
    (fig : figure) :
  outcome (create_3d_force_diagram data_loader force_type diagram_name)
    = Ok fig ->
  Forall well_formed (fig_data fig) /\
  fig_title fig = layout_title diagram_name.
Proof.
  intros Hout.
  assert (valid_force_type force_type) as Hft.
  { apply valid_force_type_elem_of. unfold create_3d_force_diagram in Hout.
    destruct (decide (force_type ∈ ["Mz"; "Vy"])); [assumption|discriminate]. }
  destruct (create_3d_force_diagram_unfold data_loader force_type diagram_name
              Hft) as [Ho _].
  rewrite Ho in Hout. clear Ho.
  apply rbind_Ok_inv in Hout. destruct Hout as (vals & _ & Hout).
  destruct (Nat.eqb (length vals) 0); [discriminate|].
  apply rbind_Ok_inv in Hout. destruct Hout as (m & _ & Hout).
  apply rbind_Ok_inv in Hout. destruct Hout as (data & Hdata & Hfig).
  injection Hfig as <-. cbn [fig_data fig_title]. split; [|reflexivity].
  eapply girders_loop_well_formed; [exact Hdata | constructor].
Qed.

End Traces.

(** ** The loaders *)

Section LoadingProperties.
Context {num : Type} `{Arith num}.

Lemma node_table_notin items : forall (table t : gmap Z (coords num)) k,
  node_table items table = Some t ->
  k ∉ map fst items -> t !! k = table !! k.
Proof.
  induction items as [|[k0 v] items IH]; intros table t k Ht Hk;
    cbn [node_table map fst] in Ht, Hk.
  - congruence.
  - destruct v as [|x [|y [|z rest]]]; try discriminate.
    apply not_elem_of_cons in Hk. destruct Hk as [Hne Hk].
    rewrite (IH _ _ _ Ht Hk). apply lookup_insert_ne. congruence.
Qed.

Lemma node_table_last pre : forall post (table t : gmap Z (coords num)) k v,
  node_table (pre ++ (k, v) :: post) table = Some t ->
  k ∉ map fst post ->
  exists x y z rest,
    v = x :: y :: z :: rest /\
    t !! k = Some {| coord_x := x; coord_y := y; coord_z := z |}.
Proof.
  induction pre as [|[k0 v0] pre IH]; intros post table t k v Ht Hk;
    cbn [app node_table] in Ht.
  - destruct v as [|x [|y [|z rest]]]; try discriminate.
    exists x, y, z, rest. split; [reflexivity|].
    rewrite (node_table_notin _ _ _ _ Ht Hk). apply lookup_insert_eq.
  - destruct v0 as [|x0 [|y0 [|z0 rest0]]]; try discriminate.
    eapply IH; eassumption.
Qed.

Lemma node_table_Some items : forall (table : gmap Z (coords num)),
  (exists t, node_table items table = Some t) <->
  Forall (fun kv => 3 <= length (snd kv)) items.
Proof.
  induction items as [|[k v] items IH]; intros table; cbn [node_table].
  - split; [constructor | eauto].
  - rewrite Forall_cons. cbn [snd].
    destruct v as [|x [|y [|z rest]]]; cbn [length].
    1-3: split; [intros (t & Ht); discriminate | intros [Hlen _]; lia].
    rewrite IH. split; [intros Hall; split; [lia | exact Hall] | tauto].
Qed.

(** X19. After the node table is loaded, a node id returns the first
    three entries of the last tuple stored under it; an id the table
    does not hold is unknown, also when it was known before the load. *)
Theorem load_node_coordinates_lookup (self self' : DataLoader num)
    (nodes_dict : list (Z * list num)) (table : gmap Z (coords num)) :
  load_node_coordinates self nodes_dict = (self', Some table) ->
  (forall pre k v post,
      nodes_dict = pre ++ (k, v) :: post -> k ∉ map fst post ->
      exists x y z rest,
        v = x :: y :: z :: rest /\
        get_node_coords self' k
          = Ok {| coord_x := x; coord_y := y; coord_z := z |}) /\
  (forall k, k ∉ map fst nodes_dict -> get_node_coords self' k = Err KeyError) /\
  dataset self' = dataset self /\ elements self' = elements self.
Proof.
  unfold load_node_coordinates. intros Hload.
  destruct (node_table nodes_dict ∅) as [t|] eqn:Ht; [|discriminate].
  injection Hload as <- <-. cbn [dataset elements].
  split; [|split; [|split; reflexivity]].
  - intros pre k v post -> Hk.
    destruct (node_table_last _ _ _ _ _ _ Ht Hk) as (x & y & z & rest & -> & Hl).
    exists x, y, z, rest. split; [reflexivity|].
    unfold get_node_coords. cbn [nodes]. rewrite Hl. reflexivity.
  - intros k Hk. unfold get_node_coords. cbn [nodes].
    rewrite (node_table_notin _ _ _ _ Ht Hk), lookup_empty. reflexivity.
Qed.

(** X20. The node table is loaded exactly when every tuple has at least
    three entries; otherwise the loader is left as it was. *)
Theorem load_node_coordinates_short_tuple (self : DataLoader num)
    (nodes_dict : list (Z * list num)) :
  ((exists table, snd (load_node_coordinates self nodes_dict) = Some table)
   <-> Forall (fun kv => 3 <= length (snd kv)) nodes_dict) /\
  (snd (load_node_coordinates self nodes_dict) = None ->
   fst (load_node_coordinates self nodes_dict) = self).
Proof.
  unfold load_node_coordinates. rewrite <- (node_table_Some nodes_dict ∅).
  destruct (node_table nodes_dict ∅) as [t|]; cbn [fst snd]; split.
  - split; eauto.
  - discriminate.
  - split; intros (t & Ht); discriminate.
  - reflexivity.
Qed.

Lemma member_table_notin items : forall (table t : gmap Z connectivity) k,
  member_table items table = Some t ->
  k ∉ map fst items -> t !! k = table !! k.
Proof.
  induction items as [|[k0 v] items IH]; intros table t k Ht Hk;
    cbn [member_table map fst] in Ht, Hk.
  - congruence.
  - destruct v as [|i [|j rest]]; try discriminate.
    apply not_elem_of_cons in Hk. destruct Hk as [Hne Hk].
    rewrite (IH _ _ _ Ht Hk). apply lookup_insert_ne. congruence.
Qed.

Lemma member_table_last pre : forall post (table t : gmap Z connectivity) k v,
  member_table (pre ++ (k, v) :: post) table = Some t ->
  k ∉ map fst post ->
  exists i j rest,
    v = i :: j :: rest /\ t !! k = Some {| node_i := i; node_j := j |}.
Proof.
  induction pre as [|[k0 v0] pre IH]; intros post table t k v Ht Hk;
    cbn [app member_table] in Ht.
  - destruct v as [|i [|j rest]]; try discriminate.
    exists i, j, rest. split; [reflexivity|].
    rewrite (member_table_notin _ _ _ _ Ht Hk). apply lookup_insert_eq.
  - destruct v0 as [|i0 [|j0 rest0]]; try discriminate.
    eapply IH; eassumption.
Qed.

(** X21. After the connectivity table is loaded, an element id returns
    the first two entries of the last tuple stored under it; an id the
    table does not hold is unknown. *)
Theorem load_element_connectivity_lookup (self self' : DataLoader num)
    (members_dict : list (Z * list Z)) (table : gmap Z connectivity) :
  load_element_connectivity self members_dict = (self', Some table) ->
  (forall pre k v post,
      members_dict = pre ++ (k, v) :: post -> k ∉ map fst post ->
      exists i j rest,
        v = i :: j :: rest /\
        get_element_nodes self' k = Ok {| node_i := i; node_j := j |}) /\
  (forall k, k ∉ map fst members_dict ->
             get_element_nodes self' k = Err KeyError) /\
  dataset self' = dataset self /\ nodes self' = nodes self.
Proof.
  unfold load_element_connectivity. intros Hload.
  destruct (member_table members_dict ∅) as [t|] eqn:Ht; [|discriminate].
  injection Hload as <- <-. cbn [dataset nodes].
  split; [|split; [|split; reflexivity]].
  - intros pre k v post -> Hk.
    destruct (member_table_last _ _ _ _ _ _ Ht Hk) as (i & j & rest & -> & Hl).
    exists i, j, rest. split; [reflexivity|].
    unfold get_element_nodes. cbn [elements]. rewrite Hl. reflexivity.
  - intros k Hk. unfold get_element_nodes. cbn [elements].
    rewrite (member_table_notin _ _ _ _ Ht Hk), lookup_empty. reflexivity.
Qed.

End LoadingProperties.

(** ** The further properties on concrete inputs *)

(** X1, witness: the straight line has stations 0, 1, 2, 3. *)
Lemma extract_girder_forces_positions_running_witness :
  exists lens,
    Forall2 (fun e len => length_of line_loader e = Ok len) [1; 2; 3]%Z lens /\
    [0; 1; 2; 3]%float = 0%float :: running 0%float lens.
Proof.
  refine (extract_girder_forces_positions_running line_loader [1; 2; 3]%Z "Mz"
            [0; 1; 2; 3]%float [0; 10; -5; 0]%float _).
  vm_compute. reflexivity.
Defined.

(** X2, witness: the moments of the straight line. *)
Lemma extract_girder_forces_values_ends_witness :
  exists ds,
    Forall2 (fun e d => get_element_data line_loader e = Ok d) [1; 2; 3]%Z ds /\
    [0; 10; -5; 0]%float =
      match ds with
      | [] => []
      | d0 :: _ => end_i "Mz" d0 :: map (end_j "Mz") ds
      end.
Proof.
  refine (extract_girder_forces_values_ends line_loader [1; 2; 3]%Z "Mz"
            [0; 1; 2; 3]%float [0; 10; -5; 0]%float _).
  vm_compute. reflexivity.
Defined.

(** X3, witness: the first two elements of the straight line. *)
Lemma extract_girder_forces_prefix_witness :
  outcome (extract_girder_forces line_loader [1; 2]%Z "Mz")
  = Ok (take 3 [0; 1; 2; 3]%float, take 3 [0; 10; -5; 0]%float).
Proof.
  refine (extract_girder_forces_prefix line_loader [1; 2]%Z [3%Z] "Mz"
            [0; 1; 2; 3]%float [0; 10; -5; 0]%float _ _).
  - discriminate.
  - vm_compute. reflexivity.
Defined.

(** X4, witness: the twelve lookups of the straight line. *)
Lemma extract_girder_forces_calls_witness :
  calls (extract_girder_forces line_loader [1; 2; 3]%Z "Mz") =
    concat (map (element_calls line_loader) [1; 2; 3]%Z) /\
  Forall (fun e => exists n,
            get_element_nodes line_loader e = Ok n /\
            element_calls line_loader e =
              [GetElementData e; GetElementNodes e;
               GetNodeCoords (node_i n); GetNodeCoords (node_j n)])
         [1; 2; 3]%Z.
Proof.
  refine (extract_girder_forces_calls line_loader [1; 2; 3]%Z "Mz"
            ([0; 1; 2; 3]%float, [0; 10; -5; 0]%float) _).
  vm_compute. reflexivity.
Defined.

(** X8, witness: the 3D arrays of the straight line. *)
Lemma get_girder_3d_geometry_lengths_witness :
  let g := {| geom_x := [0; 1; 2; 3]%float; geom_y := [0; 0; 0; 0]%float;
              geom_z := [0; 0; 0; 0]%float;
              geom_Mz := [0; 10; -5; 0]%float;
              geom_Vy := [4; 4; -6; 0]%float |} in
  length (geom_x g) = 4%nat /\ length (geom_y g) = 4%nat /\
  length (geom_z g) = 4%nat /\ length (geom_Mz g) = 4%nat /\
  length (geom_Vy g) = 4%nat.
Proof.
  refine (get_girder_3d_geometry_lengths line_loader [1; 2; 3]%Z _ _).
  vm_compute. reflexivity.
Defined.

(** X9, witness: the 3D arrays of the straight line. *)
Lemma get_girder_3d_geometry_stations_witness :
  exists vws,
    Forall2 (views line_loader) [1; 2; 3]%Z vws /\
    [0; 1; 2; 3]%float = stations (fun v => coord_x (view_i v))
                                  (fun v => coord_x (view_j v)) vws /\
    [0; 0; 0; 0]%float = stations (fun v => coord_y (view_i v))
                                  (fun v => coord_y (view_j v)) vws /\
    [0; 0; 0; 0]%float = stations (fun v => coord_z (view_i v))
                                  (fun v => coord_z (view_j v)) vws /\
    [0; 10; -5; 0]%float = stations (fun v => Mz_i (view_data v))
                                    (fun v => Mz_j (view_data v)) vws /\
    [4; 4; -6; 0]%float = stations (fun v => Vy_i (view_data v))
                                   (fun v => Vy_j (view_data v)) vws.
Proof.
  refine (get_girder_3d_geometry_stations line_loader [1; 2; 3]%Z
            {| geom_x := [0; 1; 2; 3]%float; geom_y := [0; 0; 0; 0]%float;
               geom_z := [0; 0; 0; 0]%float;
               geom_Mz := [0; 10; -5; 0]%float;
               geom_Vy := [4; 4; -6; 0]%float |} _).
  vm_compute. reflexivity.
Defined.

(** X10, witness: a loader on which nothing has been loaded. *)
Lemma extractors_before_load_witness :
  extract_girder_forces (@DataLoader_init float) [1; 2; 3]%Z "Vy"
    = ([GetElementData 1], Err RuntimeError) /\
  get_girder_3d_geometry (@DataLoader_init float) [1; 2; 3]%Z
    = ([GetElementData 1], Err RuntimeError).
Proof.
  refine (extractors_before_load DataLoader_init 1%Z [2; 3]%Z "Vy" _ _).
  - reflexivity.
  - right; reflexivity.
Defined.

(** X11, witness: element 1 of [alias_loader] carries "Mz_i" twice, with
    the values 1 and 3, and the generic "Mz" with the value 2. *)
Lemma get_element_data_canonical_name_witness :
  exists d, get_element_data alias_loader 1 = Ok d /\
            elem_getitem d "Mz_i" = Ok 3%float.
Proof.
  refine (get_element_data_canonical_name alias_loader _ 1%Z
            {| Component := ["Mz_i"; "Mz"; "Mz_i"; "Mz_j"];
               forces := [1; 2; 3; 4]%float |}
            "Mz_i" ["Mz_i"; "Mz"] ["Mz_j"] 3%float eq_refl _ _ _ _ _ _).
  - vm_compute. reflexivity.
  - set_solver.
  - reflexivity.
  - rewrite not_elem_of_cons. split; [discriminate | apply not_elem_of_nil].
  - cbn. lia.
  - reflexivity.
Defined.

(** X12, witness: element 2 of [alias_loader] carries the generic names
    only. *)
Lemma get_element_data_generic_name_witness :
  end_i "Mz" {| Mz_i := 7; Mz_j := 7; Vy_i := 8; Vy_j := 8 |}%float
  = end_j "Mz" {| Mz_i := 7; Mz_j := 7; Vy_i := 8; Vy_j := 8 |}%float.
Proof.
  refine (get_element_data_generic_name alias_loader _ 2%Z
            {| Component := ["Mz"; "Vy"]; forces := [7; 8]%float |}
            "Mz" _ eq_refl _ _ _ _).
  - vm_compute. reflexivity.
  - left; reflexivity.
  - intros k Hk Hne.
    change (k ∈ ["Mz_i"; "MZ_I"; "MZ_I_END"; "BM_I"; "Mz";
                 "Mz_j"; "MZ_J"; "MZ_J_END"; "BM_J"; "Mz"]) in Hk.
    cbn [Component]. rewrite !elem_of_cons, elem_of_nil in Hk.
    rewrite !not_elem_of_cons.
    destruct Hk as [->|[->|[->|[->|[->|[->|[->|[->|[->|[->|[]]]]]]]]]]];
      repeat split; (discriminate || congruence || apply not_elem_of_nil).
  - vm_compute. reflexivity.
Defined.

(** X14, witness: of 10, -37 and 5 the entry -37 is drawn at the factor
    0.3. *)
Lemma calculate_diagram_offset_peak_witness :
  exists r k x y,
    calculate_diagram_offset [10; -37; 5]%float 0.3%float = Ok r /\
    [10; -37; 5]%float !! k = Some x /\ r !! k = Some y /\
    Forall (fun x' => float_le (PrimFloat.abs x') (PrimFloat.abs x))
           [10; -37; 5]%float /\
    PrimFloat.eqb (PrimFloat.abs y) 0.3 = true.
Proof.
  refine (calculate_diagram_offset_peak [10; -37; 5]%float 0.3%float 10%float
            _ _ _ _ _).
  - repeat apply Forall_cons_2; try apply Forall_nil_2; reflexivity.
  - reflexivity.
  - reflexivity.
  - set_solver.
  - reflexivity.
Defined.

(** X15, witness: forces in newtons instead of kilonewtons. *)
Lemma calculate_diagram_offset_unit_witness :
  calculate_diagram_offset (map (Rmult 1000) [1; -2]%R) (3 / 10)%R
  = calculate_diagram_offset [1; -2]%R (3 / 10)%R.
Proof.
  refine (calculate_diagram_offset_unit 1000%R [1; -2]%R (3 / 10)%R _).
  lra.
Defined.



(** X19, witness: three items, two of them under the id 1. *)
Lemma load_node_coordinates_lookup_witness :
  let self' := fst (load_node_coordinates (@DataLoader_init float)
                      [ (1%Z, [0; 0; 0]%float); (2%Z, [1; 0; 0; 9]%float);
                        (1%Z, [5; 5; 5]%float) ]) in
  (forall pre k v post,
      [ (1%Z, [0; 0; 0]%float); (2%Z, [1; 0; 0; 9]%float);
        (1%Z, [5; 5; 5]%float) ] = pre ++ (k, v) :: post ->
      k ∉ map fst post ->
      exists x y z rest,
        v = x :: y :: z :: rest /\
        get_node_coords self' k
          = Ok {| coord_x := x; coord_y := y; coord_z := z |}) /\
  (forall k, k ∉ map fst [ (1%Z, [0; 0; 0]%float); (2%Z, [1; 0; 0; 9]%float);
                           (1%Z, [5; 5; 5]%float) ] ->
             get_node_coords self' k = Err KeyError) /\
  dataset self' = dataset (@DataLoader_init float) /\
  elements self' = elements (@DataLoader_init float).
Proof.
  refine (load_node_coordinates_lookup DataLoader_init _
            [ (1%Z, [0; 0; 0]%float); (2%Z, [1; 0; 0; 9]%float);
              (1%Z, [5; 5; 5]%float) ]
            (nodes (fst (load_node_coordinates (@DataLoader_init float)
                      [ (1%Z, [0; 0; 0]%float); (2%Z, [1; 0; 0; 9]%float);
                        (1%Z, [5; 5; 5]%float) ]))) _).
  reflexivity.
Defined.

(** X21, witness: the connectivity of the straight line. *)
Lemma load_element_connectivity_lookup_witness :
  let self' := fst (load_element_connectivity (@DataLoader_init float)
                      [ (1, [1; 2]); (2, [2; 3]); (3, [3; 4]) ]%Z) in
  (forall pre k v post,
      [ (1, [1; 2]); (2, [2; 3]); (3, [3; 4]) ]%Z = pre ++ (k, v) :: post ->
      k ∉ map fst post ->
      exists i j rest,
        v = i :: j :: rest /\
        get_element_nodes self' k = Ok {| node_i := i; node_j := j |}) /\
  (forall k, k ∉ map fst [ (1, [1; 2]); (2, [2; 3]); (3, [3; 4]) ]%Z ->
             get_element_nodes self' k = Err KeyError) /\
  dataset self' = dataset (@DataLoader_init float) /\
  nodes self' = nodes (@DataLoader_init float).
Proof.
  refine (load_element_connectivity_lookup DataLoader_init _
            [ (1, [1; 2]); (2, [2; 3]); (3, [3; 4]) ]%Z
            (elements (fst (load_element_connectivity (@DataLoader_init float)
                              [ (1, [1; 2]); (2, [2; 3]); (3, [3; 4]) ]%Z))) _).
  reflexivity.
Defined.

(** X22, witness: the second of three forces is not a number. *)
Lemma calculate_diagram_offset_nan_witness :
  exists r,
    calculate_diagram_offset [10; nan; 5]%float 0.3%float = Ok r /\
    length r = length [10; nan; 5]%float /\
    Forall (fun y => is_nan y = true) r.
Proof.
  refine (calculate_diagram_offset_nan [10; nan; 5]%float 0.3%float _).
  apply Exists_cons_tl, Exists_cons_hd. reflexivity.
Defined.

(** X23, witness: the shear diagram of the loader that holds the whole
    girder table. *)
Lemma create_3d_force_diagram_well_formed_witness :
  let fig := {| fig_data :=
                  match outcome (create_3d_force_diagram table_loader "Vy"
                                   "Shear Force") with
                  | Ok fig => fig_data fig
                  | Err _ => []
                  end;
                fig_title := "3D Shear Force Diagram - All Girders (MIDAS Style)" |} in
  Forall well_formed (fig_data fig) /\
  fig_title fig = layout_title "Shear Force".
Proof.
  refine (create_3d_force_diagram_well_formed table_loader "Vy" "Shear Force"
            _ _).
  vm_compute. reflexivity.
Defined.
